(** * Spothole: the pothole report routes and their Mongoose model

    A shallow embedding of [routes/potholeRoutes.js] and [models/Pothole.js].
    The five route handlers are state-passing functions over a [World] holding
    the [potholes] collection, the uploaded files, the system clock and a trace
    of the storage accesses made so far.  The behaviour of the platform the
    handlers call into (JavaScript coercions, [path.join], Mongoose queries,
    MongoDB's treatment of [skip] and [limit]) is written out next to the
    handlers, one definition per library function the source calls. *)

From Stdlib Require Import ZArith QArith Qround String Ascii List Lia.
From stdpp Require Import base gmap sets list strings sorting.
From Stdlib Require Import DecimalString DecimalPos DecimalZ.

Open Scope Z_scope.

(** ** JavaScript numbers and the coercions the handlers use *)

Module JS.

(** A JavaScript number.  Finite values are kept exact, as rationals: the
    rounding to binary64 and the sign of zero are not represented. *)
Inductive number :=
| NaN
| Infinity (negative : bool)
| Fin (q : Q).

Definition of_Z (z : Z) : number := Fin (inject_Z z).

Definition isNaN (x : number) : bool :=
  match x with NaN => true | _ => false end.

Definition negate (x : number) : number :=
  match x with
  | NaN => NaN
  | Infinity s => Infinity (negb s)
  | Fin q => Fin (Qopp q)
  end.

Definition is_negative (q : Q) : bool := Qnum q <? 0.
Definition is_zero (q : Q) : bool := Qnum q =? 0.

(** The [/] operator on numbers. *)
Definition div (x y : number) : number :=
  match x, y with
  | NaN, _ => NaN
  | _, NaN => NaN
  | Infinity _, Infinity _ => NaN
  | Infinity s, Fin q => Infinity (xorb s (is_negative q))
  | Fin _, Infinity _ => Fin (inject_Z 0)
  | Fin a, Fin b =>
      if is_zero b then
        if is_zero a then NaN else Infinity (is_negative a)
      else Fin (Qdiv a b)
  end.

Definition Math_ceil (x : number) : number :=
  match x with
  | Fin q => Fin (inject_Z (Qceiling q))
  | _ => x
  end.

(** *** [parseFloat] *)

Definition code (c : ascii) : nat := nat_of_ascii c.

Definition is_digit (c : ascii) : bool :=
  ((48 <=? code c) && (code c <=? 57))%nat.

Definition digit_val (c : ascii) : Z := Z.of_nat (code c) - 48.

(** White space and line terminators of one, two and three UTF-8 bytes. *)
Definition ws1 (a : ascii) : bool :=
  ((9 <=? code a) && (code a <=? 13) || (code a =? 32))%nat.

Definition ws2 (a b : ascii) : bool :=
  ((code a =? 194) && (code b =? 160))%nat.

Definition ws3 (a b c : ascii) : bool :=
  ((code a =? 225) && (code b =? 154) && (code c =? 128)
   || (code a =? 226) && (code b =? 128)
      && ((128 <=? code c) && (code c <=? 138)
          || (code c =? 168) || (code c =? 169) || (code c =? 175))
   || (code a =? 226) && (code b =? 129) && (code c =? 159)
   || (code a =? 227) && (code b =? 128) && (code c =? 128)
   || (code a =? 239) && (code b =? 187) && (code c =? 191))%nat.

Fixpoint trimStart (s : string) : string :=
  match s with
  | String a s1 =>
      if ws1 a then trimStart s1
      else
        match s1 with
        | String b s2 =>
            if ws2 a b then trimStart s2
            else
              match s2 with
              | String c s3 => if ws3 a b c then trimStart s3 else s
              | EmptyString => s
              end
        | EmptyString => s
        end
  | EmptyString => s
  end.

(** The longest run of decimal digits at the head of [s], accumulated on
    [acc]: the value, how many digits were read, and what follows them. *)
Fixpoint digits (s : string) (acc : Z) (n : nat) : Z * nat * string :=
  match s with
  | String c s' =>
      if is_digit c then digits s' (10 * acc + digit_val c) (S n)
      else (acc, n, s)
  | EmptyString => (acc, n, s)
  end.

Definition sign (s : string) : bool * string :=
  match s with
  | String "-" r => (true, r)
  | String "+" r => (false, r)
  | _ => (false, s)
  end.

Fixpoint strip_prefix (p s : string) : option string :=
  match p, s with
  | EmptyString, _ => Some s
  | String a p', String b s' =>
      if Ascii.eqb a b then strip_prefix p' s' else None
  | String _ _, EmptyString => None
  end.

(** The value of an exponent part at the head of [s]; [0] when there is
    none (an [e] with no digit after it is not part of the literal). *)
Definition exponent (s : string) : Z :=
  match s with
  | String c r =>
      if (Ascii.eqb c "e" || Ascii.eqb c "E")%bool then
        let '(neg, r') := sign r in
        let '(v, n, _) := digits r' 0 0%nat in
        if (n =? 0)%nat then 0 else if neg then - v else v
      else 0
  | EmptyString => 0
  end.

Definition pow10 (k : Z) : Q :=
  if 0 <=? k then inject_Z (10 ^ k) else Qmake 1 (Z.to_pos (10 ^ (- k))).

Definition decimal (m e : Z) : Q := Qred (Qmult (inject_Z m) (pow10 e)).

(** The longest prefix of [s] that is an unsigned decimal literal. *)
Definition unsigned_literal (s : string) : number :=
  match strip_prefix "Infinity" s with
  | Some _ => Infinity false
  | None =>
      let '(ip, n1, r1) := digits s 0 0%nat in
      let '(m, n2, r2) :=
        match r1 with
        | String "." r => digits r ip 0%nat
        | _ => (ip, 0%nat, r1)
        end in
      if (n1 + n2 =? 0)%nat then NaN
      else Fin (decimal m (exponent r2 - Z.of_nat n2))
  end.

(** [ToString] of a form field: the field's text, or ["undefined"] when the
    field is absent from the body. *)
Definition ToString (v : option string) : string :=
  match v with Some s => s | None => "undefined" end.

Definition parseFloat (v : option string) : number :=
  let '(neg, r) := sign (trimStart (ToString v)) in
  let x := unsigned_literal r in
  if neg then negate x else x.

(** *** [Array.prototype.includes] on an array of strings *)

(** A value read from a parsed JSON body. *)
Inductive value :=
| Undefined
| Str (s : string)
| Other.   (* null, a boolean, a number, an array or an object *)

Definition includes (xs : list string) (v : value) : bool :=
  match v with
  | Str s => bool_decide (s ∈ xs)
  | _ => false
  end.

(** Truthiness of an optional string ([undefined] and [""] are falsy). *)
Definition truthy (v : option string) : bool :=
  match v with
  | Some s => negb (String.eqb s "")
  | None => false
  end.

(** *** [toLowerCase], a regular expression test, numbers as strings *)

(** Strings are their UTF-8 bytes; of the letters whose lower case is an
    ASCII letter only the ASCII capitals map to one of [e g j n p], the
    letters the upload filter looks for, so bytes outside [A-Z] are kept. *)
Definition lower (c : ascii) : ascii :=
  if ((65 <=? code c) && (code c <=? 90))%nat
  then ascii_of_nat (code c + 32) else c.

Fixpoint toLowerCase (s : string) : string :=
  match s with
  | EmptyString => EmptyString
  | String c r => String (lower c) (toLowerCase r)
  end.

(** [p] occurs somewhere in [s]: what [test] decides for a regular
    expression that is a plain word without anchors. *)
Fixpoint contains (p s : string) : bool :=
  match strip_prefix p s with
  | Some _ => true
  | None =>
      match s with
      | String _ r => contains p r
      | EmptyString => false
      end
  end.

(** [ToString] of a number that is an integer (below 10^21 in size): its
    decimal digits, with a minus sign when negative. *)
Definition Number_toString (z : Z) : string :=
  NilZero.string_of_int (Z.to_int z).

End JS.

(** ** [path.join] (POSIX) *)

Module Path.

Fixpoint segments (s : string) : list string :=
  match s with
  | EmptyString => [EmptyString]
  | String c r =>
      if Ascii.eqb c "/" then EmptyString :: segments r
      else
        match segments r with
        | seg :: rest => String c seg :: rest
        | [] => [String c EmptyString]
        end
  end.

(** Resolution of ["."] and [".."] segments; [stack] holds the segments
    kept so far, innermost first. *)
Fixpoint resolve (absolute : bool) (segs stack : list string) : list string :=
  match segs with
  | [] => rev stack
  | seg :: rest =>
      if (String.eqb seg "" || String.eqb seg ".")%bool then
        resolve absolute rest stack
      else if String.eqb seg ".." then
        match stack with
        | top :: below =>
            if String.eqb top ".." then resolve absolute rest (seg :: stack)
            else resolve absolute rest below
        | [] =>
            if absolute then resolve absolute rest []
            else resolve absolute rest [seg]
        end
      else resolve absolute rest (seg :: stack)
  end.

Fixpoint ends_with_slash (s : string) : bool :=
  match s with
  | EmptyString => false
  | String c EmptyString => Ascii.eqb c "/"
  | String _ r => ends_with_slash r
  end.

Definition is_absolute (s : string) : bool :=
  match s with String c _ => Ascii.eqb c "/" | EmptyString => false end.

Definition normalize (p : string) : string :=
  if String.eqb p "" then "."
  else
    let body := String.concat "/" (resolve (is_absolute p) (segments p) []) in
    if String.eqb body "" then
      if is_absolute p then "/"
      else if ends_with_slash p then "./" else "."
    else
      let body := if ends_with_slash p then body +:+ "/" else body in
      if is_absolute p then "/" +:+ body else body.

Definition join (args : list string) : string :=
  match filter (λ a, a ≠ "") args with
  | [] => "."
  | parts => normalize (String.concat "/" parts)
  end.

(** *** [path.extname] (POSIX) *)

(** The last component of a path, trailing separators left aside; [""] when
    there is none. *)
Definition last_component (p : string) : string :=
  default "" (last (filter (λ s, s ≠ "") (segments p))).

(** The text before the last dot of [s] and the text from that dot on. *)
Fixpoint split_ext (s : string) : option (string * string) :=
  match s with
  | EmptyString => None
  | String c r =>
      match split_ext r with
      | Some (pre, ext) => Some (String c pre, ext)
      | None => if Ascii.eqb c "." then Some (EmptyString, s) else None
      end
  end.

(** From the last dot of the last component to its end; empty when there is
    no dot, when the only dot comes first, and for [".."]. *)
Definition extname (p : string) : string :=
  let base := last_component p in
  match split_ext base with
  | None => ""
  | Some (pre, ext) =>
      if (String.eqb pre "" || String.eqb base "..")%bool then "" else ext
  end.

End Path.

(** ** The data model: [models/Pothole.js] *)

Definition ObjectId := nat.

(** The strings that name an [ObjectId]: 24 hexadecimal digits, of either
    case, read as one number. *)
Definition hex_val (c : ascii) : option N :=
  let n := N_of_ascii c in
  if ((48 <=? n) && (n <=? 57))%N then Some (n - 48)%N
  else if ((97 <=? n) && (n <=? 102))%N then Some (n - 87)%N
  else if ((65 <=? n) && (n <=? 70))%N then Some (n - 55)%N
  else None.

Fixpoint hex_number (acc : N) (s : string) : option N :=
  match s with
  | EmptyString => Some acc
  | String c s' =>
      match hex_val c with
      | Some d => hex_number (16 * acc + d)%N s'
      | None => None
      end
  end.

Definition ObjectId_of_string (s : string) : option ObjectId :=
  if (String.length s =? 24)%nat then N.to_nat <$> hex_number 0%N s
  else None.

Record Gps := {
  longitude : JS.number;
  latitude : JS.number
}.

(** A stored document of the [potholes] collection. *)
Record Pothole := {
  _id : ObjectId;
  distance : JS.number;
  image : string;
  gps : Gps;
  vehicle_name : string;
  vehicle_ground_level : JS.number;
  pothole_status : string;
  reportedBy : ObjectId;
  createdAt : Z;
  updatedAt : Z
}.

(** The [enum] of [pothole_status], which the status route repeats. *)
Definition statuses : list string := ["pending"; "inprocess"; "completed"].

(** The object handed to [Pothole.create]: numbers as [parseFloat] left
    them, [vehicle_name] possibly [undefined]. *)
Record PotholeFields := {
  f_distance : JS.number;
  f_image : string;
  f_gps : Gps;
  f_vehicle_name : option string;
  f_vehicle_ground_level : JS.number;
  f_reportedBy : ObjectId
}.

(** Modelled from the spec: the [User] model ([models/User.js]) is not part
    of the sources; a report carries "an expanded view of reportedBy limited
    to the reporter's public identity (name, email)". *)
Record User := {
  user_id : ObjectId;
  name : string;
  email : string
}.

(** A report with its [reportedBy] reference populated ([null] when no user
    has that id). *)
Record Populated := {
  doc : Pothole;
  reporter : option User
}.

(** ** The world the handlers run in *)

Inductive exn :=
| ValidationError (paths : list string)   (* Mongoose: the paths that failed *)
| CastError (value : string)        (* Mongoose: [value] is no [ObjectId] *)
| MongoServerError (reason : string).

(** Accesses to the [potholes] collection and to the file system, in the
    order made. *)
Inductive access :=
| DbInsert (id : ObjectId)
| DbFind (cond : option string)
| DbCount (cond : option string)
| DbFindById (id : ObjectId)
| DbFindOneAndUpdate (id : ObjectId)
| DbDeleteOne (id : ObjectId)
| FsExists (path : string)
| FsUnlink (path : string).

Record World := {
  potholes : list Pothole;        (* the collection, in insertion order *)
  users : list User;
  files : gset string;            (* paths of the files on disk *)
  clock : nat → Z;                (* the successive readings of [Date.now()] *)
  ticks : nat;                    (* how many readings were taken *)
  next_id : ObjectId;             (* the next fresh [ObjectId] *)
  trace : list access;
  dirname : string                (* [__dirname] of the routes module *)
}.

Definition with_potholes (ps : list Pothole) (w : World) : World :=
  {| potholes := ps; users := users w; files := files w; clock := clock w;
     ticks := ticks w; next_id := next_id w; trace := trace w;
     dirname := dirname w |}.

Definition with_files (fs : gset string) (w : World) : World :=
  {| potholes := potholes w; users := users w; files := fs; clock := clock w;
     ticks := ticks w; next_id := next_id w; trace := trace w;
     dirname := dirname w |}.

Definition with_ticks (n : nat) (w : World) : World :=
  {| potholes := potholes w; users := users w; files := files w;
     clock := clock w; ticks := n; next_id := next_id w; trace := trace w;
     dirname := dirname w |}.

Definition with_next_id (n : ObjectId) (w : World) : World :=
  {| potholes := potholes w; users := users w; files := files w;
     clock := clock w; ticks := ticks w; next_id := n; trace := trace w;
     dirname := dirname w |}.

Definition with_trace (t : list access) (w : World) : World :=
  {| potholes := potholes w; users := users w; files := files w;
     clock := clock w; ticks := ticks w; next_id := next_id w; trace := t;
     dirname := dirname w |}.

(** *** Computations that read and change the world and may throw *)

Inductive outcome (A : Type) :=
| Returned (a : A)
| Thrown (e : exn).
Arguments Returned {A} a.
Arguments Thrown {A} e.

Definition M (A : Type) : Type := World → outcome A * World.

Definition ret {A} (a : A) : M A := λ w, (Returned a, w).

Definition throw {A} (e : exn) : M A := λ w, (Thrown e, w).

Definition bind {A B} (m : M A) (k : A → M B) : M B :=
  λ w, match m w with
       | (Returned a, w') => k a w'
       | (Thrown e, w') => (Thrown e, w')
       end.

Notation "'let*' x := m 'in' k" := (bind m (λ x, k))
  (at level 10, x name, m at level 100, k at level 200).
Notation "m ;; k" := (bind m (λ _, k))
  (at level 100, k at level 200, right associativity).

Definition log (a : access) : M unit :=
  λ w, (Returned (), with_trace (trace w ++ [a]) w).

Definition Date_now : M Z :=
  λ w, (Returned (clock w (ticks w)), with_ticks (S (ticks w)) w).

Definition new_ObjectId : M ObjectId :=
  λ w, (Returned (next_id w), with_next_id (S (next_id w)) w).

(** *** [fs] *)

Definition fs_existsSync (path : string) : M bool :=
  log (FsExists path);;
  λ w, (Returned (bool_decide (path ∈ files w)), w).

Definition fs_unlinkSync (path : string) : M unit :=
  log (FsUnlink path);;
  λ w, (Returned (), with_files (files w ∖ {[path]}) w).

(** ** Mongoose: the [Pothole] model and its queries *)

Definition with_status (s : string) (p : Pothole) : Pothole :=
  {| _id := _id p; distance := distance p; image := image p; gps := gps p;
     vehicle_name := vehicle_name p;
     vehicle_ground_level := vehicle_ground_level p;
     pothole_status := s; reportedBy := reportedBy p;
     createdAt := createdAt p; updatedAt := updatedAt p |}.

Definition with_updatedAt (t : Z) (p : Pothole) : Pothole :=
  {| _id := _id p; distance := distance p; image := image p; gps := gps p;
     vehicle_name := vehicle_name p;
     vehicle_ground_level := vehicle_ground_level p;
     pothole_status := pothole_status p; reportedBy := reportedBy p;
     createdAt := createdAt p; updatedAt := t |}.

(** Mongoose's cast of a value to a [Number] path: it asserts that the value
    is not [NaN], so [NaN] is a cast error, reported by validation at that
    path; every other number, [Infinity] included, is kept.  The result lists
    the path when the cast fails. *)
Definition castNumber (path : string) (x : JS.number) : list string :=
  if JS.isNaN x then [path] else [].

(** [required: true] on a [String] path: a string that is not empty. *)
Definition required_string (path : string) (v : option string) : list string :=
  match v with
  | Some s => if String.eqb s "" then [path] else []
  | None => [path]
  end.

(** Validation before save: the paths that fail, in schema order. *)
Definition validate (f : PotholeFields) : list string :=
  castNumber "distance" (f_distance f)
  ++ required_string "image" (Some (f_image f))
  ++ castNumber "gps.longitude" (longitude (f_gps f))
  ++ castNumber "gps.latitude" (latitude (f_gps f))
  ++ required_string "vehicle_name" (f_vehicle_name f)
  ++ castNumber "vehicle_ground_level" (f_vehicle_ground_level f).

(** [new Pothole(fields)]: a fresh [_id] and the schema defaults
    ([pothole_status: "pending"], [createdAt: Date.now], [updatedAt: Date.now],
    each default reading the clock).  An absent [vehicle_name] is held as the
    empty string here; both fail [validate]. *)
Definition new_Pothole (f : PotholeFields) : M Pothole :=
  let* id := new_ObjectId in
  let* created := Date_now in
  let* updated := Date_now in
  ret {| _id := id; distance := f_distance f; image := f_image f;
         gps := f_gps f; vehicle_name := default "" (f_vehicle_name f);
         vehicle_ground_level := f_vehicle_ground_level f;
         pothole_status := "pending"; reportedBy := f_reportedBy f;
         createdAt := created; updatedAt := updated |}.

(** [potholeSchema.pre("save", ...)]: [this.updatedAt = Date.now()]. *)
Definition pre_save (this : Pothole) : M Pothole :=
  let* now := Date_now in
  ret (with_updatedAt now this).

Definition insertOne (p : Pothole) : M unit :=
  log (DbInsert (_id p));;
  λ w, (Returned (), with_potholes (potholes w ++ [p]) w).

(** [Pothole.create(fields)]: build the document, validate it, run the
    pre-save hook, insert.  Validation runs before the hook and before any
    write. *)
Definition Pothole_create (f : PotholeFields) : M Pothole :=
  let* draft := new_Pothole f in
  match validate f with
  | [] =>
      let* p := pre_save draft in
      insertOne p;;
      ret p
  | paths => throw (ValidationError paths)
  end.

(** A query under construction: [find(filter)] followed by chained options.
    The filter is [{}] ([None]) or [{ pothole_status: s }]. *)
Record Query := {
  q_filter : option string;
  q_sort_createdAt_desc : bool;
  q_limit : option Z;
  q_skip : option Z
}.

Definition Pothole_find (cond : option string) : Query :=
  {| q_filter := cond; q_sort_createdAt_desc := false;
     q_limit := None; q_skip := None |}.

Definition sort_createdAt_desc (q : Query) : Query :=
  {| q_filter := q_filter q; q_sort_createdAt_desc := true;
     q_limit := q_limit q; q_skip := q_skip q |}.

Definition limit (n : Z) (q : Query) : Query :=
  {| q_filter := q_filter q; q_sort_createdAt_desc := q_sort_createdAt_desc q;
     q_limit := Some n; q_skip := q_skip q |}.

Definition skip (n : Z) (q : Query) : Query :=
  {| q_filter := q_filter q; q_sort_createdAt_desc := q_sort_createdAt_desc q;
     q_limit := q_limit q; q_skip := Some n |}.

Definition matching (cond : option string) (ps : list Pothole) : list Pothole :=
  match cond with
  | None => ps
  | Some s => filter (λ p, pothole_status p = s) ps
  end.

(** Sorting by [createdAt], most recent first.  [sort_desc] is the sort in
    which documents created at the same instant keep their insertion order.
    MongoDB promises no order among such documents, not even the same order
    from one query to the next: a query is therefore run with the order the
    database uses for it, [order] below, of which only [sorts] is known;
    [get_list] is the list route at [sort_desc]. *)
Fixpoint insert_desc (p : Pothole) (l : list Pothole) : list Pothole :=
  match l with
  | [] => [p]
  | x :: l' =>
      if createdAt x <=? createdAt p then p :: l
      else x :: insert_desc p l'
  end.

Definition sort_desc (l : list Pothole) : list Pothole :=
  foldr insert_desc [] l.

(** [limit(n)]: [0] means no limit, a negative [n] limits to [-n]. *)
Definition apply_limit (n : option Z) (l : list Pothole) : list Pothole :=
  match n with
  | None => l
  | Some n => if n =? 0 then l else take (Z.to_nat (Z.abs n)) l
  end.

Definition apply_skip (n : option Z) (l : list Pothole) : list Pothole :=
  match n with
  | None => l
  | Some n => drop (Z.to_nat n) l
  end.

Definition results_by (order : list Pothole → list Pothole)
    (q : Query) (ps : list Pothole) : list Pothole :=
  let found := matching (q_filter q) ps in
  let sorted := if q_sort_createdAt_desc q then order found else found in
  apply_limit (q_limit q) (apply_skip (q_skip q) sorted).

(** Running a query: filter, sort, skip, limit, in that order whatever the
    order of the chained calls.  The server refuses a negative [skip]. *)
Definition exec_by (order : list Pothole → list Pothole) (q : Query)
  : M (list Pothole) :=
  log (DbFind (q_filter q));;
  match q_skip q with
  | Some n =>
      if n <? 0 then throw (MongoServerError "skip must be non-negative")
      else λ w, (Returned (results_by order q (potholes w)), w)
  | None => λ w, (Returned (results_by order q (potholes w)), w)
  end.


Fixpoint find_user (id : ObjectId) (us : list User) : option User :=
  match us with
  | [] => None
  | u :: us' => if decide (user_id u = id) then Some u else find_user id us'
  end.

(** [.populate("reportedBy", "name email")], on the documents of a [find]
    and on the document or [null] of a [findById]. *)
Definition populated_doc (us : list User) (p : Pothole) : Populated :=
  {| doc := p; reporter := find_user (reportedBy p) us |}.

Definition populate (ps : list Pothole) : M (list Populated) :=
  λ w, (Returned (map (populated_doc (users w)) ps), w).

Definition populate_one (found : option Pothole) : M (option Populated) :=
  λ w, (Returned (populated_doc (users w) <$> found), w).

Definition Pothole_countDocuments (cond : option string) : M nat :=
  log (DbCount cond);;
  λ w, (Returned (length (matching cond (potholes w))), w).

Fixpoint find_by_id (id : ObjectId) (l : list Pothole) : option Pothole :=
  match l with
  | [] => None
  | p :: l' => if decide (_id p = id) then Some p else find_by_id id l'
  end.

Definition Pothole_findById (id : ObjectId) : M (option Pothole) :=
  log (DbFindById id);;
  λ w, (Returned (find_by_id id (potholes w)), w).

(** The cast of the [_id] of a filter when the query runs: a string that
    names no [ObjectId] makes the query throw a [CastError] before the
    database is consulted.  (The strings accepted are those of the
    [ObjectId] constructor of bson 6; earlier drivers also took any string
    of 12 bytes.) *)
Definition castObjectId (value : string) : M ObjectId :=
  match ObjectId_of_string value with
  | Some id => ret id
  | None => throw (CastError value)
  end.

(** [Pothole.findById(req.params.id)] *)
Definition Pothole_findById_param (param : string) : M (option Pothole) :=
  let* id := castObjectId param in
  Pothole_findById id.

(** The [enum] validator of [pothole_status] ([runValidators: true]). *)
Definition enum_validator (v : JS.value) : option string :=
  match v with
  | JS.Str s => if bool_decide (s ∈ statuses) then Some s else None
  | _ => None
  end.

Fixpoint replace_by_id (id : ObjectId) (p' : Pothole) (l : list Pothole)
  : list Pothole :=
  match l with
  | [] => []
  | p :: l' =>
      if decide (_id p = id) then p' :: l' else p :: replace_by_id id p' l'
  end.

(** [Pothole.findByIdAndUpdate(id, { pothole_status, updatedAt },
    { new: true, runValidators: true })]: sets the two paths of the update
    and nothing else, and returns the document as updated, or [null]. *)
Definition Pothole_findByIdAndUpdate
    (id : ObjectId) (status : JS.value) (updated : Z) : M (option Pothole) :=
  match enum_validator status with
  | None => throw (ValidationError ["pothole_status"])
  | Some s =>
      log (DbFindOneAndUpdate id);;
      λ w, match find_by_id id (potholes w) with
           | None => (Returned None, w)
           | Some p =>
               let p' := with_updatedAt updated (with_status s p) in
               (Returned (Some p'),
                with_potholes (replace_by_id id p' (potholes w)) w)
           end
  end.

(** [Pothole.findByIdAndUpdate(req.params.id, ...)] *)
Definition Pothole_findByIdAndUpdate_param
    (param : string) (status : JS.value) (updated : Z) : M (option Pothole) :=
  let* id := castObjectId param in
  Pothole_findByIdAndUpdate id status updated.

Fixpoint delete_by_id (id : ObjectId) (l : list Pothole) : list Pothole :=
  match l with
  | [] => []
  | p :: l' => if decide (_id p = id) then l' else p :: delete_by_id id l'
  end.

(** [pothole.deleteOne()] *)
Definition deleteOne (p : Pothole) : M unit :=
  log (DbDeleteOne (_id p));;
  λ w, (Returned (), with_potholes (delete_by_id (_id p) (potholes w)) w).

(** ** The routes: [routes/potholeRoutes.js]

    Each handler is taken at the point where Express calls it: the
    [verifyToken] and [isAdmin] middleware have let the request through and
    set [req.user], and [upload.single("image")] has either stored the
    uploaded image and set [req.file] or found no image in the request.
    [get_id], [put_update] and [delete_id] are the handlers of the [:id]
    routes for a parameter that casts to the [ObjectId] [id]; [GET_id],
    [PUT_update_id] and [DELETE_id] are the same handlers on the parameter
    as the client sent it, where the query casts it and may throw. *)

Inductive message :=
| Lit (s : string)
| error_message (e : exn).         (* [error.message] *)

(** The JSON bodies the routes send. *)
Inductive body :=
| failure (m : message)                           (* success: false, message *)
| success_message (m : string)                    (* success: true, message *)
| success_pothole (m : string) (data : Pothole)   (* ... message, data *)
| success_details (data : Populated)              (* success: true, data *)
| success_list (data : list Populated) (totalPages : JS.number)
               (currentPage : Z) (totalRecords : nat).

Record Response := {
  res_status : nat;
  res_json : body
}.

Definition respond (code : nat) (b : body) : M Response :=
  ret {| res_status := code; res_json := b |}.

(** The two refusals several routes share. *)
Definition not_found : Response :=
  {| res_status := 404; res_json := failure (Lit "Pothole not found") |}.

Definition invalid_status : Response :=
  {| res_status := 400; res_json := failure (Lit "Invalid status value") |}.

(** [try { ... } catch (error) { res.status(500).json(...) }] *)
Definition try_catch (m : M Response) : World → Response * World :=
  λ w, match m w with
       | (Returned r, w') => (r, w')
       | (Thrown e, w') =>
           ({| res_status := 500; res_json := failure (error_message e) |}, w')
       end.

(** [req.file] as multer leaves it. *)
Record File := {
  filename : string
}.

(** A request to [POST /register]: the text fields of the multipart body
    ([None] for a field that was not sent), [req.file] and [req.user._id]. *)
Record RegisterRequest := {
  body_distance : option string;
  body_longitude : option string;
  body_latitude : option string;
  body_vehicle_name : option string;
  body_vehicle_ground_level : option string;
  req_file : option File;
  req_user : ObjectId
}.

Definition post_register (req : RegisterRequest) : World → Response * World :=
  try_catch
    match req_file req with
    | None => respond 400 (failure (Lit "Image is required"))
    | Some file =>
        let* pothole :=
          Pothole_create
            {| f_distance := JS.parseFloat (body_distance req);
               f_image := "/public/uploads/" +:+ filename file;
               f_gps := {| longitude := JS.parseFloat (body_longitude req);
                           latitude := JS.parseFloat (body_latitude req) |};
               f_vehicle_name := body_vehicle_name req;
               f_vehicle_ground_level :=
                 JS.parseFloat (body_vehicle_ground_level req);
               f_reportedBy := req_user req |} in
        respond 201 (success_pothole "Pothole registered successfully" pothole)
    end.

(** A request to [GET /list].  [query_page] and [query_limit] are [None] when
    the parameter is absent (the defaults [1] and [10] apply) and [Some z]
    when it is the decimal numeral of the integer [z], which is what the
    arithmetic of the handler coerces it to. *)
Record ListRequest := {
  query_status : option string;
  query_page : option Z;
  query_limit : option Z
}.

Definition page_of (req : ListRequest) : Z := default 1 (query_page req).
Definition limit_of (req : ListRequest) : Z := default 10 (query_limit req).

(** [const query = {}; if (status) query.pothole_status = status;] *)
Definition query_of (status : option string) : option string :=
  if JS.truthy status then status else None.

Definition get_list_by (order : list Pothole → list Pothole)
    (req : ListRequest) : World → Response * World :=
  try_catch
    (let page := page_of req in
     let limit_ := limit_of req in
     let query := query_of (query_status req) in
     let* found :=
       exec_by order (skip ((page - 1) * limit_)
                        (limit (limit_ * 1)
                           (sort_createdAt_desc (Pothole_find query)))) in
     let* potholes := populate found in
     let* count := Pothole_countDocuments query in
     respond 200
       (success_list potholes
          (JS.Math_ceil (JS.div (JS.of_Z (Z.of_nat count)) (JS.of_Z limit_)))
          page count)).

Definition get_list : ListRequest → World → Response * World :=
  get_list_by sort_desc.

Definition get_id (id : ObjectId) : World → Response * World :=
  try_catch
    (let* found := Pothole_findById id in
     let* populated := populate_one found in
     match populated with
     | None => respond 404 (failure (Lit "Pothole not found"))
     | Some pothole => respond 200 (success_details pothole)
     end).

(** [PUT /update/:id] with [req.body.pothole_status]. *)
Definition put_update (id : ObjectId) (pothole_status : JS.value)
  : World → Response * World :=
  try_catch
    (if negb (JS.includes ["pending"; "inprocess"; "completed"] pothole_status)
     then respond 400 (failure (Lit "Invalid status value"))
     else
       let* now := Date_now in
       let* updated := Pothole_findByIdAndUpdate id pothole_status now in
       match updated with
       | None => respond 404 (failure (Lit "Pothole not found"))
       | Some pothole =>
           respond 200
             (success_pothole "Pothole status updated successfully" pothole)
       end).

Definition imagePath (w : World) (pothole : Pothole) : string :=
  Path.join [dirname w; ".."; image pothole].

Definition delete_id (id : ObjectId) : World → Response * World :=
  try_catch
    (let* found := Pothole_findById id in
     match found with
     | None => respond 404 (failure (Lit "Pothole not found"))
     | Some pothole =>
         let* imagePath := λ w, (Returned (imagePath w pothole), w) in
         let* exists_ := fs_existsSync imagePath in
         (if exists_ then fs_unlinkSync imagePath else ret ());;
         deleteOne pothole;;
         respond 200 (success_message "Pothole deleted successfully")
     end).

(** *** The [:id] routes on the parameter as sent

    The parameter is any string Express hands to the handler; [GET /list] is
    matched by its own route before [GET /:id], which therefore never sees
    the parameter "list". *)

Definition GET_id (param : string) : World → Response * World :=
  try_catch
    (let* found := Pothole_findById_param param in
     let* populated := populate_one found in
     match populated with
     | None => respond 404 (failure (Lit "Pothole not found"))
     | Some pothole => respond 200 (success_details pothole)
     end).

Definition PUT_update_id (param : string) (pothole_status : JS.value)
  : World → Response * World :=
  try_catch
    (if negb (JS.includes ["pending"; "inprocess"; "completed"] pothole_status)
     then respond 400 (failure (Lit "Invalid status value"))
     else
       let* now := Date_now in
       let* updated :=
         Pothole_findByIdAndUpdate_param param pothole_status now in
       match updated with
       | None => respond 404 (failure (Lit "Pothole not found"))
       | Some pothole =>
           respond 200
             (success_pothole "Pothole status updated successfully" pothole)
       end).

Definition DELETE_id (param : string) : World → Response * World :=
  try_catch
    (let* found := Pothole_findById_param param in
     match found with
     | None => respond 404 (failure (Lit "Pothole not found"))
     | Some pothole =>
         let* imagePath := λ w, (Returned (imagePath w pothole), w) in
         let* exists_ := fs_existsSync imagePath in
         (if exists_ then fs_unlinkSync imagePath else ret ());;
         deleteOne pothole;;
         respond 200 (success_message "Pothole deleted successfully")
     end).

(** [multer.diskStorage]: the uploaded image is written under [uploadDir]
    before the handler runs. *)
Definition uploadDir (w : World) : string :=
  Path.join [dirname w; "../public/uploads"].

Definition multer_store (file : File) (w : World) : World :=
  with_files ({[ Path.join [uploadDir w; filename file] ]} ∪ files w) w.

(** ** The states of the service *)

Definition init (us : list User) (fs : gset string) (clk : nat → Z)
    (dir : string) : World :=
  {| potholes := []; users := us; files := fs; clock := clk; ticks := 0;
     next_id := 0%nat; trace := []; dirname := dir |}.

(** The worlds the service can be in: an empty collection, then any sequence
    of uploads and requests. *)
Inductive reachable : World → Prop :=
| reach_init us fs clk dir : reachable (init us fs clk dir)
| reach_upload w file : reachable w → reachable (multer_store file w)
| reach_register w req : reachable w → reachable (post_register req w).2
| reach_list w req : reachable w → reachable (get_list req w).2
| reach_get w id : reachable w → reachable (get_id id w).2
| reach_update w id s : reachable w → reachable (put_update id s w).2
| reach_delete w id : reachable w → reachable (delete_id id w).2.

Definition monotone (clk : nat → Z) : Prop := ∀ n, clk n ≤ clk (S n).

(** ** Vocabulary of the specification *)

(** The world after [n] more clock readings and one more [ObjectId]. *)
Definition advanced (n : nat) (w : World) : World :=
  with_ticks (n + ticks w) (with_next_id (S (next_id w)) w).

(** The object [POST /register] hands to [Pothole.create]. *)
Definition fields_of (req : RegisterRequest) (file : File) : PotholeFields :=
  {| f_distance := JS.parseFloat (body_distance req);
     f_image := "/public/uploads/" +:+ filename file;
     f_gps := {| longitude := JS.parseFloat (body_longitude req);
                 latitude := JS.parseFloat (body_latitude req) |};
     f_vehicle_name := body_vehicle_name req;
     f_vehicle_ground_level := JS.parseFloat (body_vehicle_ground_level req);
     f_reportedBy := req_user req |}.

(** The document a successful registration stores. *)
Definition registered (req : RegisterRequest) (file : File) (w : World)
  : Pothole :=
  {| _id := next_id w;
     distance := f_distance (fields_of req file);
     image := f_image (fields_of req file);
     gps := f_gps (fields_of req file);
     vehicle_name := default "" (body_vehicle_name req);
     vehicle_ground_level := f_vehicle_ground_level (fields_of req file);
     pothole_status := "pending";
     reportedBy := req_user req;
     createdAt := clock w (ticks w);
     updatedAt := clock w (2 + ticks w) |}.

(** What holds of every world the service can be in (see [reachable_inv]):
    stored statuses are of the enum, every timestamp is a reading of the
    clock already taken, [createdAt] read no later than [updatedAt], and ids
    are distinct. *)
Record Inv (w : World) : Prop := {
  inv_status : Forall (λ p, pothole_status p ∈ statuses) (potholes w);
  inv_time :
    Forall (λ p, ∃ i j, (i ≤ j)%nat ∧ (j < ticks w)%nat
                        ∧ createdAt p = clock w i ∧ updatedAt p = clock w j)
           (potholes w);
  inv_fresh : Forall (λ p, (_id p < next_id w)%nat) (potholes w);
  inv_ids : NoDup (map _id (potholes w))
}.

(** The documents of a result with [reportedBy] populated. *)
Definition populated (w : World) (ps : list Pothole) : list Populated :=
  map (populated_doc (users w)) ps.

(** The slice of the sorted matches that the list route asks for. *)
Definition window (page pageSize : Z) (l : list Pothole) : list Pothole :=
  apply_limit (Some (pageSize * 1)) (apply_skip (Some ((page - 1) * pageSize)) l).

(** [Math.ceil(count / limit)] *)
Definition totalPages_of (count : nat) (pageSize : Z) : JS.number :=
  JS.Math_ceil (JS.div (JS.of_Z (Z.of_nat count)) (JS.of_Z pageSize)).

Definition skip_refused : Response :=
  {| res_status := 500;
     res_json :=
       failure (error_message (MongoServerError "skip must be non-negative")) |}.

(** A registration that passes the image check and the schema's validation. *)
Definition valid_registration (req : RegisterRequest) : Prop :=
  is_Some (req_file req)
  ∧ JS.isNaN (JS.parseFloat (body_distance req)) = false
  ∧ JS.isNaN (JS.parseFloat (body_longitude req)) = false
  ∧ JS.isNaN (JS.parseFloat (body_latitude req)) = false
  ∧ JS.isNaN (JS.parseFloat (body_vehicle_ground_level req)) = false
  ∧ (∃ v, body_vehicle_name req = Some v ∧ v ≠ "").

(** A requested status that is one of the three allowed strings. *)
Definition allowed (v : JS.value) : Prop :=
  ∃ s, v = JS.Str s ∧ s ∈ statuses.

Definition exists_report (id : ObjectId) (w : World) : Prop :=
  ∃ p, p ∈ potholes w ∧ _id p = id.

(** Most recent first. *)
Definition newer_first (a b : Pothole) : Prop := createdAt b ≤ createdAt a.

Definition items (r : Response) : list Pothole :=
  match res_json r with
  | success_list data _ _ _ => map doc data
  | _ => []
  end.

(** What is known of the order in which the database returns the documents
    of a descending sort on [createdAt]: all of them, most recent first. *)
Definition sorts (order : list Pothole → list Pothole) : Prop :=
  ∀ l, order l ≡ₚ l ∧ StronglySorted newer_first (order l).

(** The order that reverses the insertion order of documents created at the
    same instant. *)
Definition sort_desc_rev (l : list Pothole) : list Pothole :=
  sort_desc (rev l).

(** The route parameter names a stored report. *)
Definition names_report (param : string) (w : World) : Prop :=
  ∃ id, ObjectId_of_string param = Some id ∧ exists_report id w.

(** The answer of the [catch] block to a parameter that is no [ObjectId]. *)
Definition cast_failed (param : string) : Response :=
  {| res_status := 500;
     res_json := failure (error_message (CastError param)) |}.

(** The answer to a parameter that names no stored report. *)
Definition missing_answer (param : string) : Response :=
  match ObjectId_of_string param with
  | Some _ => not_found
  | None => cast_failed param
  end.

(** Reading pages [first], [first + 1], ... one request after the other, the
    database using the order [orders k] for the query of page [k]. *)
Fixpoint scan_by (orders : Z → list Pothole → list Pothole)
    (status : option string) (pageSize : Z) (first : Z) (n : nat)
    (w : World) : list (list Pothole) * World :=
  match n with
  | O => ([], w)
  | S n' =>
      let '(r, w1) :=
        get_list_by (orders first)
          {| query_status := status; query_page := Some first;
             query_limit := Some pageSize |} w in
      let '(rest, w2) := scan_by orders status pageSize (first + 1) n' w1 in
      (items r :: rest, w2)
  end.

(** ** The upload middleware, as [routes/potholeRoutes.js] configures multer *)

(** The image part of a multipart request, as multer presents it to the
    callbacks: the name and type the client declared, and the size in bytes
    of the content.  (A part that declares no file name is skipped by multer
    and is no file part.) *)
Record Upload := {
  originalname : string;
  mimetype : string;
  size : Z
}.

(** [const filetypes = /jpeg|jpg|png/;] and [filetypes.test(s)] *)
Definition filetypes_test (s : string) : bool :=
  JS.contains "jpeg" s || JS.contains "jpg" s || JS.contains "png" s.

(** [fileFilter]: [true] for [cb(null, true)], [false] for
    [cb(new Error("Only image files are allowed!"))]. *)
Definition fileFilter (file : Upload) : bool :=
  let mimetype := filetypes_test (mimetype file) in
  let extname :=
    filetypes_test (JS.toLowerCase (Path.extname (originalname file))) in
  mimetype && extname.

(** [limits: { fileSize: 5 * 1024 * 1024 }] *)
Definition fileSize : Z := 5 * 1024 * 1024.

(** [filename]: [now] is the reading of [Date.now()] and [random] the value
    of [Math.round(Math.random() * 1e9)], an integer from 0 to 10^9. *)
Definition storage_filename (now random : Z) (file : Upload) : string :=
  let uniqueSuffix :=
    JS.Number_toString now +:+ "-" +:+ JS.Number_toString random in
  "pothole-" +:+ uniqueSuffix +:+ Path.extname (originalname file).

(** [upload.single("image")] on a request with at most one file part, sent
    under the field "image".  Without a part the request goes on with no
    [req.file].  With one, the filter is asked first; an accepted part is
    named and written under [uploadDir], unless its content reaches
    [fileSize]: the parser (busboy 1.x, under multer 1.4.5-lts) raises the
    limit as soon as [fileSize] bytes were read, so a file of exactly
    [fileSize] bytes is refused as well, and what was written is removed
    again.  (multer up to 1.4.4, on busboy 0.x, refused only beyond
    [fileSize].)  The result is the message of the error handed to [next], or
    [req.file]. *)
Definition upload_single (part : option Upload) (random : Z)
  : World → (string + option File) * World :=
  λ w, match part with
       | None => (inr None, w)
       | Some file =>
           if fileFilter file then
             let now := clock w (ticks w) in
             let w1 := with_ticks (S (ticks w)) w in
             let stored := {| filename := storage_filename now random file |} in
             if size file <? fileSize
             then (inr (Some stored), multer_store stored w1)
             else (inl "File too large", w1)
           else (inl "Only image files are allowed!", w)
       end.

(** [upload.single("image")] on any multipart request: the file parts in the
    order they arrive, each with the field name it was sent under.  Multer
    lets one file through, under the field "image"; a file part under another
    field, or any file part after the first, is refused with "Unexpected
    field", and the file already written for the request is removed. *)
Definition upload_parts (parts : list (string * Upload)) (random : Z)
  : World → (string + option File) * World :=
  λ w, match parts with
       | [] => upload_single None random w
       | (fieldname, file) :: rest =>
           if decide (fieldname = "image") then
             match upload_single (Some file) random w, rest with
             | (inr (Some stored), w'), _ :: _ =>
                 (inl "Unexpected field",
                  with_files
                    (files w' ∖ {[ Path.join [uploadDir w'; filename stored] ]})
                    w')
             | uploaded, _ => uploaded
             end
           else (inl "Unexpected field", w)
       end.

(** ** The application: [server.js] *)

(** What a client of [POST /api/potholes/register] receives: the answer of
    the route, or the answer of the error handler of [server.js]
    (status 500, [success: false], [message], [error: err.message]). *)
Inductive ServerResponse :=
| Routed (r : Response)
| ErrorHandled (message : string) (error : string).

(** [app.use((err, req, res, next) => ...)] *)
Definition error_handler (err : string) : ServerResponse :=
  ErrorHandled "Something went wrong!" err.

Definition server_status (r : ServerResponse) : nat :=
  match r with
  | Routed r => res_status r
  | ErrorHandled _ _ => 500
  end.

Definition with_file (file : option File) (req : RegisterRequest)
  : RegisterRequest :=
  {| body_distance := body_distance req;
     body_longitude := body_longitude req;
     body_latitude := body_latitude req;
     body_vehicle_name := body_vehicle_name req;
     body_vehicle_ground_level := body_vehicle_ground_level req;
     req_file := file;
     req_user := req_user req |}.

(** [router.post("/register", verifyToken, upload.single("image"), handler)]
    for an authenticated request: the upload middleware, then the handler or,
    after an upload error, the error handler.  [req] carries the text fields
    and the user; its [req_file] is what the middleware sets. *)
Definition POST_register (part : option Upload) (random : Z)
    (req : RegisterRequest) : World → ServerResponse * World :=
  λ w, match upload_single part random w with
       | (inl err, w') => (error_handler err, w')
       | (inr file, w') =>
           let '(r, w'') := post_register (with_file file req) w' in
           (Routed r, w'')
       end.

(** The same route on any multipart request. *)
Definition POST_register_parts (parts : list (string * Upload)) (random : Z)
    (req : RegisterRequest) : World → ServerResponse * World :=
  λ w, match upload_parts parts random w with
       | (inl err, w') => (error_handler err, w')
       | (inr file, w') =>
           let '(r, w'') := post_register (with_file file req) w' in
           (Routed r, w'')
       end.

(** ** Vocabulary of the further properties *)

(** [totalRecords] of a list answer. *)
Definition total (r : Response) : nat :=
  match res_json r with
  | success_list _ _ _ n => n
  | _ => 0%nat
  end.

(** The document of a single-report answer. *)
Definition fetched (r : Response) : option Pothole :=
  match res_json r with
  | success_details d => Some (doc d)
  | _ => None
  end.

(** A list request with no status filter. *)
Definition unfiltered (req : ListRequest) : Prop :=
  query_status req = None ∨ query_status req = Some "".

(** A clock that advances at every reading. *)
Definition advancing (clk : nat → Z) : Prop := ∀ n, clk n < clk (S n).

(** The characters of a string. *)
Fixpoint chars (s : string) : list ascii :=
  match s with
  | EmptyString => []
  | String c r => c :: chars r
  end.

Definition all_digits (s : string) : Prop :=
  Forall (λ c, JS.is_digit c = true) (chars s).

(** A path segment that names an entry: not empty, not ["."], not [".."],
    and without a separator. *)
Definition entry_name (s : string) : Prop :=
  s ≠ "" ∧ s ≠ "." ∧ s ≠ ".." ∧ "/"%char ∉ chars s.

(** The stack [Path.resolve] has built after the segments [segs]. *)
Fixpoint stack_after (absolute : bool) (segs stack : list string)
  : list string :=
  match segs with
  | [] => stack
  | seg :: rest =>
      if (String.eqb seg "" || String.eqb seg ".")%bool then
        stack_after absolute rest stack
      else if String.eqb seg ".." then
        match stack with
        | top :: below =>
            if String.eqb top ".." then stack_after absolute rest (seg :: stack)
            else stack_after absolute rest below
        | [] =>
            if absolute then stack_after absolute rest []
            else stack_after absolute rest [seg]
        end
      else stack_after absolute rest (seg :: stack)
  end.

(** A form field whose text starts with a decimal digit. *)
Definition starts_with_digit (v : option string) : Prop :=
  ∃ c r, v = Some (String c r) ∧ JS.is_digit c = true.

(** Two documents with the same id and the same creation time. *)
Definition same_key (a b : Pothole) : Prop :=
  _id a = _id b ∧ createdAt a = createdAt b.

(** A string that is empty or starts with a character that is no digit. *)
Definition no_digit_head (s : string) : Prop :=
  match s with
  | EmptyString => True
  | String c _ => JS.is_digit c = false
  end.

(** A string with neither a path separator nor a dot. *)
Definition plain (s : string) : Prop :=
  ("/"%char ∉ chars s) ∧ ("."%char ∉ chars s).

(** The part of a stored file name that precedes the extension. *)
Definition unique_stem (now random : Z) : string :=
  "pothole-" +:+ JS.Number_toString now +:+ "-" +:+ JS.Number_toString random.

(** The shape of the stacks [Path.resolve] builds: entry names above a run
    of [".."] that is empty when the path is absolute. *)
Definition clean_stack (absolute : bool) (stack : list string) : Prop :=
  ∃ names (ups : nat),
    stack = names ++ replicate ups ".."
    ∧ Forall entry_name names
    ∧ (absolute = true → ups = 0%nat).

(** The path of the image that a report refers to, and the path under which
    multer stored a file. *)
Definition stored_path (w : World) (name : string) : string :=
  Path.join [uploadDir w; name].

(** Text fields that pass the schema's validation. *)
Definition valid_fields (req : RegisterRequest) : Prop :=
  JS.isNaN (JS.parseFloat (body_distance req)) = false
  ∧ JS.isNaN (JS.parseFloat (body_longitude req)) = false
  ∧ JS.isNaN (JS.parseFloat (body_latitude req)) = false
  ∧ JS.isNaN (JS.parseFloat (body_vehicle_ground_level req)) = false
  ∧ (∃ v, body_vehicle_name req = Some v ∧ v ≠ "").

(** An image part the upload middleware lets through. *)
Definition accepted (file : Upload) : Prop :=
  fileFilter file = true ∧ size file < fileSize.

(** ** Concrete worlds and requests used in the examples below *)

Definition demo_clock (n : nat) : Z := 1000 + Z.of_nat n.

Definition demo_world : World :=
  init [{| user_id := 7%nat; name := "Asha"; email := "asha@example.org" |}]
       ∅ demo_clock "/srv/app/routes".

Definition demo_request (distance : string) (file : string) : RegisterRequest :=
  {| body_distance := Some distance;
     body_longitude := Some "72.57";
     body_latitude := Some "23.02";
     body_vehicle_name := Some "truck-12";
     body_vehicle_ground_level := Some "0.3";
     req_file := Some {| filename := file |};
     req_user := 7%nat |}.

(** One report registered (its image uploaded first). *)
Definition demo_world1 : World :=
  (post_register (demo_request "1.2" "pothole-1.png")
     (multer_store {| filename := "pothole-1.png" |} demo_world)).2.

(** Three reports registered, at distances 1.2, 3.4 and 0.9. *)
Definition demo_world3 : World :=
  (post_register (demo_request "0.9" "pothole-3.png")
     (post_register (demo_request "3.4" "pothole-2.png") demo_world1).2).2.

(** A list request for a status that is not of the enum, page and page size
    left to their defaults. *)
Definition demo_archived : ListRequest :=
  {| query_status := Some "archived"; query_page := None;
     query_limit := None |}.

(** The first report once its status was set to "completed". *)
Definition demo_updated : Pothole :=
  with_updatedAt 1003
    (with_status "completed"
       (registered (demo_request "1.2" "pothole-1.png")
          {| filename := "pothole-1.png" |} demo_world)).

(** The report of [demo_world1]. *)
Definition demo_first : Pothole :=
  registered (demo_request "1.2" "pothole-1.png")
    {| filename := "pothole-1.png" |} demo_world.

(** An image part: a photograph of 200 KiB. *)
Definition demo_upload : Upload :=
  {| originalname := "road.JPG"; mimetype := "image/jpeg"; size := 204800 |}.

(** The same photograph declared as a text file. *)
Definition demo_text : Upload :=
  {| originalname := "notes.txt"; mimetype := "text/plain"; size := 204800 |}.

(** A clock that stands still, as [Date.now()] does within a millisecond. *)
Definition still_clock (n : nat) : Z := 1000.

(** Two reports registered within the same millisecond. *)
Definition tie_world : World :=
  (post_register (demo_request "3.4" "pothole-2.png")
     (multer_store {| filename := "pothole-2.png" |}
        (post_register (demo_request "1.2" "pothole-1.png")
           (multer_store {| filename := "pothole-1.png" |}
              (init [] ∅ still_clock "/srv/app/routes"))).2)).2.

(** A database that orders ties by insertion for the pages of odd number and
    in reverse for those of even number. *)
Definition demo_orders (page : Z) : list Pothole → list Pothole :=
  if Z.odd page then sort_desc else sort_desc_rev.

(** The parameters that name the first [ObjectId], and one past those of
    [demo_world1]. *)
Definition demo_id_0 : string := "000000000000000000000000".
Definition demo_id_5 : string := "000000000000000000000005".

(** * Properties *)

(** ** The platform functions on examples *)

Example parseFloat_1_2 : JS.parseFloat (Some "1.2") = JS.Fin (Qmake 6 5).
Proof. reflexivity. Qed.

Example parseFloat_prefix :
  JS.parseFloat (Some " -12.5e1xyz") = JS.Fin (Qmake (-125) 1).
Proof. reflexivity. Qed.

Example parseFloat_dot : JS.parseFloat (Some ".") = JS.NaN.
Proof. reflexivity. Qed.

Example parseFloat_abc : JS.parseFloat (Some "abc") = JS.NaN.
Proof. reflexivity. Qed.

Example parseFloat_undefined : JS.parseFloat None = JS.NaN.
Proof. reflexivity. Qed.

Example parseFloat_inf : JS.parseFloat (Some "-Infinity") = JS.Infinity true.
Proof. reflexivity. Qed.

Example join_image :
  Path.join ["/srv/app/routes"; ".."; "/public/uploads/a.png"]
  = "/srv/app/public/uploads/a.png".
Proof. reflexivity. Qed.

Example join_uploadDir :
  Path.join ["/srv/app/routes"; "../public/uploads"] = "/srv/app/public/uploads".
Proof. reflexivity. Qed.

(** The scenario of three registrations: the list comes most recent first. *)
Example list_three :
  map (λ p, distance p)
      (items (get_list {| query_status := None; query_page := Some 1;
                          query_limit := Some 10 |} demo_world3).1)
  = [JS.parseFloat (Some "0.9"); JS.parseFloat (Some "3.4");
     JS.parseFloat (Some "1.2")].
Proof. reflexivity. Qed.

(** ** Lookups by id *)

Lemma find_by_id_Some id l p :
  find_by_id id l = Some p → p ∈ l ∧ _id p = id.
Proof.
  induction l as [|x l IH]; simpl; [discriminate|].
  destruct (decide (_id x = id)) as [E|E]; intros H.
  - inversion H; subst. split; [left | reflexivity].
  - destruct (IH H) as [Hin Hid]. split; [by right | exact Hid].
Qed.

Lemma find_by_id_None id l :
  find_by_id id l = None ↔ ∀ p, p ∈ l → _id p ≠ id.
Proof.
  induction l as [|x l IH]; simpl.
  - split; [intros _ p Hp; inversion Hp | reflexivity].
  - destruct (decide (_id x = id)) as [E|E].
    + split; [discriminate|]. intros H. exfalso. apply (H x); [left | exact E].
    + rewrite IH. split.
      * intros H p Hp. apply elem_of_cons in Hp as [->|Hp]; [exact E | by apply H].
      * intros H p Hp. apply H. by right.
Qed.

Lemma exists_report_find id w :
  exists_report id w ↔ is_Some (find_by_id id (potholes w)).
Proof.
  split.
  - intros (p & Hin & Hid).
    destruct (find_by_id id (potholes w)) eqn:E; [by eexists|].
    exfalso. eapply find_by_id_None; eauto.
  - intros [p Hp]. exists p. by apply find_by_id_Some.
Qed.

Lemma missing_report_find id w :
  ¬ exists_report id w → find_by_id id (potholes w) = None.
Proof.
  intros H. destruct (find_by_id id (potholes w)) eqn:E; [|reflexivity].
  exfalso. apply H, exists_report_find. by eexists.
Qed.

(** ** The membership guard of the status route *)

Lemma includes_allowed v : JS.includes statuses v = true ↔ allowed v.
Proof.
  unfold allowed. destruct v as [|s|]; simpl.
  - split; [discriminate | intros (s & H & _); discriminate].
  - rewrite bool_decide_eq_true. split.
    + intros H. by exists s.
    + intros (s' & H & Hin). by inversion H; subst.
  - split; [discriminate | intros (s & H & _); discriminate].
Qed.

Lemma enum_validator_allowed v :
  JS.includes statuses v = true →
  ∃ s, v = JS.Str s ∧ s ∈ statuses ∧ enum_validator v = Some s.
Proof.
  destruct v as [|s|]; simpl; try discriminate.
  intros H. exists s. rewrite H. apply bool_decide_eq_true in H. done.
Qed.

Lemma put_update_refused id v w :
  JS.includes statuses v = false → put_update id v w = (invalid_status, w).
Proof.
  intros H. unfold put_update, try_catch. change ["pending"; "inprocess"; "completed"] with statuses.
  rewrite H. reflexivity.
Qed.

(** What the status route does with an allowed status. *)
Lemma put_update_allowed id s w :
  s ∈ statuses →
  put_update id (JS.Str s) w =
  let w1 := with_trace (trace w ++ [DbFindOneAndUpdate id])
              (with_ticks (S (ticks w)) w) in
  match find_by_id id (potholes w) with
  | None => (not_found, w1)
  | Some p =>
      let p' := with_updatedAt (clock w (ticks w)) (with_status s p) in
      ({| res_status := 200;
          res_json :=
            success_pothole "Pothole status updated successfully" p' |},
       with_potholes (replace_by_id id p' (potholes w)) w1)
  end.
Proof.
  intros Hs. unfold put_update, try_catch.
  change ["pending"; "inprocess"; "completed"] with statuses.
  assert (Hinc : JS.includes statuses (JS.Str s) = true)
    by (simpl; by apply bool_decide_eq_true).
  rewrite Hinc. simpl.
  unfold bind, Date_now, Pothole_findByIdAndUpdate. simpl.
  rewrite (bool_decide_eq_true_2 _ Hs). simpl.
  unfold bind, log. simpl.
  destruct (find_by_id id (potholes w)); reflexivity.
Qed.

(** ** Registration without an image *)

(** C2: a registration request with no image payload is answered with the
    validation error "Image is required" (status 400); the world is left as
    it was, so no report is created and the number of stored reports is
    unchanged. *)
Theorem register_without_image (req : RegisterRequest) (w : World) :
  req_file req = None →
  post_register req w
  = ({| res_status := 400; res_json := failure (Lit "Image is required") |}, w)
  ∧ length (potholes (post_register req w).2) = length (potholes w).
Proof.
  intros H. unfold post_register, try_catch. rewrite H. split; reflexivity.
Qed.

Lemma register_without_image_witness :
  post_register
    {| body_distance := Some "1.2"; body_longitude := Some "72.57";
       body_latitude := Some "23.02"; body_vehicle_name := Some "truck-12";
       body_vehicle_ground_level := Some "0.3"; req_file := None;
       req_user := 7%nat |} demo_world1
  = ({| res_status := 400; res_json := failure (Lit "Image is required") |},
     demo_world1)
  ∧ length (potholes demo_world1) = 1%nat.
Proof.
  split.
  - apply (register_without_image
             {| body_distance := Some "1.2"; body_longitude := Some "72.57";
                body_latitude := Some "23.02";
                body_vehicle_name := Some "truck-12";
                body_vehicle_ground_level := Some "0.3"; req_file := None;
                req_user := 7%nat |} demo_world1).
    reflexivity.
  - reflexivity.
Defined.

(** ** The status guard *)

(** C1: on an existing report, updating the status succeeds exactly when the
    requested value is one of "pending", "inprocess", "completed".  Any other
    value is answered with the validation error "Invalid status value"
    (status 400) and the world is returned as it was: the trace shows no
    access to the repository, and the stored record, its status and its
    updatedAt included, is unchanged. *)
Theorem update_status_guard (id : ObjectId) (v : JS.value) (w : World) :
  exists_report id w →
  (res_status (put_update id v w).1 = 200%nat ↔ allowed v)
  ∧ (¬ allowed v →
     (put_update id v w).1 = invalid_status
     ∧ (put_update id v w).2 = w
     ∧ trace (put_update id v w).2 = trace w
     ∧ potholes (put_update id v w).2 = potholes w).
Proof.
  intros Hex. apply exists_report_find in Hex as [p Hp].
  destruct (JS.includes statuses v) eqn:Hinc.
  - destruct (enum_validator_allowed v Hinc) as (s & -> & Hs & _).
    rewrite (put_update_allowed id s w Hs), Hp. simpl. split.
    + split; [intros _; by apply includes_allowed | reflexivity].
    + intros Hn. exfalso. by apply Hn, includes_allowed.
  - rewrite (put_update_refused id v w Hinc). simpl. split.
    + split; [discriminate|]. intros Ha. apply includes_allowed in Ha. congruence.
    + done.
Qed.

Lemma update_status_guard_witness :
  exists_report 0%nat demo_world1
  ∧ (res_status (put_update 0%nat (JS.Str "archived") demo_world1).1 = 200%nat
   ↔ allowed (JS.Str "archived"))
  ∧ (¬ allowed (JS.Str "archived") →
     (put_update 0%nat (JS.Str "archived") demo_world1).1 = invalid_status
     ∧ (put_update 0%nat (JS.Str "archived") demo_world1).2 = demo_world1
     ∧ trace (put_update 0%nat (JS.Str "archived") demo_world1).2
       = trace demo_world1
     ∧ potholes (put_update 0%nat (JS.Str "archived") demo_world1).2
       = potholes demo_world1).
Proof.
  assert (H : exists_report 0%nat demo_world1).
  { apply exists_report_find. vm_compute. eexists. reflexivity. }
  split; [exact H|].
  exact (update_status_guard 0%nat (JS.Str "archived") demo_world1 H).
Defined.

Example update_archived_refused :
  put_update 0%nat (JS.Str "archived") demo_world1 = (invalid_status, demo_world1).
Proof. reflexivity. Qed.

Example update_completed_accepted :
  res_status (put_update 0%nat (JS.Str "completed") demo_world1).1 = 200%nat.
Proof. reflexivity. Qed.

(** ** What each route does to the world *)

Lemma post_register_file req file w :
  req_file req = Some file →
  post_register req w =
  match validate (fields_of req file) with
  | [] =>
      ({| res_status := 201;
          res_json := success_pothole "Pothole registered successfully"
                        (registered req file w) |},
       with_potholes (potholes w ++ [registered req file w])
         (with_trace (trace w ++ [DbInsert (next_id w)]) (advanced 3 w)))
  | paths =>
      ({| res_status := 500;
          res_json := failure (error_message (ValidationError paths)) |},
       advanced 2 w)
  end.
Proof.
  intros Hf. unfold post_register, try_catch. rewrite Hf.
  change (Pothole_create _) with (Pothole_create (fields_of req file)).
  unfold bind, Pothole_create, bind, new_Pothole, bind, new_ObjectId, Date_now.
  simpl. destruct (validate (fields_of req file)) eqn:Hv; reflexivity.
Qed.

Lemma post_register_no_file req w :
  req_file req = None →
  post_register req w
  = ({| res_status := 400; res_json := failure (Lit "Image is required") |}, w).
Proof.
  intros H. unfold post_register, try_catch. rewrite H. reflexivity.
Qed.

Lemma get_id_world id w :
  (get_id id w).2 = with_trace (trace w ++ [DbFindById id]) w.
Proof.
  unfold get_id, try_catch, bind, Pothole_findById, bind, log. simpl.
  destruct (find_by_id id (potholes w)); reflexivity.
Qed.

Lemma get_id_missing id w :
  find_by_id id (potholes w) = None → (get_id id w).1 = not_found.
Proof.
  intros H. unfold get_id, try_catch, bind, Pothole_findById, bind, log. simpl.
  rewrite H. reflexivity.
Qed.

Lemma get_id_found id w p :
  find_by_id id (potholes w) = Some p →
  (get_id id w).1
  = {| res_status := 200;
       res_json := success_details (populated_doc (users w) p) |}.
Proof.
  intros H. unfold get_id, try_catch, bind, Pothole_findById, bind, log. simpl.
  rewrite H. reflexivity.
Qed.

Lemma delete_id_missing id w :
  find_by_id id (potholes w) = None →
  delete_id id w = (not_found, with_trace (trace w ++ [DbFindById id]) w).
Proof.
  intros H. unfold delete_id, try_catch, bind, Pothole_findById, bind, log.
  simpl. rewrite H. reflexivity.
Qed.

Lemma delete_id_found id w p :
  find_by_id id (potholes w) = Some p →
  (delete_id id w).1
  = {| res_status := 200;
       res_json := success_message "Pothole deleted successfully" |}
  ∧ potholes (delete_id id w).2 = delete_by_id id (potholes w)
  ∧ files (delete_id id w).2 = files w ∖ {[imagePath w p]}
  ∧ trace (delete_id id w).2
    = trace w
      ++ [DbFindById id; FsExists (imagePath w p)]
      ++ (if bool_decide (imagePath w p ∈ files w)
          then [FsUnlink (imagePath w p)] else [])
      ++ [DbDeleteOne id]
  ∧ ticks (delete_id id w).2 = ticks w
  ∧ next_id (delete_id id w).2 = next_id w
  ∧ clock (delete_id id w).2 = clock w.
Proof.
  intros H. destruct (find_by_id_Some _ _ _ H) as [_ Hid].
  unfold delete_id, try_catch, bind, Pothole_findById, bind, log.
  simpl. rewrite H. simpl.
  unfold fs_existsSync, bind, log. simpl.
  change (imagePath (with_trace _ w) p) with (imagePath w p).
  generalize (imagePath w p) as path. intros path.
  destruct (bool_decide (path ∈ files w)) eqn:Hin; simpl;
    rewrite Hid, <- ?app_assoc; simpl; repeat split; try reflexivity.
  apply bool_decide_eq_false in Hin. symmetry.
  apply difference_disjoint_L. by apply disjoint_singleton_r.
Qed.

Lemma get_list_by_accepted order req w :
  0 ≤ (page_of req - 1) * limit_of req →
  get_list_by order req w =
  let q := query_of (query_status req) in
  let found := matching q (potholes w) in
  ({| res_status := 200;
      res_json :=
        success_list
          (populated w (window (page_of req) (limit_of req) (order found)))
          (totalPages_of (length found) (limit_of req))
          (page_of req) (length found) |},
   with_trace (trace w ++ [DbFind q; DbCount q]) w).
Proof.
  intros Hskip. unfold get_list_by, try_catch, bind, exec_by, bind, log. simpl.
  apply Z.ltb_ge in Hskip. rewrite Hskip. simpl.
  unfold with_trace. simpl. rewrite <- app_assoc. reflexivity.
Qed.

Lemma get_list_by_refused order req w :
  (page_of req - 1) * limit_of req < 0 →
  get_list_by order req w =
  (skip_refused,
   with_trace (trace w ++ [DbFind (query_of (query_status req))]) w).
Proof.
  intros Hskip. unfold get_list_by, try_catch, bind, exec_by, bind, log. simpl.
  apply Z.ltb_lt in Hskip. rewrite Hskip. reflexivity.
Qed.

Lemma get_list_accepted req w :
  0 ≤ (page_of req - 1) * limit_of req →
  get_list req w =
  let q := query_of (query_status req) in
  let found := matching q (potholes w) in
  ({| res_status := 200;
      res_json :=
        success_list
          (populated w (window (page_of req) (limit_of req) (sort_desc found)))
          (totalPages_of (length found) (limit_of req))
          (page_of req) (length found) |},
   with_trace (trace w ++ [DbFind q; DbCount q]) w).
Proof. apply get_list_by_accepted. Qed.

Lemma get_list_refused req w :
  (page_of req - 1) * limit_of req < 0 →
  get_list req w =
  (skip_refused,
   with_trace (trace w ++ [DbFind (query_of (query_status req))]) w).
Proof. apply get_list_by_refused. Qed.

Lemma get_list_world req w : ∃ t, (get_list req w).2 = with_trace t w.
Proof.
  destruct (Z.lt_ge_cases ((page_of req - 1) * limit_of req) 0) as [H|H].
  - rewrite (get_list_refused req w H). by eexists.
  - rewrite (get_list_accepted req w H). by eexists.
Qed.

(** ** Every reachable world satisfies the invariant *)

Lemma Inv_same w w' :
  potholes w' = potholes w → clock w' = clock w → (ticks w ≤ ticks w')%nat →
  (next_id w ≤ next_id w')%nat → Inv w → Inv w'.
Proof.
  intros Hp Hc Ht Hn [H1 H2 H3 H4].
  split; rewrite Hp; try assumption.
  - eapply Forall_impl; [exact H2|]. intros p (i & j & Hij & Hj & Hc1 & Hc2).
    exists i, j. rewrite Hc. repeat split; try assumption. lia.
  - eapply Forall_impl; [exact H3|]. simpl. intros p Hlt. lia.
Qed.

Lemma map_id_replace id p' l :
  _id p' = id → map _id (replace_by_id id p' l) = map _id l.
Proof.
  intros Hid. induction l as [|x l IH]; simpl; [reflexivity|].
  destruct (decide (_id x = id)) as [E|E]; simpl; congruence.
Qed.

Lemma Forall_replace (P : Pothole → Prop) id p' l :
  Forall P l → P p' → Forall P (replace_by_id id p' l).
Proof.
  intros Hl Hp. induction Hl as [|x l Hx Hl IH]; simpl; [constructor|].
  destruct (decide (_id x = id)); constructor; assumption.
Qed.

Lemma Forall_delete (P : Pothole → Prop) id l :
  Forall P l → Forall P (delete_by_id id l).
Proof.
  induction 1 as [|x l Hx Hl IH]; simpl; [constructor|].
  destruct (decide (_id x = id)); [assumption | by constructor].
Qed.

Lemma map_id_delete id l :
  map _id (delete_by_id id l) `sublist_of` map _id l.
Proof.
  induction l as [|x l IH]; simpl; [constructor|].
  destruct (decide (_id x = id)); simpl.
  - by apply sublist_cons.
  - by apply sublist_skip.
Qed.

Lemma Inv_init us fs clk dir : Inv (init us fs clk dir).
Proof. split; simpl; constructor. Qed.

Lemma Inv_register req w : Inv w → Inv (post_register req w).2.
Proof.
  intros HI. destruct (req_file req) as [file|] eqn:Hf.
  - rewrite (post_register_file req file w Hf).
    destruct (validate (fields_of req file)) eqn:Hv.
    + destruct HI as [H1 H2 H3 H4]. split; simpl.
      * apply Forall_app. split; [exact H1|].
        constructor; [|constructor]. simpl. unfold statuses. set_solver.
      * apply Forall_app. split.
        -- eapply Forall_impl; [exact H2|].
           intros p (i & j & Hij & Hj & Hc1 & Hc2). exists i, j.
           repeat split; try assumption. lia.
        -- constructor; [|constructor]. exists (ticks w), (2 + ticks w)%nat.
           simpl. repeat split; lia.
      * apply Forall_app. split.
        -- eapply Forall_impl; [exact H3|]. simpl. intros p Hp. lia.
        -- constructor; [|constructor]. simpl. lia.
      * rewrite map_app. simpl. apply NoDup_app. split; [exact H4|]. split.
        -- intros x Hx Hx'. apply list_elem_of_singleton in Hx'. subst x.
           apply list_elem_of_fmap in Hx as (p & Hid & Hp).
           rewrite Forall_forall in H3. specialize (H3 p Hp). lia.
        -- apply NoDup_singleton.
    + eapply Inv_same; [| | | |exact HI]; simpl; try reflexivity; lia.
  - rewrite (post_register_no_file req w Hf). exact HI.
Qed.

Lemma Inv_update id v w : Inv w → Inv (put_update id v w).2.
Proof.
  intros HI. destruct (JS.includes statuses v) eqn:Hinc.
  - destruct (enum_validator_allowed v Hinc) as (s & -> & Hs & _).
    rewrite (put_update_allowed id s w Hs).
    destruct (find_by_id id (potholes w)) as [p|] eqn:Hp; simpl.
    + destruct (find_by_id_Some _ _ _ Hp) as [Hin Hid].
      destruct HI as [H1 H2 H3 H4]. split; simpl.
      * apply Forall_replace; [exact H1 | exact Hs].
      * apply Forall_replace.
        -- eapply Forall_impl; [exact H2|].
           intros q (i & j & Hij & Hj & Hc1 & Hc2). exists i, j.
           repeat split; try assumption. lia.
        -- rewrite Forall_forall in H2.
           destruct (H2 p Hin) as (i & j & Hij & Hj & Hc1 & Hc2).
           exists i, (ticks w). simpl. repeat split; try assumption; lia.
      * apply Forall_replace; [exact H3|]. simpl.
        rewrite Forall_forall in H3. exact (H3 p Hin).
      * rewrite map_id_replace; [exact H4 | exact Hid].
    + eapply Inv_same; [| | | |exact HI]; simpl; try reflexivity; lia.
  - rewrite (put_update_refused id v w Hinc). exact HI.
Qed.

Lemma Inv_delete id w : Inv w → Inv (delete_id id w).2.
Proof.
  intros HI. destruct (find_by_id id (potholes w)) as [p|] eqn:Hp.
  - destruct (delete_id_found id w p Hp) as (_ & Hps & _ & _ & Ht & Hn & Hc).
    destruct HI as [H1 H2 H3 H4].
    split; rewrite Hps, ?Ht, ?Hn, ?Hc.
    + by apply Forall_delete.
    + by apply Forall_delete.
    + by apply Forall_delete.
    + eapply sublist_NoDup; [exact H4 | apply map_id_delete].
  - rewrite (delete_id_missing id w Hp). simpl.
    eapply Inv_same; [| | | |exact HI]; simpl; try reflexivity; lia.
Qed.

Theorem reachable_inv w : reachable w → Inv w.
Proof.
  induction 1 as [us fs clk dir | w file _ IH | w req _ IH | w req _ IH
                  | w id _ IH | w id s _ IH | w id _ IH].
  - apply Inv_init.
  - eapply Inv_same; [| | | |exact IH]; simpl; try reflexivity; lia.
  - by apply Inv_register.
  - destruct (get_list_world req w) as [t ->].
    eapply Inv_same; [| | | |exact IH]; simpl; try reflexivity; lia.
  - rewrite get_id_world.
    eapply Inv_same; [| | | |exact IH]; simpl; try reflexivity; lia.
  - by apply Inv_update.
  - by apply Inv_delete.
Qed.

(** ** Removing a report *)

Lemma delete_by_id_gone id l :
  NoDup (map _id l) → ∀ q, q ∈ delete_by_id id l → _id q ≠ id.
Proof.
  induction l as [|x l IH]; simpl; intros Hnd q Hq.
  - inversion Hq.
  - apply NoDup_cons in Hnd as [Hx Hnd].
    destruct (decide (_id x = id)) as [E|E].
    + intros Hid. apply Hx. rewrite E, <- Hid.
      apply list_elem_of_fmap. by exists q.
    + apply elem_of_cons in Hq as [->|Hq]; [exact E | by apply IH].
Qed.

(** *** The route parameter *)

Lemma GET_id_cast param id w :
  ObjectId_of_string param = Some id → GET_id param w = get_id id w.
Proof.
  intros H. unfold GET_id, get_id, try_catch, bind, Pothole_findById_param,
    castObjectId, bind. by rewrite H.
Qed.

Lemma GET_id_malformed param w :
  ObjectId_of_string param = None → GET_id param w = (cast_failed param, w).
Proof.
  intros H. unfold GET_id, try_catch, bind, Pothole_findById_param,
    castObjectId, bind. by rewrite H.
Qed.

Lemma DELETE_id_cast param id w :
  ObjectId_of_string param = Some id → DELETE_id param w = delete_id id w.
Proof.
  intros H. unfold DELETE_id, delete_id, try_catch, bind,
    Pothole_findById_param, castObjectId, bind. by rewrite H.
Qed.

Lemma DELETE_id_malformed param w :
  ObjectId_of_string param = None → DELETE_id param w = (cast_failed param, w).
Proof.
  intros H. unfold DELETE_id, try_catch, bind, Pothole_findById_param,
    castObjectId, bind. by rewrite H.
Qed.

Lemma PUT_update_id_cast param id v w :
  ObjectId_of_string param = Some id →
  PUT_update_id param v w = put_update id v w.
Proof.
  intros H. unfold PUT_update_id, put_update, try_catch.
  destruct (negb _); [reflexivity|].
  unfold bind, Date_now, Pothole_findByIdAndUpdate_param, castObjectId, bind.
  by rewrite H.
Qed.

Lemma PUT_update_id_malformed param v w :
  ObjectId_of_string param = None →
  PUT_update_id param v w
  = if JS.includes statuses v
    then (cast_failed param, with_ticks (S (ticks w)) w)
    else (invalid_status, w).
Proof.
  intros H. unfold PUT_update_id, try_catch.
  change ["pending"; "inprocess"; "completed"] with statuses.
  destruct (JS.includes statuses v); [|reflexivity]. simpl.
  unfold bind, Date_now, Pothole_findByIdAndUpdate_param, castObjectId, bind.
  by rewrite H.
Qed.

Lemma not_named_missing param id w :
  ¬ names_report param w → ObjectId_of_string param = Some id →
  ¬ exists_report id w.
Proof. intros Hn Hc Hex. apply Hn. by exists id. Qed.

Lemma demo_world1_report : exists_report 0%nat demo_world1.
Proof. apply exists_report_find. vm_compute. eexists. reflexivity. Qed.

Lemma demo_world1_reachable : reachable demo_world1.
Proof. apply reach_register, reach_upload, reach_init. Qed.

Lemma demo_clock_monotone : monotone demo_clock.
Proof. intros n. unfold demo_clock. lia. Qed.

Lemma abc_names_none w : ¬ names_report "abc" w.
Proof. intros (id & Hc & _). discriminate Hc. Qed.

(** ** Ids that identify no report *)

(** C6, as the code has it: for a parameter that names no stored report,
    looking it up and removing it are answered "Pothole not found" (404)
    when the parameter is the 24 hexadecimal digits of an id, and with a
    server error (500, the cast failure) when it is not; updating its status
    is answered "Invalid status value" (400) when the requested status is
    not one of the three allowed values, since the status is checked first,
    and otherwise as the other two routes are.  None of the three reports
    success, and the collection and the files are left as they were. *)
Theorem missing_id_fails (param : string) (w : World) :
  ¬ names_report param w →
  (GET_id param w).1 = missing_answer param
  ∧ (DELETE_id param w).1 = missing_answer param
  ∧ (∀ v, (allowed v → (PUT_update_id param v w).1 = missing_answer param)
          ∧ (¬ allowed v → (PUT_update_id param v w).1 = invalid_status)
          ∧ res_status (PUT_update_id param v w).1 ≠ 200%nat
          ∧ potholes (PUT_update_id param v w).2 = potholes w
          ∧ files (PUT_update_id param v w).2 = files w)
  ∧ res_status (missing_answer param) ≠ 200%nat
  ∧ potholes (GET_id param w).2 = potholes w
  ∧ files (GET_id param w).2 = files w
  ∧ potholes (DELETE_id param w).2 = potholes w
  ∧ files (DELETE_id param w).2 = files w.
Proof.
  intros Hnames. unfold missing_answer.
  destruct (ObjectId_of_string param) as [id|] eqn:Hcast.
  - pose proof (not_named_missing param id w Hnames Hcast) as Hno.
    apply missing_report_find in Hno.
    rewrite (GET_id_cast param id w Hcast), (DELETE_id_cast param id w Hcast).
    split; [by apply get_id_missing|].
    split; [by rewrite (delete_id_missing id w Hno)|].
    split.
    + intros v. rewrite (PUT_update_id_cast param id v w Hcast).
      destruct (JS.includes statuses v) eqn:Hinc.
      * destruct (enum_validator_allowed v Hinc) as (s & -> & Hs & _).
        rewrite (put_update_allowed id s w Hs), Hno. simpl.
        repeat split; try done.
        intros Hn. exfalso. by apply Hn, includes_allowed.
      * rewrite (put_update_refused id v w Hinc). simpl.
        repeat split; try done.
        intros Ha. apply includes_allowed in Ha. congruence.
    + rewrite get_id_world, (delete_id_missing id w Hno). done.
  - rewrite (GET_id_malformed param w Hcast),
      (DELETE_id_malformed param w Hcast).
    split; [reflexivity|]. split; [reflexivity|].
    split; [|done].
    intros v. rewrite (PUT_update_id_malformed param v w Hcast).
    destruct (JS.includes statuses v) eqn:Hinc; simpl.
    + repeat split; try done.
      intros Hn. exfalso. by apply Hn, includes_allowed.
    + repeat split; try done.
      intros Ha. apply includes_allowed in Ha. congruence.
Qed.

Lemma demo_world1_no_report_5 : ¬ exists_report 5%nat demo_world1.
Proof.
  intros H. apply exists_report_find in H as [p Hp].
  vm_compute in Hp. discriminate.
Qed.

Lemma demo_id_5_names_none : ¬ names_report demo_id_5 demo_world1.
Proof.
  intros (id & Hc & Hex). injection Hc as <-.
  by apply demo_world1_no_report_5.
Qed.

Lemma missing_id_fails_witness :
  ¬ names_report demo_id_5 demo_world1
  ∧ (GET_id demo_id_5 demo_world1).1 = missing_answer demo_id_5
  ∧ (DELETE_id demo_id_5 demo_world1).1 = missing_answer demo_id_5
  ∧ missing_answer demo_id_5 = not_found.
Proof.
  split; [exact demo_id_5_names_none|].
  destruct (missing_id_fails demo_id_5 demo_world1 demo_id_5_names_none)
    as (Hg & Hd & _).
  split; [exact Hg|]. split; [exact Hd | reflexivity].
Defined.

(** The status is checked before the lookup: updating a report that does not
    exist to a value outside the three allowed ones is answered with the
    validation error. *)
Example update_missing_archived :
  ¬ names_report demo_id_5 demo_world1
  ∧ (PUT_update_id demo_id_5 (JS.Str "archived") demo_world1).1
    = invalid_status
  ∧ (PUT_update_id "abc" (JS.Str "archived") demo_world1).1 = invalid_status.
Proof.
  split; [exact demo_id_5_names_none|]. split; reflexivity.
Qed.

(** C6 as stated fails for a parameter that is not an id: no report has the
    id "abc", yet looking it up is answered with a server error (status
    500, the cast failure) and so is setting its status to an allowed
    value, where the claim has "not found" (status 404). *)
Lemma malformed_id_counterexample :
  ¬ names_report "abc" demo_world1
  ∧ (GET_id "abc" demo_world1).1 = cast_failed "abc"
  ∧ res_status (GET_id "abc" demo_world1).1 = 500%nat
  ∧ res_status (PUT_update_id "abc" (JS.Str "completed") demo_world1).1
    = 500%nat
  ∧ res_status not_found = 404%nat.
Proof.
  split; [apply abc_names_none|]. repeat split; reflexivity.
Qed.

(** ** Registration: validation and timestamps *)

Lemma validate_valid req file :
  valid_registration req → validate (fields_of req file) = [].
Proof.
  intros (_ & Hd & Hlo & Hla & Hg & v & Hv & Hne).
  unfold validate, castNumber. simpl.
  rewrite Hd, Hlo, Hla, Hg, Hv. simpl.
  destruct (String.eqb_spec v ""); [contradiction | reflexivity].
Qed.

Lemma validate_nan req file :
  JS.parseFloat (body_distance req) = JS.NaN
  ∨ JS.parseFloat (body_longitude req) = JS.NaN
  ∨ JS.parseFloat (body_latitude req) = JS.NaN
  ∨ JS.parseFloat (body_vehicle_ground_level req) = JS.NaN →
  validate (fields_of req file) ≠ [].
Proof.
  intros H Hv. unfold validate, castNumber in Hv. simpl in Hv.
  repeat (apply app_eq_nil in Hv as [? Hv]).
  destruct H as [H|[H|[H|H]]]; rewrite H in *; discriminate.
Qed.

Lemma monotone_le clk i j : monotone clk → (i ≤ j)%nat → clk i ≤ clk j.
Proof.
  intros Hm Hij. induction Hij as [|j _ IH]; [lia|].
  specialize (Hm j). lia.
Qed.

(** C3, as the code has it: a valid registration is answered 201 with the
    stored record; its status is "pending"; its createdAt is the clock
    reading taken when the schema default was applied and its updatedAt is the
    reading taken two readings later by the pre-save hook, so createdAt is at
    most updatedAt when the clock does not run backwards (and equal to it
    only if the clock did not advance in between). *)
Theorem register_valid (req : RegisterRequest) (w : World) :
  valid_registration req →
  ∃ p, (post_register req w).1
       = {| res_status := 201;
            res_json := success_pothole "Pothole registered successfully" p |}
     ∧ potholes (post_register req w).2 = potholes w ++ [p]
     ∧ pothole_status p = "pending"
     ∧ createdAt p = clock w (ticks w)
     ∧ updatedAt p = clock w (2 + ticks w)
     ∧ (monotone (clock w) → createdAt p ≤ updatedAt p).
Proof.
  intros Hvalid. destruct Hvalid as ([file Hf] & Hrest).
  assert (Hv : validate (fields_of req file) = []).
  { apply validate_valid. split; [by eexists | exact Hrest]. }
  exists (registered req file w).
  rewrite (post_register_file req file w Hf), Hv. simpl.
  repeat split; try reflexivity.
  intros Hm. apply monotone_le; [exact Hm | lia].
Qed.

Lemma demo_request_valid : valid_registration (demo_request "1.2" "pothole-1.png").
Proof.
  unfold valid_registration. simpl. repeat split; try reflexivity.
  - by eexists.
  - exists "truck-12". split; [reflexivity | discriminate].
Qed.

Lemma register_valid_witness :
  valid_registration (demo_request "1.2" "pothole-1.png")
  ∧ ∃ p, (post_register (demo_request "1.2" "pothole-1.png") demo_world).1
         = {| res_status := 201;
              res_json :=
                success_pothole "Pothole registered successfully" p |}
       ∧ potholes (post_register (demo_request "1.2" "pothole-1.png")
                     demo_world).2
         = potholes demo_world ++ [p]
       ∧ pothole_status p = "pending"
       ∧ createdAt p = clock demo_world (ticks demo_world)
       ∧ updatedAt p = clock demo_world (2 + ticks demo_world)
       ∧ (monotone (clock demo_world) → createdAt p ≤ updatedAt p).
Proof.
  split; [exact demo_request_valid|].
  exact (register_valid (demo_request "1.2" "pothole-1.png") demo_world
           demo_request_valid).
Defined.

(** C3 as stated fails: with a clock that advances between the two readings,
    the record returned by a valid registration has createdAt 1000 and
    updatedAt 1002. *)
Lemma register_timestamps_counterexample :
  valid_registration (demo_request "1.2" "pothole-1.png")
  ∧ ∃ p, (post_register (demo_request "1.2" "pothole-1.png") demo_world).1
         = {| res_status := 201;
              res_json :=
                success_pothole "Pothole registered successfully" p |}
       ∧ pothole_status p = "pending"
       ∧ createdAt p = 1000 ∧ updatedAt p = 1002
       ∧ createdAt p ≠ updatedAt p.
Proof.
  split; [exact demo_request_valid|].
  eexists. split; [reflexivity|]. simpl. repeat split; discriminate.
Qed.

(** C9, as the code has it: when a registration carries an image and one of
    distance, longitude, latitude or vehicle_ground_level does not parse as a
    number, validation refuses the document: the answer is the error
    [error.message] of a validation error (status 500) and no report is
    stored. *)
Theorem register_not_a_number (req : RegisterRequest) (w : World) :
  is_Some (req_file req) →
  JS.parseFloat (body_distance req) = JS.NaN
  ∨ JS.parseFloat (body_longitude req) = JS.NaN
  ∨ JS.parseFloat (body_latitude req) = JS.NaN
  ∨ JS.parseFloat (body_vehicle_ground_level req) = JS.NaN →
  ∃ paths, paths ≠ []
    ∧ (post_register req w).1
      = {| res_status := 500;
           res_json := failure (error_message (ValidationError paths)) |}
    ∧ potholes (post_register req w).2 = potholes w.
Proof.
  intros [file Hf] Hnan.
  pose proof (validate_nan req file Hnan) as Hv.
  rewrite (post_register_file req file w Hf).
  destruct (validate (fields_of req file)) as [|path paths] eqn:E;
    [contradiction|].
  exists (path :: paths). repeat split. discriminate.
Qed.

Lemma register_not_a_number_witness :
  is_Some (req_file (demo_request "abc" "pothole-2.png"))
  ∧ JS.parseFloat (body_distance (demo_request "abc" "pothole-2.png")) = JS.NaN
  ∧ ∃ paths, paths ≠ []
      ∧ (post_register (demo_request "abc" "pothole-2.png") demo_world1).1
        = {| res_status := 500;
             res_json := failure (error_message (ValidationError paths)) |}
      ∧ potholes (post_register (demo_request "abc" "pothole-2.png")
                    demo_world1).2
        = potholes demo_world1.
Proof.
  assert (H : is_Some (req_file (demo_request "abc" "pothole-2.png")))
    by (by eexists).
  split; [exact H|]. split; [reflexivity|].
  apply (register_not_a_number (demo_request "abc" "pothole-2.png")
           demo_world1 H).
  left. reflexivity.
Defined.

(** C9 as stated fails: a registration with an image whose distance is "abc"
    is not accepted; it is answered with status 500 and the collection still
    holds the one report it held. *)
Lemma register_not_a_number_counterexample :
  is_Some (req_file (demo_request "abc" "pothole-2.png"))
  ∧ JS.parseFloat (body_distance (demo_request "abc" "pothole-2.png")) = JS.NaN
  ∧ (post_register (demo_request "abc" "pothole-2.png") demo_world1).1
    = {| res_status := 500;
         res_json := failure (error_message (ValidationError ["distance"])) |}
  ∧ potholes (post_register (demo_request "abc" "pothole-2.png") demo_world1).2
    = potholes demo_world1
  ∧ length (potholes demo_world1) = 1%nat.
Proof.
  split; [by eexists|]. repeat split; reflexivity.
Qed.

(** ** The frame of a status update *)

Lemma replace_by_id_other id p' l (i : nat) q :
  l !! i = Some q → _id q ≠ id → replace_by_id id p' l !! i = Some q.
Proof.
  revert i. induction l as [|x l IH]; intros i Hi Hq; [done|].
  simpl. destruct (decide (_id x = id)) as [E|E].
  - destruct i as [|i]; simpl in *; [|exact Hi].
    inversion Hi; subst. contradiction.
  - destruct i as [|i]; simpl in *; [exact Hi | by apply IH].
Qed.

Lemma replace_by_id_length id p' l :
  length (replace_by_id id p' l) = length l.
Proof.
  induction l as [|x l IH]; simpl; [reflexivity|].
  destruct (decide (_id x = id)); simpl; congruence.
Qed.

Lemma replace_by_id_elem id p' l p :
  find_by_id id l = Some p → p' ∈ replace_by_id id p' l.
Proof.
  induction l as [|x l IH]; simpl; [discriminate|].
  destruct (decide (_id x = id)); intros H; [left | right; by apply IH].
Qed.

(** C7: a successful status update changes, in the record it targets, the
    status and updatedAt only: id, createdAt, image reference, reportedBy,
    gps, distance, vehicle name and vehicle ground level are those of the
    stored record, and updatedAt does not decrease (the clock not running
    backwards).  Every other record of the collection stays where and as it
    was, and the files are untouched. *)
Theorem update_status_frame
    (id : ObjectId) (v : JS.value) (w : World) (m : string) (p' : Pothole) :
  reachable w →
  monotone (clock w) →
  (put_update id v w).1
  = {| res_status := 200; res_json := success_pothole m p' |} →
  ∃ p, p ∈ potholes w ∧ _id p = id
    ∧ _id p' = _id p
    ∧ createdAt p' = createdAt p
    ∧ image p' = image p
    ∧ reportedBy p' = reportedBy p
    ∧ gps p' = gps p
    ∧ distance p' = distance p
    ∧ vehicle_name p' = vehicle_name p
    ∧ vehicle_ground_level p' = vehicle_ground_level p
    ∧ JS.Str (pothole_status p') = v
    ∧ updatedAt p ≤ updatedAt p'
    ∧ p' ∈ potholes (put_update id v w).2
    ∧ length (potholes (put_update id v w).2) = length (potholes w)
    ∧ (∀ (i : nat) q, potholes w !! i = Some q → _id q ≠ id →
         potholes (put_update id v w).2 !! i = Some q)
    ∧ files (put_update id v w).2 = files w.
Proof.
  intros Hreach Hmono Hres.
  destruct (JS.includes statuses v) eqn:Hinc.
  2: { rewrite (put_update_refused id v w Hinc) in Hres. discriminate. }
  destruct (enum_validator_allowed v Hinc) as (s & -> & Hs & _).
  rewrite (put_update_allowed id s w Hs) in Hres |- *.
  destruct (find_by_id id (potholes w)) as [p|] eqn:Hp; [|discriminate].
  simpl in Hres. inversion Hres; subst m p'. clear Hres.
  destruct (find_by_id_Some _ _ _ Hp) as [Hin Hid].
  exists p. simpl. repeat split; try done.
  - apply reachable_inv in Hreach. destruct Hreach as [_ Ht _ _].
    rewrite Forall_forall in Ht.
    destruct (Ht p Hin) as (i & j & Hij & Hj & _ & ->).
    apply monotone_le; [exact Hmono | lia].
  - by eapply replace_by_id_elem.
  - apply replace_by_id_length.
  - intros i q Hi Hq. by apply replace_by_id_other.
Qed.

Lemma update_status_frame_witness :
  reachable demo_world1
  ∧ monotone (clock demo_world1)
  ∧ (put_update 0%nat (JS.Str "completed") demo_world1).1
    = {| res_status := 200;
         res_json :=
           success_pothole "Pothole status updated successfully" demo_updated |}
  ∧ ∃ p, p ∈ potholes demo_world1 ∧ _id p = 0%nat
      ∧ _id demo_updated = _id p
      ∧ createdAt demo_updated = createdAt p
      ∧ image demo_updated = image p
      ∧ reportedBy demo_updated = reportedBy p
      ∧ gps demo_updated = gps p
      ∧ distance demo_updated = distance p
      ∧ vehicle_name demo_updated = vehicle_name p
      ∧ vehicle_ground_level demo_updated = vehicle_ground_level p
      ∧ JS.Str (pothole_status demo_updated) = JS.Str "completed"
      ∧ updatedAt p ≤ updatedAt demo_updated
      ∧ demo_updated
        ∈ potholes (put_update 0%nat (JS.Str "completed") demo_world1).2
      ∧ length (potholes (put_update 0%nat (JS.Str "completed") demo_world1).2)
        = length (potholes demo_world1)
      ∧ (∀ (i : nat) q, potholes demo_world1 !! i = Some q → _id q ≠ 0%nat →
           potholes (put_update 0%nat (JS.Str "completed") demo_world1).2 !! i
           = Some q)
      ∧ files (put_update 0%nat (JS.Str "completed") demo_world1).2
        = files demo_world1.
Proof.
  split; [exact demo_world1_reachable|].
  split; [exact demo_clock_monotone|].
  split; [reflexivity|].
  exact (update_status_frame 0%nat (JS.Str "completed") demo_world1
           "Pothole status updated successfully" demo_updated
           demo_world1_reachable demo_clock_monotone eq_refl).
Defined.

Example update_timestamps :
  updatedAt demo_updated = 1003 ∧ createdAt demo_updated = 1000.
Proof. split; reflexivity. Qed.

(** ** Sorting, most recent first *)

Lemma insert_desc_perm p l : insert_desc p l ≡ₚ p :: l.
Proof.
  induction l as [|x l IH]; simpl; [reflexivity|].
  destruct (createdAt x <=? createdAt p); [reflexivity|].
  rewrite IH. apply Permutation_swap.
Qed.

Lemma sort_desc_perm l : sort_desc l ≡ₚ l.
Proof.
  induction l as [|x l IH]; simpl; [reflexivity|].
  rewrite insert_desc_perm. by constructor.
Qed.

Lemma insert_desc_sorted p l :
  StronglySorted newer_first l → StronglySorted newer_first (insert_desc p l).
Proof.
  induction 1 as [|x l Hl IH Hx]; simpl.
  - repeat constructor.
  - destruct (createdAt x <=? createdAt p) eqn:E.
    + apply Z.leb_le in E. constructor; [by constructor|].
      constructor; [exact E|].
      eapply Forall_impl; [exact Hx|]. unfold newer_first. intros y Hy. lia.
    + apply Z.leb_gt in E. constructor; [exact IH|].
      rewrite insert_desc_perm. constructor; [|exact Hx].
      unfold newer_first. lia.
Qed.

Lemma sort_desc_sorted l : StronglySorted newer_first (sort_desc l).
Proof.
  induction l as [|x l IH]; simpl; [constructor | by apply insert_desc_sorted].
Qed.

Lemma slice_sorted (n k : nat) l :
  StronglySorted newer_first l →
  StronglySorted newer_first (take n (drop k l)).
Proof.
  intros Hl. rewrite <- (take_drop k l) in Hl.
  apply StronglySorted_app_1_r in Hl.
  rewrite <- (take_drop n (drop k l)) in Hl.
  by apply StronglySorted_app_1_l in Hl.
Qed.

(** ** Pages *)

Lemma ceil_opp_div N P : 0 < P → - ((- N) / P) = (N + P - 1) / P.
Proof.
  intros HP.
  pose proof (Z.div_mod (N + P - 1) P ltac:(lia)) as H1.
  pose proof (Z.mod_pos_bound (N + P - 1) P HP) as H2.
  apply Z.opp_inj. rewrite Z.opp_involutive. symmetry.
  apply (Z.div_unique _ _ _ (P - 1 - (N + P - 1) mod P)); [lia|].
  rewrite Z.mul_opp_r. lia.
Qed.

Lemma ceil_bounds N P :
  0 < P →
  ((N + P - 1) / P - 1) * P < N ≤ (N + P - 1) / P * P.
Proof.
  intros HP.
  pose proof (Z.div_mod (N + P - 1) P ltac:(lia)) as H1.
  pose proof (Z.mod_pos_bound (N + P - 1) P HP) as H2.
  lia.
Qed.

Lemma totalPages_ceil (n : nat) (P : Z) :
  1 ≤ P → totalPages_of n P = JS.of_Z ((Z.of_nat n + P - 1) / P).
Proof.
  intros HP. destruct P as [|p|p]; try lia.
  unfold totalPages_of, JS.div, JS.of_Z, JS.is_zero, JS.Math_ceil. simpl.
  f_equal. f_equal. unfold Qceiling, Qfloor, Qdiv, Qmult, Qinv, Qopp. simpl.
  rewrite Z.mul_1_r. apply ceil_opp_div. lia.
Qed.

Lemma window_page page P l :
  1 ≤ P →
  window page P l = take (Z.to_nat P) (drop (Z.to_nat ((page - 1) * P)) l).
Proof.
  intros HP. unfold window, apply_limit, apply_skip.
  rewrite Z.mul_1_r. destruct (Z.eqb_spec P 0); [lia|].
  by rewrite Z.abs_eq by lia.
Qed.

Lemma doc_populated w l : map doc (populated w l) = l.
Proof. induction l as [|x l IH]; simpl; congruence. Qed.

Lemma get_list_page req w :
  1 ≤ limit_of req → 1 ≤ page_of req →
  get_list req w =
  let q := query_of (query_status req) in
  let found := matching q (potholes w) in
  ({| res_status := 200;
      res_json :=
        success_list
          (populated w
             (take (Z.to_nat (limit_of req))
                (drop (Z.to_nat ((page_of req - 1) * limit_of req))
                   (sort_desc found))))
          (JS.of_Z ((Z.of_nat (length found) + limit_of req - 1) / limit_of req))
          (page_of req) (length found) |},
   with_trace (trace w ++ [DbFind q; DbCount q]) w).
Proof.
  intros HP Hpage. rewrite get_list_accepted by nia. simpl.
  by rewrite window_page, totalPages_ceil.
Qed.

Lemma concat_chunks (l : list Pothole) (c n : nat) :
  concat (map (λ k, take c (drop (k * c) l)) (seq 0 n)) = take (n * c) l.
Proof.
  induction n as [|n IH]; [reflexivity|].
  rewrite seq_S, map_app, concat_app, IH. simpl.
  rewrite app_nil_r, take_take_drop. f_equal. lia.
Qed.

(** *** The order among reports created at the same instant *)

Lemma sort_desc_sorts : sorts sort_desc.
Proof. intros l. split; [apply sort_desc_perm | apply sort_desc_sorted]. Qed.

Lemma sort_desc_rev_sorts : sorts sort_desc_rev.
Proof.
  intros l. unfold sort_desc_rev. split; [|apply sort_desc_sorted].
  rewrite sort_desc_perm. symmetry. apply Permutation_rev.
Qed.

Lemma demo_orders_sorts k : sorts (demo_orders k).
Proof.
  unfold demo_orders. destruct (Z.odd k);
    [apply sort_desc_sorts | apply sort_desc_rev_sorts].
Qed.

(** Reports with distinct [createdAt] can be sorted in one way only. *)
Lemma sorted_unique (l1 l2 : list Pothole) :
  l1 ≡ₚ l2 → NoDup (map createdAt l1) →
  StronglySorted newer_first l1 → StronglySorted newer_first l2 → l1 = l2.
Proof.
  revert l2. induction l1 as [|x l1 IH]; intros l2 Hp Hnd H1 H2.
  - by apply Permutation_nil in Hp.
  - destruct l2 as [|y l2].
    { symmetry in Hp. by apply Permutation_nil in Hp. }
    apply StronglySorted_inv in H1 as [H1 Hx].
    apply StronglySorted_inv in H2 as [H2 Hy].
    simpl in Hnd. apply NoDup_cons in Hnd as [Hxn Hnd].
    assert (Hxy : x = y).
    { assert (Hxin : x ∈ y :: l2) by (rewrite <- Hp; left).
      assert (Hyin : y ∈ x :: l1) by (rewrite Hp; left).
      apply elem_of_cons in Hxin as [Hxin|Hxin]; [exact Hxin|].
      apply elem_of_cons in Hyin as [Hyin|Hyin]; [by symmetry|].
      rewrite Forall_forall in Hx, Hy.
      pose proof (Hx y Hyin) as Hle1. pose proof (Hy x Hxin) as Hle2.
      unfold newer_first in Hle1, Hle2.
      exfalso. apply Hxn.
      replace (createdAt x) with (createdAt y) by lia.
      apply list_elem_of_fmap. by exists y. }
    subst y. f_equal. apply IH; try assumption.
    by apply (Permutation_cons_inv (a := x)).
Qed.

Lemma sorts_stable order l :
  sorts order → NoDup (map createdAt l) → order l = sort_desc l.
Proof.
  intros Ho Hnd. destruct (Ho l) as [Hp Hs].
  apply sorted_unique; [| |exact Hs | apply sort_desc_sorted].
  - by rewrite Hp, sort_desc_perm.
  - assert (Hm : map createdAt (order l) ≡ₚ map createdAt l)
      by (by apply Permutation_map).
    by rewrite Hm.
Qed.

Lemma get_list_by_stable order req w :
  sorts order →
  NoDup (map createdAt (matching (query_of (query_status req)) (potholes w))) →
  get_list_by order req w = get_list req w.
Proof.
  intros Ho Hnd.
  destruct (Z.lt_ge_cases ((page_of req - 1) * limit_of req) 0) as [H|H].
  - by rewrite (get_list_by_refused order req w H), (get_list_refused req w H).
  - rewrite (get_list_by_accepted order req w H), (get_list_accepted req w H).
    cbv zeta. by rewrite (sorts_stable order _ Ho Hnd).
Qed.

Lemma get_list_by_page order req w :
  1 ≤ limit_of req → 1 ≤ page_of req →
  get_list_by order req w =
  let q := query_of (query_status req) in
  let found := matching q (potholes w) in
  ({| res_status := 200;
      res_json :=
        success_list
          (populated w
             (take (Z.to_nat (limit_of req))
                (drop (Z.to_nat ((page_of req - 1) * limit_of req))
                   (order found))))
          (JS.of_Z ((Z.of_nat (length found) + limit_of req - 1) / limit_of req))
          (page_of req) (length found) |},
   with_trace (trace w ++ [DbFind q; DbCount q]) w).
Proof.
  intros HP Hpage. rewrite get_list_by_accepted by nia. simpl.
  by rewrite window_page, totalPages_ceil.
Qed.

Lemma scan_by_pages orders status P w :
  1 ≤ P →
  ∀ n a w', potholes w' = potholes w →
    (scan_by orders status P (1 + Z.of_nat a) n w').1
    = map (λ k, take (Z.to_nat P)
                  (drop (k * Z.to_nat P)
                     (orders (1 + Z.of_nat k)
                        (matching (query_of status) (potholes w)))))
          (seq a n).
Proof.
  intros HP. induction n as [|n IH]; intros a w' Hw'; [reflexivity|].
  simpl. rewrite get_list_by_page by (unfold page_of, limit_of; simpl; lia).
  cbv zeta. unfold page_of, limit_of. simpl.
  specialize (IH (S a) (with_trace
    (trace w' ++ [DbFind (query_of status); DbCount (query_of status)]) w') Hw').
  replace (1 + Z.of_nat a + 1) with (1 + Z.of_nat (S a)) by lia.
  destruct (scan_by orders status P (1 + Z.of_nat (S a)) n _) as [rest w2].
  simpl in IH. subst rest. simpl. f_equal.
  unfold items. simpl. rewrite doc_populated, Hw'. do 2 f_equal.
  replace (1 + Z.of_nat a - 1) with (Z.of_nat a) by lia.
  rewrite Z2Nat.inj_mul, Nat2Z.id by lia. reflexivity.
Qed.

(** C4, as the code has it: listing with page size P at least 1 over the N
    reports that match, the database being free to order reports of equal
    createdAt as it likes for each query.  Every request for a page numbered
    1 or more is answered with the slice, skipping (page - 1) * P records and
    taking P, of a permutation of the N reports sorted by createdAt
    descending, together with totalRecords = N and totalPages = ceil(N / P).
    When the N reports have pairwise distinct createdAt there is only one
    such permutation, every page is a slice of it, and reading pages 1 to
    ceil(N / P) one after the other and concatenating their items gives it
    back: all N records, each exactly once. *)
Theorem list_pagination (status : option string) (pageSize : Z)
    (orders : Z → list Pothole → list Pothole) (w : World) :
  1 ≤ pageSize →
  (∀ k, sorts (orders k)) →
  let recs := matching (query_of status) (potholes w) in
  let N := Z.of_nat (length recs) in
  let pages := (N + pageSize - 1) / pageSize in
  (pages - 1) * pageSize < N ≤ pages * pageSize
  ∧ (∀ req, query_status req = status → limit_of req = pageSize →
       1 ≤ page_of req →
       ∃ data sorted,
         sorted ≡ₚ recs
         ∧ StronglySorted newer_first sorted
         ∧ (get_list_by (orders (page_of req)) req w).1
           = {| res_status := 200;
                res_json := success_list data (JS.of_Z pages) (page_of req)
                              (length recs) |}
         ∧ map doc data
           = take (Z.to_nat pageSize)
               (drop (Z.to_nat ((page_of req - 1) * pageSize)) sorted)
         ∧ StronglySorted newer_first (map doc data))
  ∧ (NoDup (map createdAt recs) →
     ∃ sorted,
       sorted ≡ₚ recs
       ∧ StronglySorted newer_first sorted
       ∧ (∀ req, query_status req = status → limit_of req = pageSize →
            1 ≤ page_of req →
            items (get_list_by (orders (page_of req)) req w).1
            = take (Z.to_nat pageSize)
                (drop (Z.to_nat ((page_of req - 1) * pageSize)) sorted))
       ∧ concat (scan_by orders status pageSize 1 (Z.to_nat pages) w).1
         = sorted).
Proof.
  intros HP Ho recs N pages.
  split; [apply ceil_bounds; lia|].
  split.
  - intros req Hstatus Hlimit Hpage.
    destruct (Ho (page_of req) recs) as [Hperm Hsorted].
    eexists. exists (orders (page_of req) recs).
    split; [exact Hperm|]. split; [exact Hsorted|].
    rewrite get_list_by_page by lia. simpl. rewrite Hstatus, Hlimit.
    split; [reflexivity|]. rewrite doc_populated.
    split; [reflexivity | by apply slice_sorted].
  - intros Hnd. exists (sort_desc recs).
    split; [apply sort_desc_perm|].
    split; [apply sort_desc_sorted|].
    split.
    + intros req Hstatus Hlimit Hpage.
      rewrite get_list_by_page by lia. unfold items. simpl.
      rewrite Hstatus, Hlimit, doc_populated. fold recs.
      by rewrite (sorts_stable _ recs (Ho (page_of req)) Hnd).
    + change 1 with (1 + Z.of_nat 0).
      rewrite (scan_by_pages orders status pageSize w HP _ _ w eq_refl).
      fold recs.
      rewrite (map_ext_in _ (λ k, take (Z.to_nat pageSize)
                                    (drop (k * Z.to_nat pageSize)
                                       (sort_desc recs)))).
      2:{ intros k _. by rewrite (sorts_stable _ recs (Ho _) Hnd). }
      rewrite concat_chunks. apply take_ge.
      rewrite (Permutation_length (sort_desc_perm recs)).
      pose proof (ceil_bounds N pageSize ltac:(lia)) as [_ Hb].
      fold pages in Hb. subst N.
      assert (0 ≤ pages) by (apply Z.div_pos; lia).
      apply Nat2Z.inj_le. rewrite Nat2Z.inj_mul, !Z2Nat.id by lia. exact Hb.
Qed.

(** The three reports of [demo_world3] were created at distinct instants. *)
Lemma demo_world3_distinct : NoDup (map createdAt (potholes demo_world3)).
Proof.
  change (map createdAt (potholes demo_world3)) with [1000; 1003; 1006].
  repeat (apply NoDup_cons_2;
          [rewrite ?elem_of_cons, elem_of_nil; lia|]).
  apply NoDup_nil_2.
Qed.

Lemma list_pagination_witness :
  1 ≤ 2
  ∧ (∀ k, sorts (demo_orders k))
  ∧ NoDup (map createdAt (matching (query_of None) (potholes demo_world3)))
  ∧ let recs := matching (query_of None) (potholes demo_world3) in
    let N := Z.of_nat (length recs) in
    let pages := (N + 2 - 1) / 2 in
    (pages - 1) * 2 < N ≤ pages * 2
    ∧ (∀ req, query_status req = None → limit_of req = 2 →
         1 ≤ page_of req →
         ∃ data sorted,
           sorted ≡ₚ recs
           ∧ StronglySorted newer_first sorted
           ∧ (get_list_by (demo_orders (page_of req)) req demo_world3).1
             = {| res_status := 200;
                  res_json := success_list data (JS.of_Z pages) (page_of req)
                                (length recs) |}
           ∧ map doc data
             = take (Z.to_nat 2)
                 (drop (Z.to_nat ((page_of req - 1) * 2)) sorted)
           ∧ StronglySorted newer_first (map doc data))
    ∧ (NoDup (map createdAt recs) →
       ∃ sorted,
         sorted ≡ₚ recs
         ∧ StronglySorted newer_first sorted
         ∧ (∀ req, query_status req = None → limit_of req = 2 →
              1 ≤ page_of req →
              items (get_list_by (demo_orders (page_of req)) req demo_world3).1
              = take (Z.to_nat 2)
                  (drop (Z.to_nat ((page_of req - 1) * 2)) sorted))
         ∧ concat (scan_by demo_orders None 2 1 (Z.to_nat pages)
                     demo_world3).1
           = sorted).
Proof.
  split; [lia|]. split; [exact demo_orders_sorts|].
  split; [exact demo_world3_distinct|].
  exact (list_pagination None 2 demo_orders demo_world3 ltac:(lia)
           demo_orders_sorts).
Defined.

(** The two pages of size 2 of [demo_world3] carry each report once. *)
Example list_pages_of_two :
  map (map _id) (scan_by demo_orders None 2 1 2 demo_world3).1
  = [[2; 1]; [0]]%nat.
Proof. reflexivity. Qed.

Lemma tie_world_reachable : reachable tie_world.
Proof.
  apply reach_register, reach_upload, reach_register, reach_upload, reach_init.
Qed.

(** C4 as stated fails when two reports were created at the same instant:
    the clock stood still over two registrations, the database orders the
    two reports by insertion for page 1 and in reverse for page 2, both
    orders are by createdAt descending, and with page size 1 both pages
    carry report 0: the concatenation has it twice and report 1 not at
    all. *)
Lemma list_pages_overlap_counterexample :
  reachable tie_world
  ∧ monotone (clock tie_world)
  ∧ (∀ k, sorts (demo_orders k))
  ∧ map _id (potholes tie_world) = [0; 1]%nat
  ∧ map createdAt (potholes tie_world) = [1000; 1000]
  ∧ map (map _id) (scan_by demo_orders None 1 1 2 tie_world).1
    = [[0]; [0]]%nat
  ∧ ¬ concat (scan_by demo_orders None 1 1 2 tie_world).1
      ≡ₚ potholes tie_world.
Proof.
  split; [exact tie_world_reachable|].
  split; [intros n; simpl; unfold still_clock; lia|].
  split; [exact demo_orders_sorts|].
  split; [reflexivity|]. split; [reflexivity|]. split; [reflexivity|].
  intros Hp. apply (Permutation_map _id) in Hp.
  change (map _id (concat (scan_by demo_orders None 1 1 2 tie_world).1))
    with [0; 0]%nat in Hp.
  change (map _id (potholes tie_world)) with [0; 1]%nat in Hp.
  assert (H1 : 1%nat ∈ [0; 0]%nat) by (rewrite Hp; repeat constructor).
  rewrite !elem_of_cons, elem_of_nil in H1. lia.
Qed.

(** ** Parameters out of range *)

Lemma totalPages_zero (n : nat) :
  totalPages_of n 0 = if decide (n = 0%nat) then JS.NaN else JS.Infinity false.
Proof. destruct n; reflexivity. Qed.

(** C8, as the code has it: the list route uses page and pageSize as they are
    supplied, without raising them to 1.  With a page size of at least 1 and a
    page below 1 the query is refused (the skip is negative) and the request
    is answered with status 500.  With a page size of 0 the request succeeds,
    skips nothing and applies no limit: every matching report is returned,
    and totalPages is not a finite number. *)
Theorem list_out_of_range (req : ListRequest) (w : World) :
  (page_of req < 1 → 1 ≤ limit_of req →
   (get_list req w).1 = skip_refused
   ∧ potholes (get_list req w).2 = potholes w)
  ∧ (limit_of req = 0 →
     let found := matching (query_of (query_status req)) (potholes w) in
     (get_list req w).1
     = {| res_status := 200;
          res_json :=
            success_list (populated w (sort_desc found))
              (if decide (length found = 0%nat)
               then JS.NaN else JS.Infinity false)
              (page_of req) (length found) |}).
Proof.
  split.
  - intros Hpage Hlimit. rewrite get_list_refused by nia. done.
  - intros Hzero found. rewrite get_list_accepted by (rewrite Hzero; lia).
    simpl. rewrite Hzero, totalPages_zero. unfold window. simpl.
    rewrite Z.mul_0_r. reflexivity.
Qed.

Lemma list_out_of_range_witness :
  (0 < 1 ∧ 1 ≤ 10)
  ∧ (get_list {| query_status := None; query_page := Some 0;
                 query_limit := Some 10 |} demo_world3).1 = skip_refused
  ∧ potholes (get_list {| query_status := None; query_page := Some 0;
                          query_limit := Some 10 |} demo_world3).2
    = potholes demo_world3.
Proof.
  split; [lia|].
  apply (proj1 (list_out_of_range
                  {| query_status := None; query_page := Some 0;
                     query_limit := Some 10 |} demo_world3)).
  - unfold page_of. simpl. lia.
  - unfold limit_of. simpl. lia.
Defined.

(** C8 as stated fails: page 0 is not treated as page 1, the request is
    answered with status 500 where page 1 is answered 200; and page size 0 is
    not treated as page size 1, the answer carries all three reports where
    page size 1 carries one. *)
Lemma list_clamp_counterexample :
  res_status (get_list {| query_status := None; query_page := Some 0;
                          query_limit := Some 10 |} demo_world3).1 = 500%nat
  ∧ res_status (get_list {| query_status := None; query_page := Some 1;
                            query_limit := Some 10 |} demo_world3).1 = 200%nat
  ∧ length (items (get_list {| query_status := None; query_page := Some 1;
                               query_limit := Some 0 |} demo_world3).1) = 3%nat
  ∧ length (items (get_list {| query_status := None; query_page := Some 1;
                               query_limit := Some 1 |} demo_world3).1) = 1%nat.
Proof. repeat split; reflexivity. Qed.

(** ** The status filter *)

Lemma query_of_empty status :
  status = None ∨ status = Some "" → query_of status = None.
Proof. intros [->| ->]; reflexivity. Qed.

Lemma query_of_nonempty s : s ≠ "" → query_of (Some s) = Some s.
Proof.
  intros Hs. unfold query_of. simpl.
  destruct (String.eqb_spec s ""); [contradiction | reflexivity].
Qed.

Lemma filter_unknown_status s l :
  Forall (λ p, pothole_status p ∈ statuses) l → s ∉ statuses →
  filter (λ p, pothole_status p = s) l = [].
Proof.
  intros Hl Hs. induction Hl as [|x l Hx Hl IH]; [reflexivity|].
  rewrite filter_cons_False; [exact IH|]. intros <-. contradiction.
Qed.

Lemma window_nil page P : window page P [] = [].
Proof.
  unfold window, apply_limit, apply_skip. rewrite drop_nil.
  destruct (_ =? 0); [reflexivity | apply take_nil].
Qed.

(** C10: in every list query, an absent or empty status applies no filter:
    the database is asked for the whole collection, and the reports listed and
    counted are drawn from all of it.  A status that is not empty is the
    filter as it stands: the reports listed and counted are those whose
    stored status equals it; when it is not one of "pending", "inprocess",
    "completed" no stored report matches, and a query the database accepts
    (its skip is not negative) is answered with a success carrying no items
    and totalRecords = 0. *)
Theorem list_status_filter (req : ListRequest) (w : World) :
  reachable w →
  ∃ cond found,
    found = matching cond (potholes w)
    ∧ (∃ rest, trace (get_list req w).2 = trace w ++ DbFind cond :: rest)
    ∧ (query_status req = None ∨ query_status req = Some "" →
       cond = None ∧ found = potholes w)
    ∧ (∀ s, query_status req = Some s → s ≠ "" →
         cond = Some s
         ∧ found = filter (λ p, pothole_status p = s) (potholes w)
         ∧ (s ∉ statuses → found = []))
    ∧ (0 ≤ (page_of req - 1) * limit_of req →
       (get_list req w).1
       = {| res_status := 200;
            res_json :=
              success_list
                (populated w
                   (window (page_of req) (limit_of req) (sort_desc found)))
                (totalPages_of (length found) (limit_of req))
                (page_of req) (length found) |}
       ∧ (∀ s, query_status req = Some s → s ≠ "" → s ∉ statuses →
            (get_list req w).1
            = {| res_status := 200;
                 res_json :=
                   success_list [] (totalPages_of 0 (limit_of req))
                     (page_of req) 0 |})).
Proof.
  intros Hreach.
  apply reachable_inv in Hreach. destruct Hreach as [Hst _ _ _].
  exists (query_of (query_status req)),
         (matching (query_of (query_status req)) (potholes w)).
  split; [reflexivity|]. split.
  { destruct (Z.lt_ge_cases ((page_of req - 1) * limit_of req) 0) as [H|H].
    - rewrite (get_list_refused req w H). simpl. by eexists.
    - rewrite (get_list_accepted req w H). simpl. by eexists. }
  split.
  { intros Hs. by rewrite (query_of_empty _ Hs). }
  split.
  { intros s Hs Hne. rewrite Hs, (query_of_nonempty s Hne). simpl.
    split; [reflexivity|]. split; [reflexivity|].
    intros Hunk. by apply filter_unknown_status. }
  intros Hskip. rewrite (get_list_accepted req w Hskip). simpl.
  split; [reflexivity|].
  intros s Hs Hne Hunk. rewrite Hs, (query_of_nonempty s Hne). simpl.
  rewrite (filter_unknown_status s (potholes w) Hst Hunk). simpl.
  by rewrite window_nil.
Qed.

Lemma demo_world3_reachable : reachable demo_world3.
Proof. apply reach_register, reach_register, demo_world1_reachable. Qed.

Lemma list_status_filter_witness :
  reachable demo_world3
  ∧ ∃ cond found,
      found = matching cond (potholes demo_world3)
      ∧ (∃ rest, trace (get_list demo_archived demo_world3).2
                 = trace demo_world3 ++ DbFind cond :: rest)
      ∧ (query_status demo_archived = None
         ∨ query_status demo_archived = Some "" →
         cond = None ∧ found = potholes demo_world3)
      ∧ (∀ s, query_status demo_archived = Some s → s ≠ "" →
           cond = Some s
           ∧ found = filter (λ p, pothole_status p = s) (potholes demo_world3)
           ∧ (s ∉ statuses → found = []))
      ∧ (0 ≤ (page_of demo_archived - 1) * limit_of demo_archived →
         (get_list demo_archived demo_world3).1
         = {| res_status := 200;
              res_json :=
                success_list
                  (populated demo_world3
                     (window (page_of demo_archived) (limit_of demo_archived)
                        (sort_desc found)))
                  (totalPages_of (length found) (limit_of demo_archived))
                  (page_of demo_archived) (length found) |}
         ∧ (∀ s, query_status demo_archived = Some s → s ≠ "" →
              s ∉ statuses →
              (get_list demo_archived demo_world3).1
              = {| res_status := 200;
                   res_json :=
                     success_list []
                       (totalPages_of 0 (limit_of demo_archived))
                       (page_of demo_archived) 0 |})).
Proof.
  split; [exact demo_world3_reachable|].
  exact (list_status_filter demo_archived demo_world3 demo_world3_reachable).
Defined.

Example list_archived :
  (get_list demo_archived demo_world3).1
  = {| res_status := 200; res_json := success_list [] (JS.of_Z 0) 1 0 |}.
Proof. reflexivity. Qed.

Example list_empty_status :
  length (items (get_list {| query_status := Some ""; query_page := None;
                             query_limit := None |} demo_world3).1) = 3%nat.
Proof. reflexivity. Qed.

(** * Further properties of the routes *)

(** ** Registration succeeds exactly on valid submissions *)

Lemma validate_nil req file :
  validate (fields_of req file) = [] → valid_registration req ∨ req_file req = None.
Proof.
  intros Hv. unfold validate, castNumber, required_string in Hv. simpl in Hv.
  destruct (req_file req) as [f|] eqn:Hf; [left | by right].
  destruct (JS.isNaN (JS.parseFloat (body_distance req))) eqn:H1;
    [discriminate|].
  simpl in Hv.
  destruct (JS.isNaN (JS.parseFloat (body_longitude req))) eqn:H2;
    [discriminate|].
  destruct (JS.isNaN (JS.parseFloat (body_latitude req))) eqn:H3;
    [discriminate|].
  simpl in Hv.
  destruct (body_vehicle_name req) as [v|] eqn:H4; [|discriminate].
  destruct (String.eqb_spec v ""); [discriminate|]. simpl in Hv.
  destruct (JS.isNaN (JS.parseFloat (body_vehicle_ground_level req))) eqn:H5;
    [discriminate|].
  unfold valid_registration. rewrite Hf, H4. repeat split; try done.
  by exists v.
Qed.

(** X1: a registration is answered 201 exactly when an image is present, the
    four numeric fields parse to numbers and the vehicle name is a non-empty
    string; any other submission is answered 400 (no image) or 500 and stores
    no report.  The route never changes the files on disk. *)
Theorem register_succeeds_iff_valid (req : RegisterRequest) (w : World) :
  (res_status (post_register req w).1 = 201%nat ↔ valid_registration req)
  ∧ (¬ valid_registration req →
     potholes (post_register req w).2 = potholes w
     ∧ (res_status (post_register req w).1 = 400%nat ↔ req_file req = None)
     ∧ (res_status (post_register req w).1 = 500%nat ↔ is_Some (req_file req)))
  ∧ files (post_register req w).2 = files w.
Proof.
  destruct (req_file req) as [file|] eqn:Hf.
  - rewrite (post_register_file req file w Hf).
    destruct (validate (fields_of req file)) as [|path paths] eqn:Hv; simpl.
    + destruct (validate_nil req file Hv) as [Hval|Hnone]; [|congruence].
      split; [done|]. split; [|reflexivity].
      intros Hn. contradiction.
    + assert (Hnv : ¬ valid_registration req).
      { intros Hval. by rewrite (validate_valid req file Hval) in Hv. }
      repeat split; try done; try (by eexists).
  - rewrite (post_register_no_file req w Hf). simpl.
    assert (Hnv : ¬ valid_registration req).
    { intros ([f Hf'] & _). congruence. }
    repeat split; try done; try (intros [f Hf']; discriminate).
Qed.

(** ** Round trips through the collection *)

Lemma find_by_id_app id l1 l2 :
  find_by_id id (l1 ++ l2)
  = match find_by_id id l1 with
    | Some p => Some p
    | None => find_by_id id l2
    end.
Proof.
  induction l1 as [|x l1 IH]; simpl; [reflexivity|].
  destruct (decide (_id x = id)); [reflexivity | exact IH].
Qed.

Lemma find_by_id_fresh w :
  Inv w → find_by_id (next_id w) (potholes w) = None.
Proof.
  intros [_ _ Hfresh _]. apply find_by_id_None. intros p Hp.
  rewrite Forall_forall in Hfresh. specialize (Hfresh p Hp). lia.
Qed.

Lemma get_id_fetched id w p :
  find_by_id id (potholes w) = Some p →
  res_status (get_id id w).1 = 200%nat ∧ fetched (get_id id w).1 = Some p.
Proof. intros H. rewrite (get_id_found id w p H). done. Qed.

(** X2: in a reachable world a valid registration stores exactly one more
    report, under an id no stored report had, and fetching that id afterwards
    returns the very record the registration returned. *)
Theorem register_then_get (req : RegisterRequest) (w : World) :
  reachable w →
  valid_registration req →
  ∃ p, res_json (post_register req w).1
       = success_pothole "Pothole registered successfully" p
     ∧ ¬ exists_report (_id p) w
     ∧ length (potholes (post_register req w).2) = S (length (potholes w))
     ∧ res_status (get_id (_id p) (post_register req w).2).1 = 200%nat
     ∧ fetched (get_id (_id p) (post_register req w).2).1 = Some p.
Proof.
  intros Hreach Hvalid. apply reachable_inv in Hreach.
  pose proof (find_by_id_fresh w Hreach) as Hfresh.
  destruct Hvalid as ([file Hf] & Hrest).
  assert (Hv : validate (fields_of req file) = []).
  { apply validate_valid. split; [by eexists | exact Hrest]. }
  exists (registered req file w).
  rewrite (post_register_file req file w Hf), Hv. simpl.
  split; [reflexivity|]. split.
  { intros Hex. apply exists_report_find in Hex as [q Hq]. simpl in Hq.
    congruence. }
  split; [rewrite length_app; simpl; lia|].
  apply get_id_fetched. simpl. rewrite find_by_id_app, Hfresh. simpl.
  destruct (decide (next_id w = next_id w)); [reflexivity | contradiction].
Qed.

Lemma register_then_get_witness :
  reachable demo_world1
  ∧ valid_registration (demo_request "3.4" "pothole-2.png")
  ∧ ∃ p, res_json (post_register (demo_request "3.4" "pothole-2.png")
                     demo_world1).1
         = success_pothole "Pothole registered successfully" p
       ∧ ¬ exists_report (_id p) demo_world1
       ∧ length (potholes (post_register (demo_request "3.4" "pothole-2.png")
                             demo_world1).2)
         = S (length (potholes demo_world1))
       ∧ res_status (get_id (_id p)
                       (post_register (demo_request "3.4" "pothole-2.png")
                          demo_world1).2).1 = 200%nat
       ∧ fetched (get_id (_id p)
                    (post_register (demo_request "3.4" "pothole-2.png")
                       demo_world1).2).1 = Some p.
Proof.
  assert (Hv : valid_registration (demo_request "3.4" "pothole-2.png")).
  { unfold valid_registration. simpl. repeat split; try reflexivity.
    - by eexists.
    - exists "truck-12". split; [reflexivity | discriminate]. }
  split; [exact demo_world1_reachable|]. split; [exact Hv|].
  exact (register_then_get (demo_request "3.4" "pothole-2.png") demo_world1
           demo_world1_reachable Hv).
Defined.

Lemma find_by_id_replace id p p' l :
  find_by_id id l = Some p → _id p' = id →
  find_by_id id (replace_by_id id p' l) = Some p'.
Proof.
  intros Hf Hid. induction l as [|x l IH]; simpl in *; [discriminate|].
  destruct (decide (_id x = id)) as [E|E]; simpl.
  - destruct (decide (_id p' = id)); [reflexivity | contradiction].
  - destruct (decide (_id x = id)); [contradiction | by apply IH].
Qed.

(** X3: the status of a stored report can be set to any of the three allowed
    values whatever its current status (no transition is excluded): the
    update is answered 200 with the record carrying the requested status, and
    fetching the report afterwards returns that same record. *)
Theorem update_then_get (id : ObjectId) (s : string) (w : World) :
  exists_report id w →
  s ∈ statuses →
  ∃ p', (put_update id (JS.Str s) w).1
        = {| res_status := 200;
             res_json :=
               success_pothole "Pothole status updated successfully" p' |}
      ∧ pothole_status p' = s
      ∧ fetched (get_id id (put_update id (JS.Str s) w).2).1 = Some p'.
Proof.
  intros Hex Hs. apply exists_report_find in Hex as [p Hp].
  destruct (find_by_id_Some _ _ _ Hp) as [_ Hid].
  rewrite (put_update_allowed id s w Hs), Hp. simpl.
  eexists. split; [reflexivity|]. split; [reflexivity|].
  apply get_id_fetched. simpl.
  by apply (find_by_id_replace id p).
Qed.

Lemma update_then_get_witness :
  exists_report 0%nat demo_world1
  ∧ "inprocess" ∈ statuses
  ∧ ∃ p', (put_update 0%nat (JS.Str "inprocess") demo_world1).1
          = {| res_status := 200;
               res_json :=
                 success_pothole "Pothole status updated successfully" p' |}
        ∧ pothole_status p' = "inprocess"
        ∧ fetched (get_id 0%nat
                     (put_update 0%nat (JS.Str "inprocess") demo_world1).2).1
          = Some p'.
Proof.
  assert (Hs : "inprocess" ∈ statuses) by (unfold statuses; repeat constructor).
  split; [exact demo_world1_report|]. split; [exact Hs|].
  exact (update_then_get 0%nat "inprocess" demo_world1 demo_world1_report Hs).
Defined.

Lemma delete_by_id_length id l p :
  find_by_id id l = Some p → S (length (delete_by_id id l)) = length l.
Proof.
  induction l as [|x l IH]; simpl; [discriminate|].
  destruct (decide (_id x = id)); [reflexivity|].
  intros H. simpl. by rewrite IH.
Qed.

Lemma delete_by_id_other id l q :
  q ∈ l → _id q ≠ id → q ∈ delete_by_id id l.
Proof.
  induction l as [|x l IH]; simpl; intros Hq Hne; [inversion Hq|].
  apply elem_of_cons in Hq as [->|Hq].
  - destruct (decide (_id x = id)); [contradiction | left].
  - destruct (decide (_id x = id)); [exact Hq | right; by apply IH].
Qed.

(** X4: in a reachable world, removing an existing report takes exactly that
    one record out of the collection: the count drops by one, every report
    with another id is still stored, fetching the removed id is answered
    "Pothole not found", and so is removing it a second time. *)
Theorem remove_exactly_one (id : ObjectId) (w : World) :
  reachable w →
  exists_report id w →
  S (length (potholes (delete_id id w).2)) = length (potholes w)
  ∧ (∀ q, q ∈ potholes w → _id q ≠ id → q ∈ potholes (delete_id id w).2)
  ∧ (get_id id (delete_id id w).2).1 = not_found
  ∧ (delete_id id (delete_id id w).2).1 = not_found.
Proof.
  intros Hreach Hex. apply exists_report_find in Hex as [p Hp].
  destruct (delete_id_found id w p Hp) as (_ & Hps & _).
  assert (Hgone : find_by_id id (potholes (delete_id id w).2) = None).
  { apply find_by_id_None. rewrite Hps. apply delete_by_id_gone.
    by destruct (reachable_inv w Hreach). }
  rewrite Hps. split; [by apply (delete_by_id_length id _ p)|].
  split; [intros q Hq Hne; by apply delete_by_id_other|].
  split; [by apply get_id_missing|].
  by rewrite (delete_id_missing id _ Hgone).
Qed.

Lemma remove_exactly_one_witness :
  reachable demo_world3
  ∧ exists_report 1%nat demo_world3
  ∧ S (length (potholes (delete_id 1%nat demo_world3).2))
    = length (potholes demo_world3)
  ∧ (∀ q, q ∈ potholes demo_world3 → _id q ≠ 1%nat →
       q ∈ potholes (delete_id 1%nat demo_world3).2)
  ∧ (get_id 1%nat (delete_id 1%nat demo_world3).2).1 = not_found
  ∧ (delete_id 1%nat (delete_id 1%nat demo_world3).2).1 = not_found.
Proof.
  assert (Hex : exists_report 1%nat demo_world3).
  { apply exists_report_find. vm_compute. eexists. reflexivity. }
  split; [exact demo_world3_reachable|]. split; [exact Hex|].
  exact (remove_exactly_one 1%nat demo_world3 demo_world3_reachable Hex).
Defined.

(** ** What stays true of the stored reports *)

Lemma demo_first_stored : demo_first ∈ potholes demo_world1.
Proof. vm_compute. left. Qed.

(** X5: whatever sequence of uploads and requests led to it, the collection
    only holds reports whose status is "pending", "inprocess" or
    "completed". *)
Theorem stored_status_allowed (w : World) (p : Pothole) :
  reachable w → p ∈ potholes w → pothole_status p ∈ statuses.
Proof.
  intros Hreach Hp. destruct (reachable_inv w Hreach) as [Hst _ _ _].
  rewrite Forall_forall in Hst. by apply Hst.
Qed.

Lemma stored_status_allowed_witness :
  reachable demo_world1 ∧ demo_first ∈ potholes demo_world1
  ∧ pothole_status demo_first ∈ statuses.
Proof.
  split; [exact demo_world1_reachable|]. split; [exact demo_first_stored|].
  exact (stored_status_allowed demo_world1 demo_first demo_world1_reachable
           demo_first_stored).
Defined.

(** X6: with a clock that does not run backwards, every stored report has
    createdAt at most updatedAt, after any sequence of registrations, status
    updates and removals. *)
Theorem stored_timestamps_ordered (w : World) (p : Pothole) :
  reachable w → monotone (clock w) → p ∈ potholes w →
  createdAt p ≤ updatedAt p.
Proof.
  intros Hreach Hm Hp. destruct (reachable_inv w Hreach) as [_ Ht _ _].
  rewrite Forall_forall in Ht.
  destruct (Ht p Hp) as (i & j & Hij & _ & -> & ->).
  by apply monotone_le.
Qed.

Lemma stored_timestamps_ordered_witness :
  reachable demo_world1 ∧ monotone (clock demo_world1)
  ∧ demo_first ∈ potholes demo_world1
  ∧ createdAt demo_first ≤ updatedAt demo_first.
Proof.
  split; [exact demo_world1_reachable|]. split; [exact demo_clock_monotone|].
  split; [exact demo_first_stored|].
  exact (stored_timestamps_ordered demo_world1 demo_first
           demo_world1_reachable demo_clock_monotone demo_first_stored).
Defined.

Lemma NoDup_map_id_inj (l : list Pothole) p q :
  NoDup (map _id l) → p ∈ l → q ∈ l → _id p = _id q → p = q.
Proof.
  induction l as [|x l IH]; simpl; intros Hnd Hp Hq Hid; [inversion Hp|].
  apply NoDup_cons in Hnd as [Hx Hnd].
  apply elem_of_cons in Hp as [->|Hp]; apply elem_of_cons in Hq as [->|Hq].
  - reflexivity.
  - exfalso. apply Hx. rewrite Hid. apply list_elem_of_fmap. by exists q.
  - exfalso. apply Hx. rewrite <- Hid. apply list_elem_of_fmap. by exists p.
  - by apply IH.
Qed.

(** X7: ids are never shared: in a reachable world two stored reports with
    the same id are one and the same record, so an id names at most one
    report. *)
Theorem stored_ids_distinct (w : World) (p q : Pothole) :
  reachable w → p ∈ potholes w → q ∈ potholes w → _id p = _id q → p = q.
Proof.
  intros Hreach Hp Hq Hid. destruct (reachable_inv w Hreach) as [_ _ _ Hnd].
  by apply (NoDup_map_id_inj (potholes w)).
Qed.

Lemma stored_ids_distinct_witness :
  reachable demo_world1 ∧ demo_first ∈ potholes demo_world1
  ∧ _id demo_first = _id demo_first ∧ demo_first = demo_first.
Proof.
  split; [exact demo_world1_reachable|]. split; [exact demo_first_stored|].
  split; [reflexivity|].
  exact (stored_ids_distinct demo_world1 demo_first demo_first
           demo_world1_reachable demo_first_stored demo_first_stored eq_refl).
Defined.

(** ** Reading routes *)

(** X8: listing reports and fetching one report never modify anything: the
    collection, the files, the users, the clock readings taken and the next
    id are those of the world before, whether the request succeeds or fails;
    the only trace they leave is of reads ([find], [countDocuments],
    [findById]). *)
Theorem reads_change_nothing (req : ListRequest) (id : ObjectId) (w : World) :
  (∃ t, (get_list req w).2 = with_trace (trace w ++ t) w
        ∧ (t = [DbFind (query_of (query_status req))]
           ∨ t = [DbFind (query_of (query_status req));
                  DbCount (query_of (query_status req))]))
  ∧ (get_id id w).2 = with_trace (trace w ++ [DbFindById id]) w.
Proof.
  split; [|apply get_id_world].
  destruct (Z.lt_ge_cases ((page_of req - 1) * limit_of req) 0) as [H|H].
  - rewrite (get_list_refused req w H). eexists. split; [reflexivity | by left].
  - rewrite (get_list_accepted req w H). eexists. split; [reflexivity | by right].
Qed.

(** X9: with a page size P of at least 1 a page never carries more than P
    reports, totalRecords is the number of matching reports whatever the
    page, and a page is empty exactly when it lies past the last matching
    report ((page - 1) * P is at least the number of matches). *)
Theorem list_page_bounds
    (status : option string) (pageSize page : Z) (w : World) :
  1 ≤ pageSize → 1 ≤ page →
  let r := (get_list {| query_status := status; query_page := Some page;
                        query_limit := Some pageSize |} w).1 in
  let N := length (matching (query_of status) (potholes w)) in
  (length (items r) ≤ Z.to_nat pageSize)%nat
  ∧ total r = N
  ∧ (items r = [] ↔ Z.of_nat N ≤ (page - 1) * pageSize).
Proof.
  intros HP Hpage r N. subst r.
  rewrite get_list_page by (unfold page_of, limit_of; simpl; lia).
  unfold page_of, limit_of, items, total. simpl. rewrite doc_populated.
  fold N.
  assert (HN : length (sort_desc (matching (query_of status) (potholes w))) = N).
  { apply Permutation_length, sort_desc_perm. }
  split; [rewrite length_take; lia|]. split; [reflexivity|].
  rewrite <- length_zero_iff_nil, length_take, length_drop, HN.
  assert (Hk : 0 ≤ (page - 1) * pageSize) by nia.
  revert Hk. generalize ((page - 1) * pageSize). intros k Hk. lia.
Qed.

Lemma list_page_bounds_witness :
  1 ≤ 2 ∧ 1 ≤ 3
  ∧ let r := (get_list {| query_status := None; query_page := Some 3;
                          query_limit := Some 2 |} demo_world3).1 in
    let N := length (matching (query_of None) (potholes demo_world3)) in
    (length (items r) ≤ Z.to_nat 2)%nat
    ∧ total r = N
    ∧ (items r = [] ↔ Z.of_nat N ≤ (3 - 1) * 2).
Proof.
  split; [lia|]. split; [lia|].
  exact (list_page_bounds None 2 3 demo_world3 ltac:(lia) ltac:(lia)).
Defined.

Lemma status_partition (l : list Pothole) :
  Forall (λ p, pothole_status p ∈ statuses) l →
  (length (filter (λ p, pothole_status p = "pending") l)
   + length (filter (λ p, pothole_status p = "inprocess") l)
   + length (filter (λ p, pothole_status p = "completed") l))%nat
  = length l.
Proof.
  induction 1 as [|x l Hx Hl IH]; [reflexivity|].
  rewrite !filter_cons.
  unfold statuses in Hx.
  repeat (apply elem_of_cons in Hx as [Hx|Hx]); [| | |inversion Hx];
    rewrite Hx; repeat case_decide; try discriminate; try contradiction;
    simpl; lia.
Qed.

(** X10: in a reachable world the three status filters split the collection:
    the totalRecords of the lists for "pending", "inprocess" and "completed"
    add up to the totalRecords of the unfiltered list, which is the number of
    stored reports. *)
Theorem totals_by_status (w : World) :
  reachable w →
  let listed status :=
    total (get_list {| query_status := status; query_page := None;
                       query_limit := None |} w).1 in
  (listed (Some "pending") + listed (Some "inprocess")
   + listed (Some "completed"))%nat = listed None
  ∧ listed None = length (potholes w).
Proof.
  intros Hreach listed. subst listed. cbv beta.
  destruct (reachable_inv w Hreach) as [Hst _ _ _].
  rewrite !get_list_accepted by (unfold page_of, limit_of; simpl; lia).
  unfold total. simpl. split; [by apply status_partition | reflexivity].
Qed.

Lemma totals_by_status_witness :
  reachable demo_world3
  ∧ let listed status :=
      total (get_list {| query_status := status; query_page := None;
                         query_limit := None |} demo_world3).1 in
    (listed (Some "pending") + listed (Some "inprocess")
     + listed (Some "completed"))%nat = listed None
    ∧ listed None = length (potholes demo_world3).
Proof.
  split; [exact demo_world3_reachable|].
  exact (totals_by_status demo_world3 demo_world3_reachable).
Defined.

(** ** The order of the list *)

Lemma advancing_lt clk i j : advancing clk → (i < j)%nat → clk i < clk j.
Proof.
  intros Ha Hij. induction Hij as [|j _ IH]; [apply Ha|].
  specialize (Ha j). lia.
Qed.

Lemma sort_desc_newest l p :
  (∀ x, x ∈ l → createdAt x < createdAt p) →
  sort_desc (l ++ [p]) = p :: sort_desc l.
Proof.
  induction l as [|x l IH]; intros Hl; [reflexivity|].
  simpl. rewrite IH by (intros y Hy; apply Hl; by right). simpl.
  assert (Hx : createdAt x < createdAt p) by (apply Hl; left).
  destruct (Z.leb_spec (createdAt p) (createdAt x)); [lia | reflexivity].
Qed.

(** X11: with a clock that advances at every reading, a report just
    registered in a reachable world is the first item of the first page of
    the unfiltered list, whatever page size of at least 1 is asked for. *)
Theorem newest_listed_first
    (req : RegisterRequest) (lreq : ListRequest) (w : World) :
  reachable w →
  advancing (clock w) →
  valid_registration req →
  unfiltered lreq → page_of lreq = 1 → 1 ≤ limit_of lreq →
  ∃ p, res_json (post_register req w).1
       = success_pothole "Pothole registered successfully" p
     ∧ head (items (get_list lreq (post_register req w).2).1) = Some p.
Proof.
  intros Hreach Hadv Hvalid Hunf Hpage Hlimit.
  destruct (reachable_inv w Hreach) as [_ Ht _ _].
  destruct Hvalid as ([file Hf] & Hrest).
  assert (Hv : validate (fields_of req file) = []).
  { apply validate_valid. split; [by eexists | exact Hrest]. }
  exists (registered req file w).
  rewrite (post_register_file req file w Hf), Hv. simpl.
  split; [reflexivity|].
  rewrite get_list_page by lia. unfold items. simpl.
  rewrite doc_populated, (query_of_empty _ Hunf), Hpage. simpl.
  rewrite sort_desc_newest.
  - destruct (Z.to_nat (limit_of lreq)) eqn:E; [lia | reflexivity].
  - intros x Hx. rewrite Forall_forall in Ht.
    destruct (Ht x Hx) as (i & j & Hij & Hj & -> & _). simpl.
    apply advancing_lt; [exact Hadv | lia].
Qed.

Lemma newest_listed_first_witness :
  reachable demo_world1
  ∧ advancing (clock demo_world1)
  ∧ valid_registration (demo_request "3.4" "pothole-2.png")
  ∧ unfiltered {| query_status := None; query_page := None;
                  query_limit := None |}
  ∧ page_of {| query_status := None; query_page := None;
               query_limit := None |} = 1
  ∧ 1 ≤ limit_of {| query_status := None; query_page := None;
                    query_limit := None |}
  ∧ ∃ p, res_json (post_register (demo_request "3.4" "pothole-2.png")
                     demo_world1).1
         = success_pothole "Pothole registered successfully" p
       ∧ head (items (get_list {| query_status := None; query_page := None;
                                  query_limit := None |}
                        (post_register (demo_request "3.4" "pothole-2.png")
                           demo_world1).2).1) = Some p.
Proof.
  assert (Hv : valid_registration (demo_request "3.4" "pothole-2.png")).
  { unfold valid_registration. simpl. repeat split; try reflexivity.
    - by eexists.
    - exists "truck-12". split; [reflexivity | discriminate]. }
  assert (Ha : advancing (clock demo_world1)).
  { intros n. simpl. unfold demo_clock. lia. }
  assert (Hu : unfiltered {| query_status := None; query_page := None;
                             query_limit := None |}) by (by left).
  assert (Hl : 1 ≤ limit_of {| query_status := None; query_page := None;
                               query_limit := None |})
    by (unfold limit_of; simpl; lia).
  split; [exact demo_world1_reachable|]. split; [exact Ha|].
  split; [exact Hv|]. split; [exact Hu|]. split; [reflexivity|].
  split; [exact Hl|].
  exact (newest_listed_first (demo_request "3.4" "pothole-2.png")
           {| query_status := None; query_page := None; query_limit := None |}
           demo_world1 demo_world1_reachable Ha Hv Hu eq_refl Hl).
Defined.

Lemma insert_desc_same_key a b l l' :
  same_key a b → Forall2 same_key l l' →
  Forall2 same_key (insert_desc a l) (insert_desc b l').
Proof.
  intros [Hid Hc] Hl. induction Hl as [|x y l l' [Hxy Hcxy] Hl IH]; simpl.
  - repeat constructor; assumption.
  - rewrite Hc, Hcxy. destruct (createdAt y <=? createdAt b).
    + constructor; [by split|]. constructor; [by split | exact Hl].
    + constructor; [by split | exact IH].
Qed.

Lemma sort_desc_same_key l l' :
  Forall2 same_key l l' → Forall2 same_key (sort_desc l) (sort_desc l').
Proof.
  induction 1 as [|x y l l' Hxy Hl IH]; simpl; [constructor|].
  by apply insert_desc_same_key.
Qed.

Lemma replace_same_key id p p' l :
  find_by_id id l = Some p → same_key p' p →
  Forall2 same_key (replace_by_id id p' l) l.
Proof.
  intros Hf Hk.
  assert (Hrefl : ∀ l0 : list Pothole, Forall2 same_key l0 l0).
  { induction l0; constructor; [by split | assumption]. }
  induction l as [|x l IH]; simpl in *; [discriminate|].
  destruct (decide (_id x = id)).
  - inversion Hf; subst. constructor; [exact Hk | apply Hrefl].
  - constructor; [by split | by apply IH].
Qed.

Lemma same_key_ids l l' : Forall2 same_key l l' → map _id l = map _id l'.
Proof.
  induction 1 as [|x y l l' [Hid _] Hl IH]; simpl; congruence.
Qed.

Lemma window_same_key page P l l' :
  Forall2 same_key l l' →
  Forall2 same_key (window page P l) (window page P l').
Proof.
  intros Hl. unfold window, apply_limit, apply_skip.
  destruct (_ =? 0).
  - by apply Forall2_drop.
  - by apply Forall2_take, Forall2_drop.
Qed.

Lemma same_key_createdAt l l' :
  Forall2 same_key l l' → map createdAt l = map createdAt l'.
Proof.
  induction 1 as [|x y l l' [_ Hc] Hl IH]; simpl; congruence.
Qed.

(** With ties kept in insertion order, an update moves no report. *)
Lemma update_keeps_stable_order
    (id : ObjectId) (s : string) (lreq : ListRequest) (w : World) :
  exists_report id w →
  s ∈ statuses →
  unfiltered lreq →
  map _id (items (get_list lreq (put_update id (JS.Str s) w).2).1)
  = map _id (items (get_list lreq w).1)
  ∧ total (get_list lreq (put_update id (JS.Str s) w).2).1
    = total (get_list lreq w).1
  ∧ res_status (get_list lreq (put_update id (JS.Str s) w).2).1
    = res_status (get_list lreq w).1.
Proof.
  intros Hex Hs Hunf. apply exists_report_find in Hex as [p Hp].
  rewrite (put_update_allowed id s w Hs), Hp. simpl.
  set (p' := with_updatedAt (clock w (ticks w)) (with_status s p)).
  assert (Hk : Forall2 same_key (replace_by_id id p' (potholes w)) (potholes w)).
  { apply (replace_same_key id p); [exact Hp | by split]. }
  destruct (Z.lt_ge_cases ((page_of lreq - 1) * limit_of lreq) 0) as [H|H].
  - rewrite !(get_list_refused lreq _ H). done.
  - rewrite !(get_list_accepted lreq _ H). unfold items, total. simpl.
    rewrite !doc_populated, (query_of_empty _ Hunf). simpl.
    split; [|split; [|reflexivity]].
    + by apply same_key_ids, window_same_key, sort_desc_same_key.
    + by apply Forall2_length in Hk.
Qed.

(** X12: a status update does not reorder the list.  When the stored
    reports have pairwise distinct createdAt, then after a successful update
    every unfiltered list request returns the same report ids in the same
    order as it did before, with the same status code and the same
    totalRecords, whatever order the database gives to reports of equal
    createdAt in the query before and in the query after. *)
Theorem update_keeps_list_order
    (id : ObjectId) (s : string) (lreq : ListRequest)
    (before after : list Pothole → list Pothole) (w : World) :
  sorts before → sorts after →
  NoDup (map createdAt (potholes w)) →
  exists_report id w →
  s ∈ statuses →
  unfiltered lreq →
  map _id (items (get_list_by after lreq (put_update id (JS.Str s) w).2).1)
  = map _id (items (get_list_by before lreq w).1)
  ∧ total (get_list_by after lreq (put_update id (JS.Str s) w).2).1
    = total (get_list_by before lreq w).1
  ∧ res_status (get_list_by after lreq (put_update id (JS.Str s) w).2).1
    = res_status (get_list_by before lreq w).1.
Proof.
  intros Hb Ha Hnd Hex Hs Hunf.
  pose proof (query_of_empty _ Hunf) as Hq.
  assert (Hnd' : NoDup (map createdAt
                          (potholes (put_update id (JS.Str s) w).2))).
  { pose proof Hex as Hex'. apply exists_report_find in Hex' as [p Hp].
    rewrite (put_update_allowed id s w Hs), Hp. simpl.
    rewrite (same_key_createdAt _ (potholes w)); [exact Hnd|].
    apply (replace_same_key id p); [exact Hp | by split]. }
  rewrite (get_list_by_stable after lreq _ Ha) by (by rewrite Hq).
  rewrite (get_list_by_stable before lreq w Hb) by (by rewrite Hq).
  by apply update_keeps_stable_order.
Qed.

Lemma update_keeps_list_order_witness :
  sorts sort_desc
  ∧ sorts sort_desc_rev
  ∧ NoDup (map createdAt (potholes demo_world3))
  ∧ exists_report 1%nat demo_world3
  ∧ "completed" ∈ statuses
  ∧ unfiltered {| query_status := None; query_page := None;
                  query_limit := None |}
  ∧ map _id (items (get_list_by sort_desc_rev
                      {| query_status := None; query_page := None;
                         query_limit := None |}
                      (put_update 1%nat (JS.Str "completed") demo_world3).2).1)
    = map _id (items (get_list_by sort_desc
                        {| query_status := None; query_page := None;
                           query_limit := None |} demo_world3).1)
  ∧ total (get_list_by sort_desc_rev
             {| query_status := None; query_page := None;
                query_limit := None |}
             (put_update 1%nat (JS.Str "completed") demo_world3).2).1
    = total (get_list_by sort_desc
               {| query_status := None; query_page := None;
                  query_limit := None |} demo_world3).1
  ∧ res_status (get_list_by sort_desc_rev
                  {| query_status := None; query_page := None;
                     query_limit := None |}
                  (put_update 1%nat (JS.Str "completed") demo_world3).2).1
    = res_status (get_list_by sort_desc
                    {| query_status := None; query_page := None;
                       query_limit := None |} demo_world3).1.
Proof.
  assert (Hs : "completed" ∈ statuses) by (unfold statuses; repeat constructor).
  assert (Hex : exists_report 1%nat demo_world3).
  { apply exists_report_find. vm_compute. eexists. reflexivity. }
  assert (Hu : unfiltered {| query_status := None; query_page := None;
                             query_limit := None |}) by (by left).
  split; [exact sort_desc_sorts|]. split; [exact sort_desc_rev_sorts|].
  split; [exact demo_world3_distinct|].
  split; [exact Hex|]. split; [exact Hs|]. split; [exact Hu|].
  exact (update_keeps_list_order 1%nat "completed"
           {| query_status := None; query_page := None; query_limit := None |}
           sort_desc sort_desc_rev demo_world3
           sort_desc_sorts sort_desc_rev_sorts demo_world3_distinct
           Hex Hs Hu).
Defined.

(** ** Numeric fields that start with a digit *)

Lemma digit_cases c :
  JS.is_digit c = true →
  c ∈ ["0"; "1"; "2"; "3"; "4"; "5"; "6"; "7"; "8"; "9"]%char.
Proof.
  destruct c as [[] [] [] [] [] [] [] []]; intros H; cbv in H;
    try discriminate H; repeat constructor.
Qed.

Lemma digits_count s acc n : (n ≤ (JS.digits s acc n).1.2)%nat.
Proof.
  revert acc n. induction s as [|c s IH]; intros acc n; simpl; [lia|].
  destruct (JS.is_digit c); simpl; [|lia].
  specialize (IH (10 * acc + JS.digit_val c) (S n)). lia.
Qed.

Lemma unsigned_literal_digits s ip n1 r1 :
  JS.strip_prefix "Infinity" s = None →
  JS.digits s 0 0%nat = (ip, n1, r1) → (1 ≤ n1)%nat →
  JS.isNaN (JS.unsigned_literal s) = false.
Proof.
  intros Hinf Hd Hn. unfold JS.unsigned_literal. rewrite Hinf, Hd.
  repeat match goal with
         | |- context [match ?X with _ => _ end] => destruct X eqn:?
         end; try reflexivity;
    match goal with
    | H : (_ =? 0)%nat = true |- _ => apply Nat.eqb_eq in H; lia
    end.
Qed.

Ltac each_digit H :=
  apply digit_cases in H;
  repeat (apply elem_of_cons in H as [->|H]); [..|inversion H].

Lemma trimStart_digit c r :
  JS.is_digit c = true → JS.trimStart (String c r) = String c r.
Proof. intros H. each_digit H; destruct r as [|b [|d r']]; reflexivity. Qed.

Lemma sign_digit c r :
  JS.is_digit c = true → JS.sign (String c r) = (false, String c r).
Proof. intros H. each_digit H; reflexivity. Qed.

Lemma strip_Infinity_digit c r :
  JS.is_digit c = true → JS.strip_prefix "Infinity" (String c r) = None.
Proof. intros H. each_digit H; reflexivity. Qed.

Lemma parseFloat_leading_digit c r :
  JS.is_digit c = true →
  JS.isNaN (JS.parseFloat (Some (String c r))) = false.
Proof.
  intros H. unfold JS.parseFloat, JS.ToString.
  rewrite (trimStart_digit c r H), (sign_digit c r H).
  destruct (JS.digits (String c r) 0 0%nat) as [[ip n1] r1] eqn:Hd.
  apply (unsigned_literal_digits (String c r) ip n1 r1);
    [by apply strip_Infinity_digit | exact Hd |].
  simpl in Hd. rewrite H in Hd.
  pose proof (digits_count r (10 * 0 + JS.digit_val c) 1%nat) as Hc.
  rewrite Hd in Hc. exact Hc.
Qed.

(** X13: numeric fields are read permissively.  A registration with an
    image, a non-empty vehicle name and numeric fields that each merely start
    with a decimal digit (whatever text follows the number) is accepted: it is
    answered 201 and stores one more report. *)
Theorem leading_digit_fields_accepted (req : RegisterRequest) (w : World) :
  is_Some (req_file req) →
  starts_with_digit (body_distance req) →
  starts_with_digit (body_longitude req) →
  starts_with_digit (body_latitude req) →
  starts_with_digit (body_vehicle_ground_level req) →
  (∃ v, body_vehicle_name req = Some v ∧ v ≠ "") →
  res_status (post_register req w).1 = 201%nat
  ∧ length (potholes (post_register req w).2) = S (length (potholes w)).
Proof.
  intros [file Hf] (c1 & r1 & H1 & D1) (c2 & r2 & H2 & D2)
         (c3 & r3 & H3 & D3) (c4 & r4 & H4 & D4) Hname.
  assert (Hvalid : valid_registration req).
  { unfold valid_registration. rewrite H1, H2, H3, H4.
    repeat split; try (by apply parseFloat_leading_digit);
      [by eexists | exact Hname]. }
  rewrite (post_register_file req file w Hf), (validate_valid req file Hvalid).
  simpl. rewrite length_app. simpl. split; [reflexivity | lia].
Qed.

Lemma leading_digit_fields_accepted_witness :
  is_Some (req_file (demo_request "12abc" "pothole-9.png"))
  ∧ starts_with_digit (body_distance (demo_request "12abc" "pothole-9.png"))
  ∧ starts_with_digit (body_longitude (demo_request "12abc" "pothole-9.png"))
  ∧ starts_with_digit (body_latitude (demo_request "12abc" "pothole-9.png"))
  ∧ starts_with_digit
      (body_vehicle_ground_level (demo_request "12abc" "pothole-9.png"))
  ∧ (∃ v, body_vehicle_name (demo_request "12abc" "pothole-9.png") = Some v
          ∧ v ≠ "")
  ∧ res_status (post_register (demo_request "12abc" "pothole-9.png")
                  demo_world1).1 = 201%nat
  ∧ length (potholes (post_register (demo_request "12abc" "pothole-9.png")
                        demo_world1).2)
    = S (length (potholes demo_world1)).
Proof.
  assert (H0 : is_Some (req_file (demo_request "12abc" "pothole-9.png")))
    by (by eexists).
  assert (H1 : starts_with_digit
                 (body_distance (demo_request "12abc" "pothole-9.png")))
    by (eexists _, _; split; reflexivity).
  assert (H2 : starts_with_digit
                 (body_longitude (demo_request "12abc" "pothole-9.png")))
    by (eexists _, _; split; reflexivity).
  assert (H3 : starts_with_digit
                 (body_latitude (demo_request "12abc" "pothole-9.png")))
    by (eexists _, _; split; reflexivity).
  assert (H4 : starts_with_digit
                 (body_vehicle_ground_level
                    (demo_request "12abc" "pothole-9.png")))
    by (eexists _, _; split; reflexivity).
  assert (H5 : ∃ v, body_vehicle_name (demo_request "12abc" "pothole-9.png")
                    = Some v ∧ v ≠ "").
  { exists "truck-12". split; [reflexivity | discriminate]. }
  repeat (split; [assumption|]).
  exact (leading_digit_fields_accepted (demo_request "12abc" "pothole-9.png")
           demo_world1 H0 H1 H2 H3 H4 H5).
Defined.

Example register_12abc :
  (match res_json (post_register (demo_request "12abc" "pothole-9.png")
                     demo_world1).1 with
   | success_pothole _ p => Some (distance p)
   | _ => None
   end) = Some (JS.of_Z 12).
Proof. reflexivity. Qed.

(** * Properties of the upload *)

(** ** Strings and their characters *)

Lemma str_app_nil_r s : s +:+ "" = s.
Proof.
  induction s as [|c s IH]; [reflexivity|].
  change (String c (s +:+ "") = String c s). by rewrite IH.
Qed.

Lemma str_app_assoc s t u : (s +:+ t) +:+ u = s +:+ (t +:+ u).
Proof.
  induction s as [|c s IH]; [reflexivity|].
  change (String c ((s +:+ t) +:+ u) = String c (s +:+ (t +:+ u))).
  by rewrite IH.
Qed.

Lemma str_app_inj_l s a b : s +:+ a = s +:+ b → a = b.
Proof.
  induction s as [|c s IH]; intros H; [exact H|].
  apply IH. by injection H.
Qed.

Lemma chars_app s t : chars (s +:+ t) = chars s ++ chars t.
Proof.
  induction s as [|c s IH]; [reflexivity|].
  change (c :: chars (s +:+ t) = c :: (chars s ++ chars t)). by rewrite IH.
Qed.

Lemma chars_nil s : chars s = [] → s = "".
Proof. destruct s; [reflexivity | discriminate]. Qed.

Lemma all_digits_plain s : all_digits s → plain s.
Proof.
  intros H. unfold all_digits in H. rewrite Forall_forall in H.
  split; intros Hin; specialize (H _ Hin); discriminate H.
Qed.

Lemma plain_app s t : plain s → plain t → plain (s +:+ t).
Proof.
  intros [H1 H2] [H3 H4]. unfold plain. rewrite chars_app.
  split; intros H; apply elem_of_app in H as [H|H]; contradiction.
Qed.

(** ** Integers as decimal strings *)

Lemma uint_digits d : all_digits (NilEmpty.string_of_uint d).
Proof. induction d; simpl; constructor; try reflexivity; assumption. Qed.

Lemma uint_digits_zero d : all_digits (NilZero.string_of_uint d).
Proof.
  destruct d; try apply (uint_digits (_ _)).
  repeat constructor.
Qed.

Lemma Number_toString_digits z : 0 ≤ z → all_digits (JS.Number_toString z).
Proof.
  intros Hz. unfold JS.Number_toString.
  destruct z as [|p|p]; try lia; apply uint_digits_zero.
Qed.

Lemma Number_toString_plain z : plain (JS.Number_toString z).
Proof.
  unfold JS.Number_toString. destruct z as [|p|p]; simpl.
  - apply all_digits_plain. repeat constructor.
  - apply all_digits_plain, uint_digits_zero.
  - pose proof (all_digits_plain _ (uint_digits_zero (Pos.to_uint p)))
      as [H1 H2].
    split; intros H; apply elem_of_cons in H as [H|H];
      try discriminate H; contradiction.
Qed.

Lemma Number_toString_inj z1 z2 :
  JS.Number_toString z1 = JS.Number_toString z2 → z1 = z2.
Proof.
  assert (Hnn : ∀ z, Z.to_int z ≠ Decimal.Pos Decimal.Nil
                     ∧ Z.to_int z ≠ Decimal.Neg Decimal.Nil).
  { intros [|p|p]; simpl; split; try discriminate; intros H; injection H;
      apply DecimalPos.Unsigned.to_uint_nonnil. }
  intros H. unfold JS.Number_toString in H.
  apply (f_equal NilZero.int_of_string) in H.
  destruct (Hnn z1) as [H1 H1'], (Hnn z2) as [H2 H2'].
  rewrite !NilZero.isi in H by assumption. injection H as H.
  apply (f_equal Z.of_int) in H. by rewrite !DecimalZ.of_to in H.
Qed.

Lemma digit_run_inj a b x y :
  all_digits a → all_digits b → no_digit_head x → no_digit_head y →
  a +:+ x = b +:+ y → a = b ∧ x = y.
Proof.
  revert b. induction a as [|c a IH]; intros b Ha Hb Hx Hy H.
  - destruct b as [|d b]; [done|]. exfalso.
    change (x = String d (b +:+ y)) in H. subst x. simpl in Hx.
    inversion Hb; subst. congruence.
  - destruct b as [|d b].
    + exfalso. change (String c (a +:+ x) = y) in H. subst y. simpl in Hy.
      inversion Ha; subst. congruence.
    + change (String c (a +:+ x) = String d (b +:+ y)) in H.
      injection H as -> H. inversion Ha; inversion Hb; subst.
      destruct (IH b) as [-> ->]; done.
Qed.

(** ** Path components and extensions *)

Lemma segments_nonempty s : Path.segments s ≠ [].
Proof.
  destruct s as [|c s]; simpl; [discriminate|].
  destruct (Ascii.eqb c "/"); [discriminate|].
  destruct (Path.segments s); discriminate.
Qed.

Lemma segments_plain s : "/"%char ∉ chars s → Path.segments s = [s].
Proof.
  induction s as [|c s IH]; intros H; [reflexivity|]. simpl in *.
  apply not_elem_of_cons in H as [Hc Hs].
  destruct (Ascii.eqb_spec c "/"); [congruence|].
  by rewrite (IH Hs).
Qed.

Lemma segments_app s t :
  Path.segments (s +:+ String "/" t) = Path.segments s ++ Path.segments t.
Proof.
  induction s as [|c s IH]; [reflexivity|].
  change (Path.segments (String c (s +:+ String "/" t))
          = Path.segments (String c s) ++ Path.segments t).
  simpl. rewrite IH. destruct (Ascii.eqb c "/"); [reflexivity|].
  pose proof (segments_nonempty s) as Hne.
  destruct (Path.segments s); [contradiction | reflexivity].
Qed.

Lemma segments_chars s x c :
  x ∈ Path.segments s → c ∈ chars x → c ∈ chars s ∧ c ≠ "/"%char.
Proof.
  revert x. induction s as [|a s IH]; intros x Hx Hc; simpl in Hx.
  - apply list_elem_of_singleton in Hx. subst x. inversion Hc.
  - destruct (Ascii.eqb_spec a "/") as [->|Hne].
    + apply elem_of_cons in Hx as [->|Hx]; [inversion Hc|].
      destruct (IH x Hx Hc). split; [by right | assumption].
    + pose proof (segments_nonempty s) as Hn.
      destruct (Path.segments s) as [|seg rest] eqn:E; [contradiction|].
      apply elem_of_cons in Hx as [->|Hx].
      * simpl in Hc. apply elem_of_cons in Hc as [->|Hc].
        -- split; [left | assumption].
        -- destruct (IH seg ltac:(left) Hc). split; [by right | assumption].
      * destruct (IH x ltac:(by right) Hc). split; [by right | assumption].
Qed.

Lemma last_component_plain s :
  s ≠ "" → "/"%char ∉ chars s → Path.last_component s = s.
Proof.
  intros Hne Hs. unfold Path.last_component.
  rewrite (segments_plain s Hs), filter_cons_True by exact Hne.
  reflexivity.
Qed.

Lemma last_component_chars p c :
  c ∈ chars (Path.last_component p) → c ∈ chars p ∧ c ≠ "/"%char.
Proof.
  unfold Path.last_component.
  destruct (last (filter (λ s, s ≠ "") (Path.segments p))) as [x|] eqn:E;
    simpl; [|intros H; inversion H].
  intros Hc. apply last_Some in E as [l' E].
  assert (Hx : x ∈ filter (λ s, s ≠ "") (Path.segments p)).
  { rewrite E. apply elem_of_app. right. left. }
  apply list_elem_of_filter in Hx as [_ Hx].
  by apply (segments_chars p x).
Qed.

Lemma split_ext_None s : Path.split_ext s = None ↔ "."%char ∉ chars s.
Proof.
  induction s as [|c s IH]; simpl.
  - split; [intros _ H; inversion H | reflexivity].
  - destruct (Path.split_ext s) as [[pre ext]|].
    + split; [discriminate|]. intros H. exfalso.
      apply not_elem_of_cons in H as [_ H]. apply IH in H. discriminate.
    + destruct (Ascii.eqb_spec c ".") as [->|Hne].
      * split; [discriminate|]. intros H. exfalso. apply H. left.
      * split; [|reflexivity]. intros _ H.
        apply elem_of_cons in H as [Heq|H]; [congruence|].
        exact (proj1 IH eq_refl H).
Qed.

Lemma split_ext_Some s pre ext :
  Path.split_ext s = Some (pre, ext) →
  s = pre +:+ ext ∧ ∃ e, ext = String "." e ∧ "."%char ∉ chars e.
Proof.
  revert pre. induction s as [|c s IH]; intros pre H; simpl in H;
    [discriminate|].
  destruct (Path.split_ext s) as [[pre' ext']|] eqn:E.
  - injection H as <- <-. destruct (IH pre' eq_refl) as [-> He].
    split; [reflexivity | exact He].
  - destruct (Ascii.eqb_spec c ".") as [->|Hne]; [|discriminate].
    injection H as <- <-. split; [reflexivity|].
    exists s. split; [reflexivity | by apply split_ext_None].
Qed.

Lemma split_ext_app pre e :
  "."%char ∉ chars e →
  Path.split_ext (pre +:+ String "." e) = Some (pre, String "." e).
Proof.
  intros He. induction pre as [|c pre IH].
  - change (Path.split_ext (String "." e) = Some ("", String "." e)).
    simpl. by rewrite (proj2 (split_ext_None e) He).
  - change (Path.split_ext (String c (pre +:+ String "." e))
            = Some (String c pre, String "." e)).
    simpl. by rewrite IH.
Qed.

Lemma extname_shape p :
  Path.extname p = "" ∨ ∃ e, Path.extname p = String "." e ∧ plain e.
Proof.
  unfold Path.extname.
  destruct (Path.split_ext (Path.last_component p)) as [[pre ext]|] eqn:E;
    [|by left].
  destruct (_ || _)%bool; [by left|]. right.
  destruct (split_ext_Some _ _ _ E) as [Hbase (e & -> & He)].
  exists e. split; [reflexivity|]. split; [|exact He].
  intros Hc.
  assert (Hin : "/"%char ∈ chars (Path.last_component p)).
  { rewrite Hbase, chars_app. apply elem_of_app. right. by right. }
  by destruct (last_component_chars p _ Hin).
Qed.

Lemma extname_no_digit_head p : no_digit_head (Path.extname p).
Proof.
  destruct (extname_shape p) as [->|(e & -> & _)]; [exact I | reflexivity].
Qed.

Lemma extname_plain s : plain s → Path.extname s = "".
Proof.
  intros [Hs Hd]. unfold Path.extname.
  assert (Hn : Path.split_ext (Path.last_component s) = None).
  { apply split_ext_None. intros H.
    destruct (last_component_chars s _ H). contradiction. }
  by rewrite Hn.
Qed.

Lemma extname_stem stem e :
  stem ≠ "" → plain stem → plain e →
  Path.extname (stem +:+ String "." e) = String "." e.
Proof.
  intros Hne [Hs Hd] [Hes Hed]. unfold Path.extname.
  assert (Hbase : Path.last_component (stem +:+ String "." e)
                  = stem +:+ String "." e).
  { apply last_component_plain.
    - destruct stem; [contradiction | discriminate].
    - rewrite chars_app. intros H. apply elem_of_app in H as [H|H];
        [contradiction|].
      apply elem_of_cons in H as [H|H]; [discriminate | contradiction]. }
  rewrite Hbase, (split_ext_app stem e Hed).
  destruct (String.eqb_spec stem ""); [contradiction|]. simpl.
  destruct (String.eqb_spec (stem +:+ String "." e) "..") as [Heq|];
    [|reflexivity].
  exfalso. destruct stem as [|c stem]; [contradiction|].
  injection Heq as -> _. apply Hd. left.
Qed.

(** ** The name a stored image is given *)

Lemma storage_filename_stem now random file :
  storage_filename now random file
  = unique_stem now random +:+ Path.extname (originalname file).
Proof.
  unfold storage_filename, unique_stem.
  by rewrite <- !str_app_assoc.
Qed.

Lemma unique_stem_plain now random :
  plain (unique_stem now random) ∧ ∃ rest, unique_stem now random
                                           = String "p" rest.
Proof.
  unfold unique_stem. split; [|by eexists].
  apply plain_app; [|apply plain_app; [apply Number_toString_plain|]].
  - split; intros H; repeat (apply elem_of_cons in H as [H|H];
                             [discriminate H|]); inversion H.
  - apply plain_app; [|apply Number_toString_plain].
    split; intros H; repeat (apply elem_of_cons in H as [H|H];
                             [discriminate H|]); inversion H.
Qed.

Lemma storage_filename_entry now random file :
  entry_name (storage_filename now random file).
Proof.
  rewrite storage_filename_stem.
  destruct (unique_stem_plain now random) as [[Hs Hd] [rest Hrest]].
  destruct (extname_shape (originalname file)) as [->|(e & -> & [Hes Hed])].
  - rewrite str_app_nil_r. rewrite Hrest. repeat split; try discriminate.
    rewrite <- Hrest. exact Hs.
  - rewrite Hrest. repeat split; try discriminate.
    rewrite <- Hrest, chars_app. intros H.
    apply elem_of_app in H as [H|H]; [contradiction|].
    apply elem_of_cons in H as [H|H]; [discriminate | contradiction].
Qed.

(** X14: whatever original name the client sent (path separators and dots
    included), the name under which an image is stored starts with
    "pothole-", is a single path component (not empty, not "." or "..", no
    separator), and has exactly the extension of the original name. *)
Theorem storage_filename_shape (now random : Z) (file : Upload) :
  (∃ rest, storage_filename now random file = "pothole-" +:+ rest)
  ∧ entry_name (storage_filename now random file)
  ∧ Path.extname (storage_filename now random file)
    = Path.extname (originalname file).
Proof.
  split; [unfold storage_filename; by eexists|].
  split; [apply storage_filename_entry|].
  rewrite storage_filename_stem.
  destruct (unique_stem_plain now random) as [[Hs Hd] [rest Hrest]].
  assert (Hne : unique_stem now random ≠ "") by (rewrite Hrest; discriminate).
  destruct (extname_shape (originalname file)) as [->|(e & -> & [Hes Hed])].
  - rewrite str_app_nil_r. by apply extname_plain.
  - by apply extname_stem.
Qed.

(** X15: two uploads are stored under the same name only if they were named
    at the same clock reading, drew the same random suffix and have the same
    extension; uploads that differ in the reading or in the suffix never
    collide. *)
Theorem storage_filename_inj
    (now1 random1 now2 random2 : Z) (file1 file2 : Upload) :
  0 ≤ now1 → 0 ≤ random1 → 0 ≤ now2 → 0 ≤ random2 →
  storage_filename now1 random1 file1 = storage_filename now2 random2 file2 →
  now1 = now2 ∧ random1 = random2
  ∧ Path.extname (originalname file1) = Path.extname (originalname file2).
Proof.
  intros Hn1 Hr1 Hn2 Hr2 H. unfold storage_filename in H.
  apply str_app_inj_l in H. rewrite !str_app_assoc in H.
  apply digit_run_inj in H as [Hnow H];
    [| by apply Number_toString_digits | by apply Number_toString_digits
     | reflexivity | reflexivity].
  change (String "-" (JS.Number_toString random1
                        +:+ Path.extname (originalname file1))
          = String "-" (JS.Number_toString random2
                          +:+ Path.extname (originalname file2))) in H.
  injection H as H.
  apply digit_run_inj in H as [Hrandom Hext];
    [| by apply Number_toString_digits | by apply Number_toString_digits
     | apply extname_no_digit_head | apply extname_no_digit_head].
  split; [by apply Number_toString_inj|].
  split; [by apply Number_toString_inj | exact Hext].
Qed.

Lemma storage_filename_inj_witness :
  0 ≤ 1000 ∧ 0 ≤ 42 ∧ 0 ≤ 1000 ∧ 0 ≤ 42
  ∧ storage_filename 1000 42
      {| originalname := "road.png"; mimetype := "image/png"; size := 10 |}
    = storage_filename 1000 42
        {| originalname := "a/b.c.png"; mimetype := "image/png"; size := 99 |}
  ∧ 1000 = 1000 ∧ 42 = 42
  ∧ Path.extname
      (originalname
         {| originalname := "road.png"; mimetype := "image/png"; size := 10 |})
    = Path.extname
        (originalname
           {| originalname := "a/b.c.png"; mimetype := "image/png";
              size := 99 |}).
Proof.
  repeat (split; [lia|]). split; [reflexivity|].
  exact (storage_filename_inj 1000 42 1000 42
           {| originalname := "road.png"; mimetype := "image/png"; size := 10 |}
           {| originalname := "a/b.c.png"; mimetype := "image/png";
              size := 99 |}
           ltac:(lia) ltac:(lia) ltac:(lia) ltac:(lia) eq_refl).
Defined.

Example storage_filename_traversal :
  storage_filename 1700000000000 123456789
    {| originalname := "../../road.JPG"; mimetype := "image/jpeg"; size := 10 |}
  = "pothole-1700000000000-123456789.JPG".
Proof. reflexivity. Qed.

(** ** Where an image is stored and where it is looked for *)

Lemma resolve_stack absolute segs stack :
  Path.resolve absolute segs stack = rev (stack_after absolute segs stack).
Proof.
  revert stack. induction segs as [|seg rest IH]; intros stack; simpl;
    [reflexivity|].
  destruct (_ || _)%bool; [apply IH|].
  destruct (String.eqb seg ".."); [|apply IH].
  destruct stack as [|top below]; [destruct absolute; apply IH|].
  destruct (String.eqb top ".."); apply IH.
Qed.

Lemma stack_after_app absolute l1 l2 stack :
  stack_after absolute (l1 ++ l2) stack
  = stack_after absolute l2 (stack_after absolute l1 stack).
Proof.
  revert stack. induction l1 as [|seg rest IH]; intros stack; simpl;
    [reflexivity|].
  destruct (_ || _)%bool; [apply IH|].
  destruct (String.eqb seg ".."); [|apply IH].
  destruct stack as [|top below]; [destruct absolute; apply IH|].
  destruct (String.eqb top ".."); apply IH.
Qed.

Lemma stack_after_entry absolute name stack :
  entry_name name →
  stack_after absolute [name] stack = name :: stack.
Proof.
  intros (H1 & H2 & H3 & _). simpl.
  destruct (String.eqb_spec name ""); [contradiction|].
  destruct (String.eqb_spec name "."); [contradiction|].
  destruct (String.eqb_spec name ".."); [contradiction | reflexivity].
Qed.

Lemma stack_after_entries absolute names stack :
  Forall entry_name names →
  stack_after absolute names stack = rev names ++ stack.
Proof.
  intros H. revert stack. induction H as [|x l Hx Hl IH]; intros stack;
    [reflexivity|].
  change (x :: l) with ([x] ++ l).
  rewrite stack_after_app, (stack_after_entry _ _ _ Hx), IH. simpl.
  by rewrite <- app_assoc.
Qed.

Lemma stack_after_ups (n m : nat) :
  (0 < n + m)%nat →
  stack_after false (replicate n "..") (replicate m "..")
  = replicate (n + m) "..".
Proof.
  revert m. induction n as [|n IH]; intros m Hnm; [reflexivity|].
  destruct m as [|m].
  - specialize (IH 1%nat ltac:(lia)).
    change (stack_after false (replicate n "..") (replicate 1 "..")
            = replicate (S n + 0) "..").
    rewrite IH. f_equal. lia.
  - specialize (IH (S (S m)) ltac:(lia)).
    change (stack_after false (replicate n "..") (replicate (S (S m)) "..")
            = replicate (S n + S m) "..").
    rewrite IH. f_equal. lia.
Qed.

Lemma rev_replicate (n : nat) (x : string) : rev (replicate n x) = replicate n x.
Proof.
  induction n as [|n IH]; [reflexivity|]. simpl. rewrite IH.
  clear IH. induction n as [|n IH]; [reflexivity|]. simpl. by rewrite IH.
Qed.

(** Resolving an already resolved path changes nothing. *)
Lemma stack_after_rev_clean absolute stack :
  clean_stack absolute stack →
  stack_after absolute (rev stack) [] = stack.
Proof.
  intros (names & ups & -> & Hnames & Habs).
  rewrite rev_app_distr, rev_replicate, stack_after_app.
  assert (Hups : stack_after absolute (replicate ups "..") []
                 = replicate ups "..").
  { destruct ups as [|k]; [reflexivity|].
    destruct absolute; [specialize (Habs eq_refl); discriminate|].
    change (@nil string) with (replicate 0 "..").
    rewrite stack_after_ups by lia. f_equal. lia. }
  rewrite Hups, stack_after_entries, rev_involutive; [reflexivity|].
  by apply Forall_rev.
Qed.

Lemma clean_stack_push absolute name stack :
  entry_name name → clean_stack absolute stack →
  clean_stack absolute (name :: stack).
Proof.
  intros Hn (names & ups & -> & Hnames & Habs).
  exists (name :: names), ups. repeat split; try assumption.
  by constructor.
Qed.

Lemma stack_after_clean absolute segs stack :
  Forall (λ s, "/"%char ∉ chars s) segs →
  clean_stack absolute stack →
  clean_stack absolute (stack_after absolute segs stack).
Proof.
  intros Hsegs. revert stack.
  induction Hsegs as [|seg rest Hseg Hrest IH]; intros stack Hst;
    [exact Hst|].
  simpl.
  destruct (String.eqb_spec seg "") as [->|H1]; [by apply IH|].
  destruct (String.eqb_spec seg ".") as [->|H2]; [by apply IH|]. simpl.
  destruct (String.eqb_spec seg "..") as [->|H3].
  - destruct Hst as (names & ups & -> & Hnames & Habs).
    destruct names as [|top names]; simpl.
    + destruct ups as [|k]; simpl.
      * destruct absolute; apply IH.
        -- by exists [], 0%nat.
        -- exists [], 1%nat. repeat split; [constructor | discriminate].
      * apply IH. exists [], (S (S k)). repeat split; [constructor|].
        intros Ha. specialize (Habs Ha). discriminate.
    + inversion Hnames as [|? ? Htop Hnames']; subst.
      destruct Htop as (_ & _ & Htop & _).
      destruct (String.eqb_spec top ".."); [contradiction|].
      apply IH. by exists names, ups.
  - apply IH, clean_stack_push; [|exact Hst]. by repeat split.
Qed.

Lemma clean_stack_sound absolute stack :
  clean_stack absolute stack →
  Forall (λ s, s ≠ "" ∧ "/"%char ∉ chars s) stack.
Proof.
  intros (names & ups & -> & Hnames & _). apply Forall_app. split.
  - eapply Forall_impl; [exact Hnames|]. by intros s (H1 & _ & _ & H4).
  - apply Forall_replicate. split; [discriminate|].
    intros H. repeat (apply elem_of_cons in H as [H|H]; [discriminate H|]).
    inversion H.
Qed.

Lemma segments_concat l :
  l ≠ [] → Forall (λ s, "/"%char ∉ chars s) l →
  Path.segments (String.concat "/" l) = l.
Proof.
  intros Hne Hl. induction Hl as [|x l Hx Hl IH]; [contradiction|].
  destruct l as [|y l].
  - simpl. by apply segments_plain.
  - change (String.concat "/" (x :: y :: l))
      with (x +:+ String "/" (String.concat "/" (y :: l))).
    rewrite segments_app, (segments_plain x Hx), IH by discriminate.
    reflexivity.
Qed.

Lemma concat_head x l :
  x ≠ "" → ∃ c r, x = String c r
                  ∧ ∃ r', String.concat "/" (x :: l) = String c r'.
Proof.
  intros Hx. destruct x as [|c r]; [contradiction|].
  exists c, r. split; [reflexivity|].
  destruct l as [|y l]; [by eexists|].
  change (String.concat "/" (String c r :: y :: l))
    with (String c (r +:+ String "/" (String.concat "/" (y :: l)))).
  by eexists.
Qed.

Lemma ends_with_slash_plain s :
  "/"%char ∉ chars s → Path.ends_with_slash s = false.
Proof.
  induction s as [|c s IH]; intros H; [reflexivity|].
  simpl in H. apply not_elem_of_cons in H as [Hc Hs]. simpl.
  destruct s as [|d s]; [|by apply IH].
  destruct (Ascii.eqb_spec c "/"); [congruence | reflexivity].
Qed.

Lemma ends_with_slash_app s t :
  t ≠ "" → Path.ends_with_slash (s +:+ t) = Path.ends_with_slash t.
Proof.
  intros Ht. induction s as [|c s IH]; [reflexivity|].
  change (Path.ends_with_slash (String c (s +:+ t)) = Path.ends_with_slash t).
  simpl. destruct (s +:+ t) as [|d r] eqn:E; [|exact IH].
  destruct s; [|discriminate]. simpl in E. contradiction.
Qed.

Lemma is_absolute_app s t :
  s ≠ "" → Path.is_absolute (s +:+ t) = Path.is_absolute s.
Proof. intros Hs. destruct s; [contradiction | reflexivity]. Qed.

(** The normal form of a path that does not end in a separator and does not
    resolve to nothing. *)
Lemma normalize_stack p :
  p ≠ "" →
  Path.ends_with_slash p = false →
  stack_after (Path.is_absolute p) (Path.segments p) [] ≠ [] →
  Path.normalize p
  = (if Path.is_absolute p then "/" else "")
    +:+ String.concat "/"
          (rev (stack_after (Path.is_absolute p) (Path.segments p) [])).
Proof.
  intros Hp Hend Hst. unfold Path.normalize.
  destruct (String.eqb_spec p ""); [contradiction|].
  rewrite resolve_stack, Hend.
  assert (Hclean : clean_stack (Path.is_absolute p)
                     (stack_after (Path.is_absolute p) (Path.segments p) [])).
  { apply stack_after_clean.
    - apply Forall_forall. intros x Hx Hc.
      by destruct (segments_chars p x _ Hx Hc).
    - by exists [], 0%nat. }
  apply clean_stack_sound, Forall_rev in Hclean.
  destruct (rev (stack_after (Path.is_absolute p) (Path.segments p) []))
    as [|x l] eqn:E.
  { apply (f_equal (@rev string)) in E. rewrite rev_involutive in E.
    contradiction. }
  inversion Hclean as [|? ? [Hx _] _]; subst.
  destruct (concat_head x l Hx) as (c & r & _ & r' & Hr').
  rewrite Hr'. simpl. destruct (Path.is_absolute p); reflexivity.
Qed.

Lemma normalize_child h name :
  h ≠ "" → entry_name name →
  Path.normalize
    (Path.normalize (h +:+ "/public/uploads") +:+ String "/" name)
  = Path.normalize (h +:+ String "/" ("/public/uploads/" +:+ name)).
Proof.
  intros Hh Hname.
  pose proof Hname as (Hn1 & Hn2 & Hn3 & Hn4).
  set (a := Path.is_absolute h).
  set (S0 := stack_after a (Path.segments h) []).
  assert (Hclean0 : clean_stack a S0).
  { apply stack_after_clean; [|by exists [], 0%nat].
    apply Forall_forall. intros x Hx Hc.
    by destruct (segments_chars h x _ Hx Hc). }
  assert (Hpublic : entry_name "public").
  { repeat split; try discriminate. intros H.
    repeat (apply elem_of_cons in H as [H|H]; [discriminate H|]).
    inversion H. }
  assert (Huploads : entry_name "uploads").
  { repeat split; try discriminate. intros H.
    repeat (apply elem_of_cons in H as [H|H]; [discriminate H|]).
    inversion H. }
  set (SX := "uploads" :: "public" :: S0).
  assert (HcleanX : clean_stack a SX).
  { by apply clean_stack_push, clean_stack_push. }
  (* the upload directory *)
  assert (HU : Path.normalize (h +:+ "/public/uploads")
               = (if a then "/" else "") +:+ String.concat "/" (rev SX)).
  { change "/public/uploads" with (String "/" "public/uploads").
    assert (Hst : stack_after (Path.is_absolute (h +:+ String "/" "public/uploads"))
                    (Path.segments (h +:+ String "/" "public/uploads")) []
                  = SX).
    { rewrite is_absolute_app, segments_app, stack_after_app by exact Hh.
      reflexivity. }
    rewrite normalize_stack.
    - by rewrite Hst, is_absolute_app.
    - destruct h; [contradiction | discriminate].
    - by rewrite ends_with_slash_app.
    - by rewrite Hst. }
  rewrite HU.
  set (body := String.concat "/" (rev SX)).
  assert (Hsound : Forall (λ s, s ≠ "" ∧ "/"%char ∉ chars s) (rev SX)).
  { by apply Forall_rev, (clean_stack_sound a). }
  destruct (rev SX) as [|x l] eqn:Erev.
  { apply (f_equal (@rev string)) in Erev. rewrite rev_involutive in Erev.
    discriminate. }
  assert (Hsegs : Path.segments body = x :: l).
  { apply segments_concat; [discriminate|].
    eapply Forall_impl; [exact Hsound|]. by intros s [_ H]. }
  assert (Hbody : ∃ c r, body = String c r ∧ c ≠ "/"%char).
  { inversion Hsound as [|? ? [Hx Hxs] _]; subst.
    destruct (concat_head x l Hx) as (c & r & -> & r' & Hr').
    exists c, r'. split; [exact Hr'|]. intros ->. apply Hxs. left. }
  destruct Hbody as (c & r & Hbody & Hc).
  set (U := (if a then "/" else "") +:+ body).
  assert (HUne : U ≠ "").
  { unfold U. rewrite Hbody. destruct a; discriminate. }
  assert (HUabs : Path.is_absolute U = a).
  { unfold U. rewrite Hbody. destruct a; [reflexivity|].
    change (Ascii.eqb c "/" = false). by apply Ascii.eqb_neq. }
  assert (HUstack : stack_after a (Path.segments U) [] = SX).
  { unfold U. rewrite <- (stack_after_rev_clean a SX HcleanX), Erev.
    destruct a.
    - change (Path.segments ("/" +:+ body)) with ("" :: Path.segments body).
      by rewrite Hsegs.
    - change (Path.segments ("" +:+ body)) with (Path.segments body).
      by rewrite Hsegs. }
  assert (Hend : Path.ends_with_slash (String "/" name) = false).
  { simpl. destruct name; [contradiction|].
    by apply ends_with_slash_plain. }
  assert (HY : Path.normalize (U +:+ String "/" name)
               = (if a then "/" else "")
                 +:+ String.concat "/" (rev (name :: SX))).
  { assert (Hst : stack_after (Path.is_absolute (U +:+ String "/" name))
                    (Path.segments (U +:+ String "/" name)) []
                  = name :: SX).
    { rewrite is_absolute_app, HUabs, segments_app, stack_after_app, HUstack
        by exact HUne.
      rewrite (segments_plain name Hn4). by apply stack_after_entry. }
    rewrite normalize_stack.
    - by rewrite Hst, is_absolute_app, HUabs.
    - destruct U; [contradiction | discriminate].
    - by rewrite ends_with_slash_app.
    - by rewrite Hst. }
  rewrite HY. symmetry.
  change ("/public/uploads/" +:+ name)
    with (String "/" ("public" +:+ String "/" ("uploads" +:+ String "/" name))).
  assert (Hst : stack_after
                  (Path.is_absolute
                     (h +:+ String "/"
                        (String "/"
                           ("public" +:+ String "/"
                              ("uploads" +:+ String "/" name)))))
                  (Path.segments
                     (h +:+ String "/"
                        (String "/"
                           ("public" +:+ String "/"
                              ("uploads" +:+ String "/" name))))) []
                = name :: SX).
  { rewrite is_absolute_app, segments_app, stack_after_app by exact Hh.
    change (Path.segments
              (String "/"
                 ("public" +:+ String "/" ("uploads" +:+ String "/" name))))
      with ("" :: Path.segments
                    ("public" +:+ String "/" ("uploads" +:+ String "/" name))).
    rewrite !segments_app, (segments_plain name Hn4).
    change (Path.segments "public") with ["public"].
    change (Path.segments "uploads") with ["uploads"].
    change ("" :: ["public"] ++ ["uploads"] ++ [name])
      with (["" ; "public"; "uploads"] ++ [name]).
    rewrite stack_after_app. fold a. fold S0.
    change (stack_after a [""; "public"; "uploads"] S0) with SX.
    by apply stack_after_entry. }
  rewrite normalize_stack.
  - by rewrite Hst, is_absolute_app.
  - destruct h; [contradiction | discriminate].
  - rewrite ends_with_slash_app by discriminate.
    change (String "/"
              (String "/"
                 ("public" +:+ String "/" ("uploads" +:+ String "/" name))))
      with ("//public/uploads" +:+ String "/" name).
    by rewrite ends_with_slash_app.
  - by rewrite Hst.
Qed.

Lemma normalize_nonempty p : Path.normalize p ≠ "".
Proof.
  unfold Path.normalize. cbv zeta.
  destruct (String.eqb p ""); [discriminate|].
  destruct (String.eqb_spec
              (String.concat "/"
                 (Path.resolve (Path.is_absolute p) (Path.segments p) [])) "")
    as [Heq|Hne].
  - destruct (Path.is_absolute p); [discriminate|].
    destruct (Path.ends_with_slash p); discriminate.
  - destruct (Path.is_absolute p); [discriminate|].
    destruct (Path.ends_with_slash p); [|exact Hne].
    destruct (String.concat "/" _); [contradiction | discriminate].
Qed.

Lemma join_upload_image dir name :
  entry_name name →
  Path.join [Path.join [dir; "../public/uploads"]; name]
  = Path.join [dir; ".."; "/public/uploads/" +:+ name].
Proof.
  intros Hname. pose proof Hname as (Hne & _).
  assert (Himg : "/public/uploads/" +:+ name ≠ "") by discriminate.
  destruct (decide (dir = "")) as [->|Hdir].
  - change (Path.join [""; "../public/uploads"])
      with (Path.normalize (".." +:+ "/public/uploads")).
    unfold Path.join at 2.
    rewrite filter_cons_False, !filter_cons_True by (done || by intros H; apply H).
    rewrite filter_nil.
    change (String.concat "/" [".."; "/public/uploads/" +:+ name])
      with (".." +:+ String "/" ("/public/uploads/" +:+ name)).
    rewrite <- normalize_child by (done || discriminate).
    unfold Path.join.
    rewrite !filter_cons_True by (exact Hne || apply normalize_nonempty).
    rewrite filter_nil. reflexivity.
  - unfold Path.join at 2 3.
    rewrite !filter_cons_True by (done || discriminate).
    rewrite !filter_nil.
    change (String.concat "/" [dir; "../public/uploads"])
      with (dir +:+ ("/.." +:+ "/public/uploads")).
    change (String.concat "/" [dir; ".."; "/public/uploads/" +:+ name])
      with (dir +:+ ("/.." +:+ String "/" ("/public/uploads/" +:+ name))).
    rewrite <- !str_app_assoc.
    rewrite <- normalize_child;
      [|destruct dir; [contradiction | discriminate] | exact Hname].
    unfold Path.join.
    rewrite !filter_cons_True by (exact Hne || apply normalize_nonempty).
    rewrite filter_nil. reflexivity.
Qed.

(** X16: an image is looked for where it was stored.  For every
    application directory, every original name and every naming, the path
    under which multer stores the file ([uploadDir] joined with the stored
    name) is the path the removal route derives from the [image] reference of
    the report registered with that file. *)
Theorem image_stored_where_removed
    (req : RegisterRequest) (now random : Z) (file : Upload) (w w0 : World) :
  imagePath w
    (registered req {| filename := storage_filename now random file |} w0)
  = stored_path w (storage_filename now random file).
Proof.
  unfold imagePath, stored_path, uploadDir. simpl.
  symmetry. apply join_upload_image.
  apply storage_filename_entry.
Qed.

Example image_path_demo :
  stored_path demo_world (storage_filename 1000 42 demo_upload)
  = "/srv/app/public/uploads/pothole-1000-42.JPG".
Proof. reflexivity. Qed.

(** ** Removing a report and its image *)

(** C5, as the code has it: removing a report.  A parameter that is not the
    24 hexadecimal digits of an id makes the lookup throw: the answer is a
    server error (status 500) and nothing changes.  For a parameter that is
    an id: when no report has it the answer is "Pothole not found" (status
    404) and neither the collection nor the files change; when a report has
    it, the route looks it up, deletes the file at
    [path.join(__dirname, "..", image)], [image] being the image reference of
    that report, if the file exists, and then deletes the record (the trace
    shows the unlink before the delete); the answer is a success whether or
    not the file existed, and in both cases that file is absent afterwards,
    every other file is still there, and the record is gone.  When the
    reference is that of an uploaded image, "/public/uploads/" followed by
    the name the file was stored under, the file deleted is the file the
    upload wrote, [path.join(uploadDir, name)]. *)
Theorem remove_report (param : string) (w : World) :
  (ObjectId_of_string param = None →
   DELETE_id param w = (cast_failed param, w))
  ∧ (∀ id, ObjectId_of_string param = Some id →
     (¬ exists_report id w →
      (DELETE_id param w).1 = not_found
      ∧ potholes (DELETE_id param w).2 = potholes w
      ∧ files (DELETE_id param w).2 = files w)
     ∧ (exists_report id w →
        ∃ p, p ∈ potholes w ∧ _id p = id
          ∧ (DELETE_id param w).1
            = {| res_status := 200;
                 res_json := success_message "Pothole deleted successfully" |}
          ∧ files (DELETE_id param w).2
            = files w ∖ {[Path.join [dirname w; ".."; image p]]}
          ∧ potholes (DELETE_id param w).2 = delete_by_id id (potholes w)
          ∧ trace (DELETE_id param w).2
            = trace w
              ++ [DbFindById id;
                  FsExists (Path.join [dirname w; ".."; image p])]
              ++ (if bool_decide
                       (Path.join [dirname w; ".."; image p] ∈ files w)
                  then [FsUnlink (Path.join [dirname w; ".."; image p])]
                  else [])
              ++ [DbDeleteOne id]
          ∧ (reachable w → ¬ exists_report id (DELETE_id param w).2)
          ∧ (∀ name, image p = "/public/uploads/" +:+ name →
               entry_name name →
               Path.join [dirname w; ".."; image p] = stored_path w name))).
Proof.
  split; [apply DELETE_id_malformed|].
  intros id Hcast. rewrite (DELETE_id_cast param id w Hcast). split.
  - intros Hno. apply missing_report_find in Hno.
    rewrite (delete_id_missing id w Hno). done.
  - intros Hex. apply exists_report_find in Hex as [p Hp].
    destruct (find_by_id_Some _ _ _ Hp) as [Hin Hid].
    destruct (delete_id_found id w p Hp) as (Hr & Hps & Hfs & Htr & _).
    exists p. repeat split; try assumption.
    + intros Hreach (q & Hq & Hqid). rewrite Hps in Hq.
      apply reachable_inv in Hreach. destruct Hreach as [_ _ _ Hnd].
      by apply (delete_by_id_gone id (potholes w) Hnd q Hq).
    + intros name Himage Hname. rewrite Himage.
      unfold stored_path, uploadDir. symmetry.
      by apply join_upload_image.
Qed.

Lemma remove_report_witness :
  ObjectId_of_string demo_id_0 = Some 0%nat
  ∧ exists_report 0%nat demo_world1
  ∧ ∃ p, p ∈ potholes demo_world1 ∧ _id p = 0%nat
      ∧ (DELETE_id demo_id_0 demo_world1).1
        = {| res_status := 200;
             res_json := success_message "Pothole deleted successfully" |}
      ∧ files (DELETE_id demo_id_0 demo_world1).2
        = files demo_world1
          ∖ {[Path.join [dirname demo_world1; ".."; image p]]}
      ∧ potholes (DELETE_id demo_id_0 demo_world1).2
        = delete_by_id 0%nat (potholes demo_world1)
      ∧ trace (DELETE_id demo_id_0 demo_world1).2
        = trace demo_world1
          ++ [DbFindById 0%nat;
              FsExists (Path.join [dirname demo_world1; ".."; image p])]
          ++ (if bool_decide
                   (Path.join [dirname demo_world1; ".."; image p]
                    ∈ files demo_world1)
              then [FsUnlink (Path.join [dirname demo_world1; ".."; image p])]
              else [])
          ++ [DbDeleteOne 0%nat]
      ∧ (reachable demo_world1
         → ¬ exists_report 0%nat (DELETE_id demo_id_0 demo_world1).2)
      ∧ (∀ name, image p = "/public/uploads/" +:+ name →
           entry_name name →
           Path.join [dirname demo_world1; ".."; image p]
           = stored_path demo_world1 name).
Proof.
  split; [reflexivity|]. split; [exact demo_world1_report|].
  exact (proj2 (proj2 (remove_report demo_id_0 demo_world1) 0%nat eq_refl)
           demo_world1_report).
Defined.

Example remove_trace :
  trace (DELETE_id demo_id_0 demo_world1).2
  = [DbInsert 0%nat; DbFindById 0%nat;
     FsExists "/srv/app/public/uploads/pothole-1.png";
     FsUnlink "/srv/app/public/uploads/pothole-1.png"; DbDeleteOne 0%nat]
  ∧ elements (files (DELETE_id demo_id_0 demo_world1).2) = [].
Proof. split; reflexivity. Qed.

(** The image already gone: the record is deleted all the same. *)
Example remove_without_file :
  let w := with_files ∅ demo_world1 in
  (DELETE_id demo_id_0 w).1
  = {| res_status := 200;
       res_json := success_message "Pothole deleted successfully" |}
  ∧ potholes (DELETE_id demo_id_0 w).2 = []
  ∧ trace (DELETE_id demo_id_0 w).2
    = [DbInsert 0%nat; DbFindById 0%nat;
       FsExists "/srv/app/public/uploads/pothole-1.png"; DbDeleteOne 0%nat].
Proof. repeat split; reflexivity. Qed.

(** C5 as stated fails for a parameter that is not an id: no report has the
    id "abc", and removing it is answered with a server error (status 500,
    the cast failure), not with "Pothole not found". *)
Lemma remove_malformed_id_counterexample :
  ¬ names_report "abc" demo_world1
  ∧ (DELETE_id "abc" demo_world1).1 = cast_failed "abc"
  ∧ res_status (DELETE_id "abc" demo_world1).1 = 500%nat
  ∧ (DELETE_id "abc" demo_world1).1 ≠ not_found.
Proof.
  split; [apply abc_names_none|]. repeat split; try reflexivity.
  discriminate.
Qed.

(** ** The upload filter *)

Lemma extname_no_dot p : "."%char ∉ chars p → Path.extname p = "".
Proof.
  intros Hd. unfold Path.extname.
  assert (Hn : Path.split_ext (Path.last_component p) = None).
  { apply split_ext_None. intros H.
    destruct (last_component_chars p _ H). contradiction. }
  by rewrite Hn.
Qed.

(** X17: the filter lets a file through only if its declared MIME type
    mentions jpeg, jpg or png and its original name has an extension; a name
    without any dot is refused whatever type is declared. *)
Theorem fileFilter_needs_extension (file : Upload) :
  (fileFilter file = true →
   filetypes_test (mimetype file) = true
   ∧ Path.extname (originalname file) ≠ ""
   ∧ "."%char ∈ chars (originalname file))
  ∧ ("."%char ∉ chars (originalname file) → fileFilter file = false).
Proof.
  assert (Hno : "."%char ∉ chars (originalname file) → fileFilter file = false).
  { intros Hd. unfold fileFilter. rewrite (extname_no_dot _ Hd).
    apply andb_false_r. }
  split; [|exact Hno].
  intros Hf. unfold fileFilter in Hf. apply andb_true_iff in Hf as [Hm He].
  split; [exact Hm|]. split.
  - intros Hext. rewrite Hext in He. discriminate He.
  - destruct (decide ("."%char ∈ chars (originalname file))) as [|Hd];
      [assumption|].
    rewrite (extname_no_dot _ Hd) in He. discriminate He.
Qed.

Example fileFilter_examples :
  fileFilter demo_upload = true
  ∧ fileFilter demo_text = false
  ∧ fileFilter {| originalname := "road"; mimetype := "image/png";
                  size := 1 |} = false
  ∧ fileFilter {| originalname := "road.png"; mimetype := "image/gif";
                  size := 1 |} = false.
Proof. repeat split; reflexivity. Qed.

(** ** Registration through the upload middleware *)

Lemma valid_fields_registration req f :
  valid_fields req ↔ valid_registration (with_file (Some f) req).
Proof.
  unfold valid_fields, valid_registration. simpl. split.
  - intros H. split; [by eexists | exact H].
  - by intros [_ H].
Qed.

Lemma POST_register_accepted file random req w :
  accepted file →
  POST_register (Some file) random req w
  = let stored :=
      {| filename := storage_filename (clock w (ticks w)) random file |} in
    let answer :=
      post_register (with_file (Some stored) req)
        (multer_store stored (with_ticks (S (ticks w)) w)) in
    (Routed answer.1, answer.2).
Proof.
  intros [Hf Hs]. unfold POST_register, upload_single. rewrite Hf.
  apply Z.ltb_lt in Hs. rewrite Hs. cbv zeta.
  by destruct (post_register _ _).
Qed.

Lemma POST_register_refused file random req w :
  ¬ accepted file →
  POST_register (Some file) random req w
  = if fileFilter file
    then (error_handler "File too large", with_ticks (S (ticks w)) w)
    else (error_handler "Only image files are allowed!", w).
Proof.
  intros Hn. unfold POST_register, upload_single.
  destruct (fileFilter file) eqn:Hf; [|reflexivity].
  destruct (Z.ltb_spec (size file) fileSize) as [Hs|Hs]; [|reflexivity].
  exfalso. apply Hn. by split.
Qed.

(** X18: an image part that the filter refuses, or that is larger than
    5 MiB, never reaches the registration handler: the client receives the
    error handler's answer (status 500, "Something went wrong!") with the
    upload error as its [error], and no report is created, no file is left
    on disk and the collection is not even consulted. *)
Theorem refused_upload_changes_nothing
    (file : Upload) (random : Z) (req : RegisterRequest) (w : World) :
  ¬ accepted file →
  ∃ err,
    (POST_register (Some file) random req w).1
    = ErrorHandled "Something went wrong!" err
    ∧ server_status (POST_register (Some file) random req w).1 = 500%nat
    ∧ (fileFilter file = false → err = "Only image files are allowed!")
    ∧ (fileFilter file = true → err = "File too large")
    ∧ potholes (POST_register (Some file) random req w).2 = potholes w
    ∧ files (POST_register (Some file) random req w).2 = files w
    ∧ trace (POST_register (Some file) random req w).2 = trace w.
Proof.
  intros Hn. rewrite (POST_register_refused file random req w Hn).
  destruct (fileFilter file); eexists; repeat split; try reflexivity;
    discriminate.
Qed.

Lemma demo_text_refused : ¬ accepted demo_text.
Proof. intros [H _]. discriminate H. Qed.

Lemma refused_upload_changes_nothing_witness :
  ¬ accepted demo_text
  ∧ ∃ err,
      (POST_register (Some demo_text) 42 (demo_request "1.2" "") demo_world1).1
      = ErrorHandled "Something went wrong!" err
      ∧ server_status
          (POST_register (Some demo_text) 42 (demo_request "1.2" "")
             demo_world1).1 = 500%nat
      ∧ (fileFilter demo_text = false → err = "Only image files are allowed!")
      ∧ (fileFilter demo_text = true → err = "File too large")
      ∧ potholes (POST_register (Some demo_text) 42 (demo_request "1.2" "")
                    demo_world1).2 = potholes demo_world1
      ∧ files (POST_register (Some demo_text) 42 (demo_request "1.2" "")
                 demo_world1).2 = files demo_world1
      ∧ trace (POST_register (Some demo_text) 42 (demo_request "1.2" "")
                 demo_world1).2 = trace demo_world1.
Proof.
  split; [exact demo_text_refused|].
  exact (refused_upload_changes_nothing demo_text 42 (demo_request "1.2" "")
           demo_world1 demo_text_refused).
Defined.

(** X19: a registration whose image is accepted but whose text fields fail
    validation is answered 500 by the route and stores no report, yet the
    uploaded image stays on disk under its stored name: the failed
    registration leaves an image that no report refers to. *)
Theorem rejected_registration_keeps_image
    (file : Upload) (random : Z) (req : RegisterRequest) (w : World) :
  accepted file →
  ¬ valid_fields req →
  ∃ r, (POST_register (Some file) random req w).1 = Routed r
     ∧ res_status r = 500%nat
     ∧ potholes (POST_register (Some file) random req w).2 = potholes w
     ∧ stored_path w (storage_filename (clock w (ticks w)) random file)
       ∈ files (POST_register (Some file) random req w).2.
Proof.
  intros Hacc Hnv. rewrite (POST_register_accepted file random req w Hacc).
  cbv zeta. simpl.
  set (stored := {| filename :=
                      storage_filename (clock w (ticks w)) random file |}).
  set (w1 := multer_store stored (with_ticks (S (ticks w)) w)).
  rewrite (post_register_file (with_file (Some stored) req) stored w1 eq_refl).
  destruct (validate (fields_of (with_file (Some stored) req) stored))
    as [|path paths] eqn:Hv.
  { exfalso. apply Hnv.
    destruct (validate_nil _ _ Hv) as [H|H]; [|discriminate H].
    by apply (valid_fields_registration req stored). }
  eexists. simpl. repeat split.
  unfold stored_path. apply elem_of_union. left.
  by apply elem_of_singleton.
Qed.

Lemma demo_upload_accepted : accepted demo_upload.
Proof. split; [reflexivity|]. unfold fileSize. simpl. lia. Qed.

Lemma rejected_registration_keeps_image_witness :
  accepted demo_upload
  ∧ ¬ valid_fields (demo_request "abc" "")
  ∧ ∃ r, (POST_register (Some demo_upload) 42 (demo_request "abc" "")
            demo_world1).1 = Routed r
       ∧ res_status r = 500%nat
       ∧ potholes (POST_register (Some demo_upload) 42 (demo_request "abc" "")
                     demo_world1).2 = potholes demo_world1
       ∧ stored_path demo_world1
           (storage_filename (clock demo_world1 (ticks demo_world1)) 42
              demo_upload)
         ∈ files (POST_register (Some demo_upload) 42 (demo_request "abc" "")
                    demo_world1).2.
Proof.
  assert (Hnv : ¬ valid_fields (demo_request "abc" "")).
  { intros (H & _). discriminate H. }
  split; [exact demo_upload_accepted|]. split; [exact Hnv|].
  exact (rejected_registration_keeps_image demo_upload 42
           (demo_request "abc" "") demo_world1 demo_upload_accepted Hnv).
Defined.

Lemma POST_register_file_status file random req w :
  (server_status (POST_register (Some file) random req w).1 = 201%nat
   ↔ accepted file ∧ valid_fields req)
  ∧ (server_status (POST_register (Some file) random req w).1 = 201%nat
     ∨ server_status (POST_register (Some file) random req w).1 = 500%nat).
Proof.
  destruct (decide (fileFilter file = true ∧ size file < fileSize))
    as [Hacc|Hn].
  - rewrite (POST_register_accepted file random req w Hacc). cbv zeta.
    simpl.
    set (stored := {| filename :=
                        storage_filename (clock w (ticks w)) random file |}).
    set (w1 := multer_store stored (with_ticks (S (ticks w)) w)).
    rewrite (post_register_file (with_file (Some stored) req) stored w1
               eq_refl).
    destruct (validate (fields_of (with_file (Some stored) req) stored))
      as [|path paths] eqn:Hv; simpl.
    + assert (Hval : valid_fields req).
      { destruct (validate_nil _ _ Hv) as [H|H]; [|discriminate H].
        by apply (valid_fields_registration req stored). }
      split; [split; [by intros _ | reflexivity] | by left].
    + assert (Hnv : ¬ valid_fields req).
      { intros H. apply (valid_fields_registration req stored) in H.
        by rewrite (validate_valid _ stored H) in Hv. }
      split; [split; [discriminate|] | by right].
      intros [_ H]. contradiction.
  - rewrite (POST_register_refused file random req w Hn).
    assert (Hst : server_status
                    (if fileFilter file
                     then (error_handler "File too large",
                           with_ticks (S (ticks w)) w)
                     else (error_handler "Only image files are allowed!",
                           w)).1 = 500%nat)
      by (destruct (fileFilter file); reflexivity).
    rewrite Hst.
    split; [split; [discriminate|] | by right].
    intros [Hacc _]. contradiction.
Qed.

Lemma POST_register_parts_image file random req w :
  POST_register_parts [("image", file)] random req w
  = POST_register (Some file) random req w.
Proof.
  unfold POST_register_parts, POST_register, upload_parts.
  destruct (decide ("image" = "image")) as [_|Hne]; [|contradiction].
  by destruct (upload_single (Some file) random w) as [[err|[stored|]] w'].
Qed.

Lemma POST_register_parts_unexpected field file rest random req w :
  field ≠ "image" ∨ rest ≠ [] →
  server_status
    (POST_register_parts ((field, file) :: rest) random req w).1 = 500%nat.
Proof.
  intros Hcase. unfold POST_register_parts, upload_parts.
  destruct (decide (field = "image")) as [->|Hne]; [|reflexivity].
  destruct Hcase as [Hne|Hrest]; [contradiction|].
  destruct rest as [|next rest]; [contradiction|].
  unfold upload_single.
  destruct (fileFilter file); [|reflexivity].
  destruct (size file <? fileSize); reflexivity.
Qed.

(** X20: through the upload middleware, for any file parts the multipart
    request carries, a registration is answered 201 exactly when the request
    carries one file part only, sent under the field "image", which the
    filter accepts and which is smaller than 5 MiB, and its text fields pass
    validation; it is answered 400 exactly when it carries no file part at
    all; in every other case, a file part under another field or a second
    file part included, the answer is 500. *)
Theorem register_pipeline_status
    (parts : list (string * Upload)) (random : Z) (req : RegisterRequest)
    (w : World) :
  (server_status (POST_register_parts parts random req w).1 = 201%nat
   ↔ ∃ file, parts = [("image", file)] ∧ accepted file ∧ valid_fields req)
  ∧ (server_status (POST_register_parts parts random req w).1 = 400%nat
     ↔ parts = [])
  ∧ (server_status (POST_register_parts parts random req w).1 = 201%nat
     ∨ server_status (POST_register_parts parts random req w).1 = 400%nat
     ∨ server_status (POST_register_parts parts random req w).1 = 500%nat).
Proof.
  destruct parts as [|[field file] rest].
  - unfold POST_register_parts, upload_parts, upload_single.
    rewrite (post_register_no_file (with_file None req) w eq_refl). simpl.
    split; [split; [discriminate|]|].
    { intros (f & Hf & _). discriminate Hf. }
    split; [split; reflexivity | by right; left].
  - destruct (decide (field = "image" ∧ rest = [])) as [[-> ->]|Hn].
    + rewrite POST_register_parts_image.
      destruct (POST_register_file_status file random req w) as [Hiff Hor].
      split.
      { rewrite Hiff. split.
        - intros [Hacc Hval]. by exists file.
        - intros (f & Hf & Hacc & Hval). by injection Hf as <-. }
      split.
      { split; [|discriminate]. intros H. destruct Hor as [Hor|Hor]; lia. }
      destruct Hor as [Hor|Hor]; [by left | by right; right].
    + assert (Hcase : field ≠ "image" ∨ rest ≠ []).
      { destruct (decide (field = "image")) as [Hf|Hf]; [|by left].
        right. intros Hr. by apply Hn. }
      rewrite (POST_register_parts_unexpected field file rest random req w
                 Hcase).
      split; [split; [discriminate|]|].
      { intros (f & Hf & _). injection Hf as Hf1 Hf2 Hf3.
        exfalso. apply Hn. by split. }
      split; [split; discriminate | by right; right].
Qed.

(** Examples of refused uploads: a photograph of exactly 5 MiB, a photograph
    sent under another field, and two photographs. *)
Example refused_uploads :
  let big := {| originalname := "road.JPG"; mimetype := "image/jpeg";
                size := 5242880 |} in
  (POST_register (Some big) 42 (demo_request "3.4" "") demo_world1).1
  = ErrorHandled "Something went wrong!" "File too large"
  ∧ (POST_register_parts [("photo", demo_upload)] 42
       (demo_request "3.4" "") demo_world1).1
    = ErrorHandled "Something went wrong!" "Unexpected field"
  ∧ (POST_register_parts [("image", demo_upload); ("image", demo_upload)] 42
       (demo_request "3.4" "") demo_world1).1
    = ErrorHandled "Something went wrong!" "Unexpected field"
  ∧ files (POST_register_parts
             [("image", demo_upload); ("image", demo_upload)] 42
             (demo_request "3.4" "") demo_world1).2
    = files demo_world1.
Proof. repeat split; reflexivity. Qed.

Lemma delete_by_id_last id l p :
  Forall (λ q, _id q ≠ id) l → _id p = id → delete_by_id id (l ++ [p]) = l.
Proof.
  intros Hl Hp. induction Hl as [|x l Hx _ IH]; simpl.
  - by destruct (decide (_id p = id)).
  - destruct (decide (_id x = id)); [contradiction|]. by rewrite IH.
Qed.

Lemma find_by_id_last id l p :
  Forall (λ q, _id q ≠ id) l → _id p = id → find_by_id id (l ++ [p]) = Some p.
Proof.
  intros Hl Hp. rewrite find_by_id_app.
  assert (Hnone : find_by_id id l = None).
  { apply find_by_id_None. intros q Hq. rewrite Forall_forall in Hl.
    by apply Hl. }
  rewrite Hnone. simpl. by destruct (decide (_id p = id)).
Qed.

(** X21: registering and then removing is a round trip.  In a reachable
    world, a registration with an accepted image and valid fields is answered
    201 with a report [p], stored last, whose image is on disk under its
    stored name; removing [p] afterwards is answered 200, brings the
    collection back to the reports stored before, and takes the image file
    off the disk again, leaving every other file as it was. *)
Theorem register_then_remove
    (file : Upload) (random : Z) (req : RegisterRequest) (w : World) :
  reachable w →
  accepted file →
  valid_fields req →
  ∃ p r,
    (POST_register (Some file) random req w).1 = Routed r
    ∧ res_status r = 201%nat
    ∧ res_json r = success_pothole "Pothole registered successfully" p
    ∧ potholes (POST_register (Some file) random req w).2 = potholes w ++ [p]
    ∧ stored_path w (storage_filename (clock w (ticks w)) random file)
      ∈ files (POST_register (Some file) random req w).2
    ∧ res_status
        (delete_id (_id p) (POST_register (Some file) random req w).2).1
      = 200%nat
    ∧ potholes (delete_id (_id p) (POST_register (Some file) random req w).2).2
      = potholes w
    ∧ files (delete_id (_id p) (POST_register (Some file) random req w).2).2
      = files w
        ∖ {[stored_path w
              (storage_filename (clock w (ticks w)) random file)]}.
Proof.
  intros Hreach Hacc Hval.
  rewrite (POST_register_accepted file random req w Hacc). cbv zeta.
  set (name := storage_filename (clock w (ticks w)) random file).
  set (stored := {| filename := name |}).
  set (w1 := multer_store stored (with_ticks (S (ticks w)) w)).
  rewrite (post_register_file (with_file (Some stored) req) stored w1 eq_refl).
  rewrite (validate_valid _ stored
             (proj1 (valid_fields_registration req stored) Hval)).
  set (p := registered (with_file (Some stored) req) stored w1).
  set (w2 := with_potholes _ _).
  exists p. eexists. cbn [fst snd].
  pose proof (reachable_inv w Hreach) as [_ _ Hfresh _].
  assert (Hother : Forall (λ q, _id q ≠ _id p) (potholes w)).
  { eapply Forall_impl; [exact Hfresh|]. intros q Hq. simpl in *.
    change (_id p) with (next_id w). lia. }
  assert (Hfind : find_by_id (_id p) (potholes w2) = Some p).
  { change (potholes w2) with (potholes w ++ [p]).
    by apply find_by_id_last. }
  destruct (delete_id_found (_id p) w2 p Hfind) as (Hr & Hp & Hf & _).
  assert (Hpath : imagePath w2 p = stored_path w name).
  { unfold imagePath, stored_path, uploadDir.
    change (dirname w2) with (dirname w).
    change (image p) with ("/public/uploads/" +:+ name).
    symmetry. apply join_upload_image.
    apply storage_filename_entry. }
  split; [reflexivity|]. split; [reflexivity|]. split; [reflexivity|].
  split; [reflexivity|].
  split.
  { change (files w2) with ({[stored_path w name]} ∪ files w).
    apply elem_of_union. left. by apply elem_of_singleton. }
  split; [by rewrite Hr|].
  split.
  { rewrite Hp. change (potholes w2) with (potholes w ++ [p]).
    by apply delete_by_id_last. }
  rewrite Hf, Hpath.
  change (files w2) with ({[stored_path w name]} ∪ files w).
  apply set_eq. intros x.
  rewrite !elem_of_difference, elem_of_union, elem_of_singleton. tauto.
Qed.

Lemma demo_request_valid_fields : valid_fields (demo_request "3.4" "").
Proof.
  repeat split; try reflexivity. exists "truck-12". by split.
Qed.

Lemma register_then_remove_witness :
  reachable demo_world1
  ∧ accepted demo_upload
  ∧ valid_fields (demo_request "3.4" "")
  ∧ ∃ p r,
      (POST_register (Some demo_upload) 42 (demo_request "3.4" "")
         demo_world1).1 = Routed r
      ∧ res_status r = 201%nat
      ∧ res_json r = success_pothole "Pothole registered successfully" p
      ∧ potholes (POST_register (Some demo_upload) 42 (demo_request "3.4" "")
                    demo_world1).2 = potholes demo_world1 ++ [p]
      ∧ stored_path demo_world1
          (storage_filename (clock demo_world1 (ticks demo_world1)) 42
             demo_upload)
        ∈ files (POST_register (Some demo_upload) 42 (demo_request "3.4" "")
                   demo_world1).2
      ∧ res_status
          (delete_id (_id p)
             (POST_register (Some demo_upload) 42 (demo_request "3.4" "")
                demo_world1).2).1
        = 200%nat
      ∧ potholes
          (delete_id (_id p)
             (POST_register (Some demo_upload) 42 (demo_request "3.4" "")
                demo_world1).2).2
        = potholes demo_world1
      ∧ files
          (delete_id (_id p)
             (POST_register (Some demo_upload) 42 (demo_request "3.4" "")
                demo_world1).2).2
        = files demo_world1
          ∖ {[stored_path demo_world1
                (storage_filename (clock demo_world1 (ticks demo_world1)) 42
                   demo_upload)]}.
Proof.
  split; [exact demo_world1_reachable|].
  split; [exact demo_upload_accepted|].
  split; [exact demo_request_valid_fields|].
  exact (register_then_remove demo_upload 42 (demo_request "3.4" "")
           demo_world1 demo_world1_reachable demo_upload_accepted
           demo_request_valid_fields).
Defined.

(** X22: what holds of the stored reports survives a registration through
    the upload middleware, whatever the image part and the fields are: stored
    statuses stay within the enum, every timestamp is a clock reading already
    taken with [createdAt] read no later than [updatedAt], every id is below
    the next one to be given out, and ids stay distinct.  The clock reading
    that names the stored file is taken before the report's own readings. *)
Theorem pipeline_keeps_invariant
    (part : option Upload) (random : Z) (req : RegisterRequest) (w : World) :
  Inv w → Inv (POST_register part random req w).2.
Proof.
  intros HI. destruct part as [file|].
  - destruct (decide (fileFilter file = true ∧ size file < fileSize))
      as [Hacc|Hn].
    + rewrite (POST_register_accepted file random req w Hacc). cbv zeta.
      cbn [snd]. apply Inv_register.
      eapply Inv_same; [| | | |exact HI]; simpl; try reflexivity; lia.
    + rewrite (POST_register_refused file random req w Hn).
      destruct (fileFilter file); cbn [snd]; [|exact HI].
      eapply Inv_same; [| | | |exact HI]; simpl; try reflexivity; lia.
  - unfold POST_register, upload_single.
    pose proof (Inv_register (with_file None req) w HI) as H.
    by destruct (post_register (with_file None req) w).
Qed.

Lemma pipeline_keeps_invariant_witness :
  Inv demo_world1
  ∧ Inv (POST_register (Some demo_upload) 42 (demo_request "3.4" "")
           demo_world1).2.
Proof.
  split; [exact (reachable_inv demo_world1 demo_world1_reachable)|].
  exact (pipeline_keeps_invariant (Some demo_upload) 42
           (demo_request "3.4" "") demo_world1
           (reachable_inv demo_world1 demo_world1_reachable)).
Defined.
